(** * Map generator and population simulator: a shallow embedding

    The Go program packs circles on a grid ([Generate], [generateCircles]),
    classifies cells ([getCellType]), seeds a population
    ([generateDistribution]) and advances it ([moveNumbers]).  Every function
    below is a transcription of the Go function of the same name.

    Conventions of the embedding.
    - Go's [int] is a 64-bit two's complement integer: values are kept in [Z]
      and every [+], [-], [*] of the source goes through [wrap].
    - A [float64] value is kept as the rational it denotes ([Q]).  The
      conversion [float64(n)], the product [p * 50] of
      [createProbabilitySelector] and [math.Sqrt] round to the nearest
      binary64 value, ties to even, as IEEE 754 has it ([round64], [fmul],
      [Sqrt]; [machine_agrees] and [machine_agrees_on_ranges] compare them
      with the binary64 arithmetic of the machine); infinities and NaN are
      not values of the model.  The other
      float operations of the source (the polar offsets of
      [generateNearbyPosition] and [getRandomSpawnPoint], the product
      [rand.Float64() * 100] of [moveNumbers]) are taken exactly; [math.Cos],
      [math.Sin] and [math.Pi] are library values taken as parameters
      ([FloatMath]).
    - The process-wide [math/rand] source is an explicit stream of raw draws
      with a read position ([Rand]); [rand.Intn] and [rand.Float64] consume
      one draw each.
    - A Go panic (index out of range, [rand.Intn] with a non-positive
      argument) is [None] in the option monad.
    - The map key [fmt.Sprintf("%d,%d", x, y)] is the pair [(x, y)]: the
      rendering is injective on pairs of integers. *)

From Stdlib Require Import ZArith List QArith Qreduction Lia Permutation String DecimalString.
From Stdlib Require Import Reals Lra.
From Stdlib Require Lqa.
From Stdlib Require PrimFloat FloatOps SpecFloat Uint63.
From stdpp Require Import gmap list.

Open Scope Z_scope.

(** ** Go integers *)

Definition wrap (z : Z) : Z := (z + 2 ^ 63) mod 2 ^ 64 - 2 ^ 63.

Definition iadd (a b : Z) : Z := wrap (a + b).
Definition isub (a b : Z) : Z := wrap (a - b).
Definition imul (a b : Z) : Z := wrap (a * b).
(** Go's [/] on integers truncates toward zero. *)
Definition idiv (a b : Z) : Z := wrap (Z.quot a b).

Definition is_int (z : Z) : Prop := - 2 ^ 63 <= z < 2 ^ 63.

Definition len {A} (l : list A) : Z := Z.of_nat (length l).

(** ** Floating point *)

Definition Qltb (a b : Q) : bool := negb (Qle_bool b a).

(** [floor (log2 (a / b))] for positive [a] and [b]. *)
Definition ilog2 (a b : Z) : Z :=
  let e := Z.log2 a - Z.log2 b in
  if 0 <=? e
  then (if a <? b * 2 ^ e then e - 1 else e)
  else (if a * 2 ^ (- e) <? b then e - 1 else e).

(** The integer nearest to [num / den], ties to even; [den] is positive. *)
Definition roundHalfEven (num den : Z) : Z :=
  let q := num / den in
  match 2 * (num mod den) ?= den with
  | Lt => q
  | Gt => q + 1
  | Eq => if Z.even q then q else q + 1
  end.

(** The positive rational [a / b] rounded to 53 significant bits, or to a
    multiple of [2^-1074] where 53 bits would reach below that; the result
    is a fraction in lowest terms. *)
Definition round64pos (a b : Z) : Q :=
  let k := Z.min (52 - ilog2 a b) 1074 in
  if 0 <=? k
  then Qred (roundHalfEven (a * 2 ^ k) b # Z.to_pos (2 ^ k))
  else Qred (inject_Z (roundHalfEven a (b * 2 ^ (- k)) * 2 ^ (- k))).

(** Rounding to the nearest binary64 value, ties to even. *)
Definition round64 (x : Q) : Q :=
  match Qnum x with
  | 0 => 0
  | Z.pos a => round64pos (Z.pos a) (Z.pos (Qden x))
  | Z.neg a => - round64pos (Z.pos a) (Z.pos (Qden x))
  end.

(** [float64(n)]: exact up to [2^53], rounded above. *)
Definition float64 (n : Z) : Q := round64 (inject_Z n).

(** [int(f)]: truncation toward zero.  Go leaves the result open when the
    value does not fit an [int]; the model wraps it, and the statements that
    depend on the value keep to the values that fit. *)
Definition truncate (f : Q) : Z := Z.quot (Qnum f) (Z.pos (Qden f)).
Definition int (f : Q) : Z := wrap (truncate f).

(** [x * y] on [float64]. *)
Definition fmul (x y : Q) : Q := round64 (x * y).

(** [math.Sqrt] of a value that is not negative: the root rounded to the
    nearest binary64 value.  The root is taken to 55 bits or more behind
    the point and a last bit is set when anything is cut off; this rounds
    as the root itself does. *)
Definition Sqrt (x : Q) : Q :=
  match Qnum x with
  | Z.pos a =>
      let b := Z.pos (Qden x) in
      let k := 55 + Z.log2 b in
      let scaled := Z.pos a * 4 ^ k in
      let q := Z.sqrt (scaled / b) in
      let sticky := if (q * q =? scaled / b) && (scaled mod b =? 0) then 0 else 1 in
      round64 ((2 * q + sticky) # Z.to_pos (2 ^ (k + 1)))
  | _ => 0
  end.

(** [math.Sqrt(float64(n)) < float64(s)]: a negative [n] gives NaN, which
    compares false with everything. *)
Definition sqrtLt (n s : Z) : bool :=
  (0 <=? n) && Qltb (Sqrt (float64 n)) (float64 s).

(** The binary64 arithmetic of the machine, to compare the roundings above
    with: the rational that a finite binary64 value denotes, and the
    conversion of an integer. *)
Definition ofFloat (f : PrimFloat.float) : Q :=
  match FloatOps.Prim2SF f with
  | SpecFloat.S754_finite s m e =>
      let v := if 0 <=? e then inject_Z (Z.pos m * 2 ^ e)
               else Z.pos m # Z.to_pos (2 ^ (- e)) in
      Qred (if s then - v else v)
  | _ => 0
  end.

Definition machineFloat (n : Z) : PrimFloat.float :=
  PrimFloat.of_uint63 (Uint63.of_Z n).

Class FloatMath := {
  Cos : Q → Q;
  Sin : Q → Q;
  Pi : Q
}.

(** ** The random source *)

Record Rand := {
  draws : nat → Z;
  pos : nat
}.

Definition peek (r : Rand) : Z := draws r (pos r).
Definition next (r : Rand) : Rand := {| draws := draws r; pos := S (pos r) |}.

(** [rand.Intn(n)]: panics when [n <= 0], else a value of [[0, n)]. *)
Definition Intn (n : Z) (r : Rand) : option (Z * Rand) :=
  if n <=? 0 then None else Some (peek r mod n, next r).

(** [rand.Float64()]: a value of [[0, 1)], a multiple of [2^-53]. *)
Definition Float64 (r : Rand) : Q * Rand :=
  (Qmake (peek r mod 2 ^ 53) (2 ^ 53), next r).

(** A source that replays a list of draws and then returns zeros. *)
Definition replay (l : list Z) : Rand := {| draws := λ n, nth n l 0; pos := 0 |}.

(** Loops with a body that may panic. *)
Fixpoint foldM {A B} (f : B → A → option B) (l : list A) (b : B) : option B :=
  match l with
  | [] => Some b
  | a :: l' => b' ← f b a; foldM f l' b'
  end.

(** [%d] of [fmt]. *)
Definition showInt (z : Z) : string := NilZero.string_of_int (Z.to_int z).

(** ** Data *)

Record Circle := {
  X : Z;
  Y : Z;
  Radius : Z;
  Type_ : string
}.

Record Config := {
  Width : Z;
  Height : Z;
  Spawns : Z;
  Bedrooms : Z;
  SpawnR : Z;
  BedroomR : Z;
  MaxGap : Z
}.

Record Cell := {
  cX : Z;
  cY : Z;
  Vals : list Z
}.

Record MapGenerator := {
  config : Config;
  spawns : list Circle;
  bedrooms : list Circle
}.

Definition NewMapGenerator (cfg : Config) : MapGenerator :=
  {| config := cfg; spawns := []; bedrooms := [] |}.

Definition setType (t : string) (c : Circle) : Circle :=
  {| X := X c; Y := Y c; Radius := Radius c; Type_ := t |}.

Definition getAllCircles (g : MapGenerator) : list Circle :=
  map (setType "spawn") (spawns g) ++ map (setType "bedroom") (bedrooms g).

(** ** Circle packing *)

(** The squared distance of the source, in Go arithmetic. *)
Definition dist2 (a b : Circle) : Z :=
  iadd (imul (isub (X a) (X b)) (isub (X a) (X b)))
       (imul (isub (Y a) (Y b)) (isub (Y a) (Y b))).

Definition tooClose (newCircle existing : Circle) : bool :=
  sqrtLt (dist2 newCircle existing) (iadd (Radius newCircle) (Radius existing)).

Definition outOfBounds (cfg : Config) (c : Circle) : bool :=
  (isub (X c) (Radius c) <? 0) || (Width cfg <=? iadd (X c) (Radius c)) ||
  (isub (Y c) (Radius c) <? 0) || (Height cfg <=? iadd (Y c) (Radius c)).

Definition canPlaceCircle (g : MapGenerator) (newCircle : Circle) : bool :=
  if outOfBounds (config g) newCircle then false
  else forallb (λ existing, negb (tooClose newCircle existing)) (getAllCircles g).

(** The uniform proposal [radius + rand.Intn(size - 2*radius)]. *)
Definition uniformCoord (size radius : Z) (r : Rand) : option (Z * Rand) :=
  '(k, r1) ← Intn (isub size (imul 2 radius)) r;
  Some (iadd radius k, r1).

Fixpoint nearbyAttempts `{FloatMath} (attempts : nat) (g : MapGenerator)
    (baseCircle : Circle) (radius : Z) (r : Rand) : option (Z * Z * Rand) :=
  match attempts with
  | O =>
      '(x, r1) ← uniformCoord (Width (config g)) radius r;
      '(y, r2) ← uniformCoord (Height (config g)) radius r1;
      Some (x, y, r2)
  | S attempts' =>
      let '(f1, r1) := Float64 r in
      let angle := (f1 * 2 * Pi)%Q in
      let minDistance := float64 (iadd (Radius baseCircle) radius) in
      let maxDistance := (minDistance + float64 (MaxGap (config g)))%Q in
      let '(f2, r2) := Float64 r1 in
      let distance := (minDistance + f2 * (maxDistance - minDistance))%Q in
      let x := int (float64 (X baseCircle) + distance * Cos angle)%Q in
      let y := int (float64 (Y baseCircle) + distance * Sin angle)%Q in
      if (radius <=? x) && (x <? isub (Width (config g)) radius) &&
         (radius <=? y) && (y <? isub (Height (config g)) radius)
      then Some (x, y, r2)
      else nearbyAttempts attempts' g baseCircle radius r2
  end.

Definition generateNearbyPosition `{FloatMath} (g : MapGenerator)
    (baseCircle : Circle) (radius : Z) (r : Rand) : option (Z * Z * Rand) :=
  nearbyAttempts 30 g baseCircle radius r.

(** One proposal of the placement loops. *)
Definition propose `{FloatMath} (g : MapGenerator) (radius : Z) (r : Rand)
    : option (Circle * Rand) :=
  let existing := getAllCircles g in
  if 0 <? len existing then
    '(k, r1) ← Intn (len existing) r;
    base ← existing !! Z.to_nat k;
    '(x, y, r2) ← generateNearbyPosition g base radius r1;
    Some ({| X := x; Y := y; Radius := radius; Type_ := "" |}, r2)
  else
    '(x, r1) ← uniformCoord (Width (config g)) radius r;
    '(y, r2) ← uniformCoord (Height (config g)) radius r1;
    Some ({| X := x; Y := y; Radius := radius; Type_ := "" |}, r2).

(** The inner loop [for attempts := 0; attempts < 3000; attempts++]: the
    accepted circle, or nothing when the budget is used up. *)
Fixpoint placeOne `{FloatMath} (attempts : nat) (g : MapGenerator) (radius : Z)
    (r : Rand) : option (option Circle * Rand) :=
  match attempts with
  | O => Some (None, r)
  | S attempts' =>
      '(newCircle, r1) ← propose g radius r;
      if canPlaceCircle g newCircle then Some (Some newCircle, r1)
      else placeOne attempts' g radius r1
  end.

Inductive Kind := KSpawn | KBedroom.

Definition kindName (k : Kind) : string :=
  match k with KSpawn => "spawn" | KBedroom => "bedroom" end.

Definition kindRadius (k : Kind) (cfg : Config) : Z :=
  match k with KSpawn => SpawnR cfg | KBedroom => BedroomR cfg end.

Definition addCircle (k : Kind) (g : MapGenerator) (c : Circle) : MapGenerator :=
  match k with
  | KSpawn => {| config := config g; spawns := spawns g ++ [c]; bedrooms := bedrooms g |}
  | KBedroom => {| config := config g; spawns := spawns g; bedrooms := bedrooms g ++ [c] |}
  end.

Definition placeError (k : Kind) (i : Z) : string :=
  ("не удалось разместить " ++ kindName k ++ " " ++ showInt (iadd i 1))%string.

(** The outer loops [for i := ...; i < count; i++], run for [n] more rounds
    from index [i]; the result is the error (if any) and the generator.
    The source writes the loop twice, for spawns and for bedrooms: the two
    copies differ in the radius, the slice that grows and the word of the
    message, which [k] selects. *)
Fixpoint placeLoop `{FloatMath} (k : Kind) (n : nat) (i : Z) (g : MapGenerator)
    (r : Rand) : option (option string * MapGenerator * Rand) :=
  match n with
  | O => Some (None, g, r)
  | S n' =>
      '(placed, r1) ← placeOne 3000 g (kindRadius k (config g)) r;
      match placed with
      | Some newCircle => placeLoop k n' (iadd i 1) (addCircle k g newCircle) r1
      | None => Some (Some (placeError k i), g, r1)
      end
  end.

(** [rand.Seed] makes the stream that follows arbitrary: [r] is that stream. *)
Definition Generate `{FloatMath} (g : MapGenerator) (r : Rand)
    : option (option string * MapGenerator * Rand) :=
  let cfg := config g in
  let g1 :=
    if 0 <? Spawns cfg then
      let center := {| X := idiv (Width cfg) 2; Y := idiv (Height cfg) 2;
                       Radius := SpawnR cfg; Type_ := "" |} in
      if canPlaceCircle g center then addCircle KSpawn g center else g
    else g in
  '(err, g2, r1) ← placeLoop KSpawn (Z.to_nat (Spawns cfg - len (spawns g1)))
                     (len (spawns g1)) g1 r;
  match err with
  | Some e => Some (Some e, g2, r1)
  | None => placeLoop KBedroom (Z.to_nat (Bedrooms cfg)) 0 g2 r1
  end.

Definition validateConfig (cfg : Config) : option string :=
  if (Width cfg <=? 0) || (Height cfg <=? 0) then
    Some "размеры карты должны быть положительными"%string
  else if (100 <? Width cfg) || (100 <? Height cfg) then
    Some "размеры карты слишком большие (max 100x100)"%string
  else if (Spawns cfg <? 0) || (Bedrooms cfg <? 0) then
    Some "количество spawn/bedroom не может быть отрицательным"%string
  else None.



(** ** The image variant of the packer *)

Module Image.

Record Circle := {
  X : Z;
  Y : Z;
  Radius : Z;
  IsSpawn : bool
}.

Record MapGenerator := {
  Width : Z;
  Height : Z;
  SpawnCount : Z;
  BedroomCount : Z;
  SpawnRadius : Z;
  BedroomRadius : Z;
  MaxGap : Z;
  CellSize : Z
}.






End Image.

(** ** Cell classification *)

Fixpoint getCellType (x y : Z) (circles : list Circle) : Z :=
  match circles with
  | [] => 0
  | circle :: rest =>
      let dx := isub x (X circle) in
      let dy := isub y (Y circle) in
      if (dx =? 0) && (dy =? 0) then 2
      else if iadd (imul dx dx) (imul dy dy) <=? imul (Radius circle) (Radius circle)
      then 1
      else getCellType x y rest
  end.

(** ** Seeding *)

(** The outer loop of [createProbabilitySelector] from index [idx] on; the
    inner loop appends [count] copies of [idx]. *)
Fixpoint selectorLoop (idx : Z) (probabilities : list Q) (selector : list Z) : list Z :=
  match probabilities with
  | [] => selector
  | p :: rest =>
      let count := int (fmul p 50) in
      selectorLoop (idx + 1) rest (selector ++ replicate (Z.to_nat count) idx)
  end.

Definition createProbabilitySelector (probabilities : list Q) : list Z :=
  selectorLoop 0 probabilities [].

(** [selector[rand.Intn(len(selector))]] *)
Definition pick (selector : list Z) (r : Rand) : option (Z * Rand) :=
  '(i, r1) ← Intn (len selector) r;
  v ← selector !! Z.to_nat i;
  Some (v, r1).

Fixpoint pickMany (count : nat) (selector : list Z) (r : Rand)
    : option (list Z * Rand) :=
  match count with
  | O => Some ([], r)
  | S count' =>
      '(v, r1) ← pick selector r;
      '(vs, r2) ← pickMany count' selector r1;
      Some (v :: vs, r2)
  end.

(** The grid in the order of the two nested loops: [y] outside, [x] inside. *)
Definition coords (cfg : Config) : list (Z * Z) :=
  y ← seqZ 0 (Height cfg); x ← seqZ 0 (Width cfg); [(x, y)].

(** The body of the inner loop of [generateDistribution]. *)
Definition seedCell (circles : list Circle) (selector : list Z)
    (st : list Cell * Rand) (xy : Z * Z) : option (list Cell * Rand) :=
  let '(cells, r) := st in
  let '(x, y) := xy in
  let cellType := getCellType x y circles in
  if cellType =? 2 then Some (cells, r)
  else
    '(vals, r1) ←
      (if cellType =? 1 then
         '(v, r1) ← pick selector r; Some ([v], r1)
       else if cellType =? 0 then
         '(c, r1) ← Intn 2 r;
         pickMany (Z.to_nat (1 + c)) selector r1
       else Some ([], r));
    if 0 <? len vals
    then Some (cells ++ [{| cX := x; cY := y; Vals := vals |}], r1)
    else Some (cells, r1).

Definition generateDistribution (cfg : Config) (circles : list Circle)
    (probabilities : list Q) (r : Rand) : option (list Cell * Rand) :=
  let selector := createProbabilitySelector probabilities in
  if len selector =? 0 then Some ([], r)
  else foldM (seedCell circles selector) (coords cfg) ([], r).

(** ** Migration *)

Definition directions : list (Z * Z) :=
  [(-1, -1); (-1, 0); (-1, 1); (0, -1); (0, 1); (1, -1); (1, 0); (1, 1)].

Definition inGrid (cfg : Config) (xy : Z * Z) : bool :=
  (0 <=? xy.1) && (xy.1 <? Width cfg) && (0 <=? xy.2) && (xy.2 <? Height cfg).

Definition getNeighbors (x y : Z) (cfg : Config) : list (Z * Z) :=
  d ← directions;
  let n := (iadd x d.1, iadd y d.2) in
  if inGrid cfg n then [n] else [].

(** [newState[key]] reads the empty slice at a missing key. *)
Definition tokensAt (m : gmap (Z * Z) (list Z)) (key : Z * Z) : list Z :=
  default [] (m !! key).

(** [newState[key] = append(newState[key], val)] *)
Definition appendAt (m : gmap (Z * Z) (list Z)) (key : Z * Z) (val : Z)
    : gmap (Z * Z) (list Z) :=
  <[key := tokensAt m key ++ [val]]> m.

(** The Fisher-Yates loop [for i := len(neighbors) - 1; i > 0; i--]. *)
Fixpoint shuffle (i : nat) (neighbors : list (Z * Z)) (r : Rand)
    : option (list (Z * Z) * Rand) :=
  match i with
  | O => Some (neighbors, r)
  | S i' =>
      '(j, r1) ← Intn (Z.of_nat i + 1) r;
      a ← neighbors !! i;
      b ← neighbors !! Z.to_nat j;
      shuffle i' (<[i := b]> (<[Z.to_nat j := a]> neighbors)) r1
  end.

Definition canMove (circles : list Circle) (newState : gmap (Z * Z) (list Z))
    (neigh : Z * Z) : bool :=
  let neighborType := getCellType neigh.1 neigh.2 circles in
  let currentCount := len (tokensAt newState neigh) in
  if neighborType =? 0 then currentCount <? 2
  else if neighborType =? 1 then currentCount <? 1
  else false.

(** The scan [for _, neigh := range neighbors]; the flag is [moved]. *)
Fixpoint scan (circles : list Circle) (newState : gmap (Z * Z) (list Z))
    (neighbors : list (Z * Z)) (val : Z) : gmap (Z * Z) (list Z) * bool :=
  match neighbors with
  | [] => (newState, false)
  | neigh :: rest =>
      if canMove circles newState neigh then (appendAt newState neigh val, true)
      else scan circles newState rest val
  end.

(** [speeds[speedIdx]] after the fallback to index 0; a negative index panics. *)
Definition speedOf (speeds : list Q) (val : Z) : option Q :=
  let speedIdx := if len speeds <=? val then 0 else val in
  if speedIdx <? 0 then None else speeds !! Z.to_nat speedIdx.

(** The body of the loop over the values of one cell. *)
Definition moveToken (cfg : Config) (circles : list Circle) (speeds : list Q)
    (cell : Cell) (st : gmap (Z * Z) (list Z) * Rand) (val : Z)
    : option (gmap (Z * Z) (list Z) * Rand) :=
  let '(newState, r) := st in
  speed ← speedOf speeds val;
  let '(f, r1) := Float64 r in
  if Qltb (f * 100) speed then
    let neighbors := getNeighbors (cX cell) (cY cell) cfg in
    '(shuffled, r2) ← shuffle (length neighbors - 1) neighbors r1;
    let '(newState', moved) := scan circles newState shuffled val in
    if moved then Some (newState', r2)
    else Some (appendAt newState' (cX cell, cY cell) val, r2)
  else Some (appendAt newState (cX cell, cY cell) val, r1).

Definition moveCell (cfg : Config) (circles : list Circle) (speeds : list Q)
    (st : gmap (Z * Z) (list Z) * Rand) (cell : Cell)
    : option (gmap (Z * Z) (list Z) * Rand) :=
  foldM (moveToken cfg circles speeds cell) (Vals cell) st.

(** The conversion back to a slice of cells. *)
Definition collect (cfg : Config) (newState : gmap (Z * Z) (list Z)) : list Cell :=
  xy ← coords cfg;
  let vals := tokensAt newState xy in
  if 0 <? len vals then [{| cX := xy.1; cY := xy.2; Vals := vals |}] else [].

(** [newState] with an empty slice at every coordinate of the grid. *)
Definition emptyState (cfg : Config) : gmap (Z * Z) (list Z) :=
  foldl (λ m xy, <[xy := []]> m) ∅ (coords cfg).

(** [rand.Seed] makes the stream that follows arbitrary: [r] is that stream.
    The map [state] of the source is filled and never read. *)
Definition moveNumbers (cfg : Config) (circles : list Circle) (cells : list Cell)
    (speeds : list Q) (r : Rand) : option (list Cell * Rand) :=
  if len speeds =? 0 then Some (cells, r)
  else
    let state : gmap (Z * Z) (list Z) :=
      foldl (λ m cell, <[(cX cell, cY cell) := Vals cell]> m) ∅ cells in
    '(newState, r1) ← foldM (moveCell cfg circles speeds) cells (emptyState cfg, r);
    Some (collect cfg newState, r1).

(** The two errors of [validateSpeeds]; the second carries the index and
    the value that its message prints. *)
Inductive SpeedsError :=
  | SpeedsEmpty
  | SpeedOutOfRange (i : Z) (speed : Q).

Fixpoint checkSpeeds (i : Z) (speeds : list Q) : option SpeedsError :=
  match speeds with
  | [] => None
  | speed :: rest =>
      if Qltb speed 0 || Qltb 100 speed then Some (SpeedOutOfRange i speed)
      else checkSpeeds (i + 1) rest
  end.

Definition validateSpeeds (speeds : list Q) : option SpeedsError :=
  if len speeds =? 0 then Some SpeedsEmpty else checkSpeeds 0 speeds.

(** ** Vocabulary of the statements *)

Definition Exterior : Z := 0.
Definition Interior : Z := 1.
Definition Center : Z := 2.

(** Capacity of a zone: 2 outside the circles, 1 inside, 0 at a centre. *)
Definition capacity (cellType : Z) : Z :=
  if cellType =? 0 then 2 else if cellType =? 1 then 1 else 0.

(** All tokens a population stores at one coordinate, in order. *)
Definition tokensOf (cells : list Cell) (xy : Z * Z) : list Z :=
  cell ← cells; if decide ((cX cell, cY cell) = xy) then Vals cell else [].

(** All tokens of a population. *)
Definition allTokens (cells : list Cell) : list Z :=
  cell ← cells; Vals cell.

Definition totalTokens (cells : list Cell) : Z := len (allTokens cells).

Definition respectsCapacity (circles : list Circle) (cells : list Cell) : Prop :=
  ∀ x y, len (tokensOf cells (x, y)) <= capacity (getCellType x y circles).

(** A population of the grid: coordinates inside, token types not negative. *)
Definition wellFormed (cfg : Config) (cells : list Cell) : Prop :=
  Forall (λ cell, inGrid cfg (cX cell, cY cell) = true ∧ Forall (λ v, 0 <= v) (Vals cell)) cells.

(** The disc test of [getCellType] for one circle, in Go arithmetic. *)
Definition inDisc (x y : Z) (circle : Circle) : bool :=
  let dx := isub x (X circle) in
  let dy := isub y (Y circle) in
  iadd (imul dx dx) (imul dy dy) <=? imul (Radius circle) (Radius circle).

(** The scaled probability fits an [int]: the conversion [int(p * 50)] is
    then the truncation, on every platform. *)
Definition convertible (p : Q) : Prop :=
  (inject_Z (- 2 ^ 63) < fmul p 50)%Q ∧ (fmul p 50 < inject_Z (2 ^ 63))%Q.

(** The number of copies of type [i] that the selector holds: the product
    [p_i * 50], rounded to binary64 and then truncated. *)
Definition weight (probabilities : list Q) (i : Z) : nat :=
  if i <? 0 then 0%nat
  else match probabilities !! Z.to_nat i with
       | Some p => Z.to_nat (truncate (fmul p 50))
       | None => 0%nat
       end.

(** What [generateDistribution] stores for one coordinate that is not a
    centre. *)
Definition seeded (circles : list Circle) (selector : list Z)
    (xy : Z * Z) (cell : Cell) : Prop :=
  (cX cell, cY cell) = xy ∧
  (getCellType xy.1 xy.2 circles = Interior → length (Vals cell) = 1%nat) ∧
  (getCellType xy.1 xy.2 circles = Exterior →
     length (Vals cell) = 1%nat ∨ length (Vals cell) = 2%nat) ∧
  Forall (λ v, v ∈ selector) (Vals cell).

(** A token type whose speed entry is not positive: its draw always fails. *)
Definition neverMoves (speeds : list Q) (v : Z) : Prop :=
  ∃ speed, speedOf speeds v = Some speed ∧ (speed <= 0)%Q.

(** The Euclidean distance between two centres is at least the sum of the
    radii, over the reals. *)
Definition apartXYR (x1 y1 r1 x2 y2 r2 : Z) : Prop :=
  (IZR (r1 + r2) <= sqrt (IZR ((x1 - x2) * (x1 - x2) + (y1 - y2) * (y1 - y2))))%R.

Definition apart (a b : Circle) : Prop :=
  apartXYR (X a) (Y a) (Radius a) (X b) (Y b) (Radius b).


(** The circle lies within the grid: centre minus radius and centre plus
    radius are cell indices on both axes. *)
Definition contained (cfg : Config) (c : Circle) : Prop :=
  0 <= Radius c ∧
  0 <= X c - Radius c ∧ X c + Radius c < Width cfg ∧
  0 <= Y c - Radius c ∧ Y c + Radius c < Height cfg.

(** Radii for which the arithmetic of the packer does not wrap around. *)
Definition radiiInRange (cfg : Config) : Prop :=
  0 <= SpawnR cfg < 2 ^ 62 ∧ 0 <= BedroomR cfg < 2 ^ 62.

(** The same for the image variant, whose canvas is measured in pixels. *)
Definition imageInRange (mg : Image.MapGenerator) : Prop :=
  0 <= Image.Width mg * Image.CellSize mg < 2 ^ 31 ∧
  0 <= Image.Height mg * Image.CellSize mg < 2 ^ 31 ∧
  0 <= Image.SpawnRadius mg < 2 ^ 62 ∧
  0 <= Image.BedroomRadius mg < 2 ^ 62.

Definition placedOf (k : Kind) (g : MapGenerator) : list Circle :=
  match k with KSpawn => spawns g | KBedroom => bedrooms g end.


(** The invariant of the placement loops. *)
Definition packed (cfg : Config) (g : MapGenerator) : Prop :=
  config g = cfg ∧
  Forall (contained cfg) (getAllCircles g) ∧
  ForallOrdPairs apart (getAllCircles g).

(** Two stand-ins for the float library, to run the packer on examples:
    every angle points along the x axis, or every offset vanishes. *)
Definition axisMath : FloatMath := {| Cos := λ _, 1%Q; Sin := λ _, 0%Q; Pi := 3%Q |}.

(** ** Players *)

(** The circles whose type is the word spawn, in order. *)
Definition getSpawnPoints (circles : list Circle) : list Circle :=
  circle ← circles;
  if String.eqb (Type_ circle) "spawn" then [circle] else [].

(** A position around a spawn circle at a distance drawn from
    [[1, Radius)]; [(0, 0)] when there is no spawn circle. *)
Definition getRandomSpawnPoint `{FloatMath} (spawns : list Circle) (r : Rand)
    : option (Z * Z * Rand) :=
  if len spawns =? 0 then Some (0, 0, r)
  else
    '(k, r1) ← Intn (len spawns) r;
    spawn ← spawns !! Z.to_nat k;
    let '(f1, r2) := Float64 r1 in
    let angle := (f1 * 2 * Pi)%Q in
    let '(f2, r3) := Float64 r2 in
    let radius := (1 + f2 * float64 (isub (Radius spawn) 1))%Q in
    let x := iadd (X spawn) (int (radius * Cos angle)%Q) in
    let y := iadd (Y spawn) (int (radius * Sin angle)%Q) in
    Some (x, y, r3).

(** What [spawnPlayerHandler] answers once the circles of the map are read
    from the store; the insert of the player is taken to succeed. *)
Inductive SpawnResponse :=
  | SpawnError (status : Z) (body : string)
  | Spawned (x y : Z).

Definition spawnPlayerHandler `{FloatMath} (circles : list Circle) (r : Rand)
    : option (SpawnResponse * Rand) :=
  let spawns := getSpawnPoints circles in
  if len spawns =? 0 then
    Some (SpawnError 400 "На карте нет точек спавна"%string, r)
  else
    '(spawnX, spawnY, r1) ← getRandomSpawnPoint spawns r;
    Some (Spawned spawnX spawnY, r1).

(** What [movePlayerHandler] answers once the position of the player and
    the configuration of the map are read from the store. *)
Inductive MoveResponse :=
  | MoveError (status : Z) (body : string)
  | Moved (x y : Z) (message : string).

Definition movePlayerHandler (cfg : Config) (currentX currentY : Z)
    (direction : string) : MoveResponse :=
  let target :=
    if String.eqb direction "up" then Some (currentX, isub currentY 1)
    else if String.eqb direction "down" then Some (currentX, iadd currentY 1)
    else if String.eqb direction "left" then Some (isub currentX 1, currentY)
    else if String.eqb direction "right" then Some (iadd currentX 1, currentY)
    else None in
  match target with
  | None =>
      MoveError 400 "Некорректное направление. Используйте: up, down, left, right"%string
  | Some (newX, newY) =>
      if (newX <? 0) || (Width cfg <=? newX) || (newY <? 0) || (Height cfg <=? newY)
      then MoveError 400 "Выход за границы карты"%string
      else Moved newX newY
             ("Игрок перемещен " ++ direction ++ " на (" ++ showInt newX ++ ", " ++
              showInt newY ++ ")")%string
  end.

(** The position that the store holds after the request: the row of the
    player is updated only when the move is accepted. *)
Definition positionAfter (cfg : Config) (xy : Z * Z) (direction : string) : Z * Z :=
  match movePlayerHandler cfg xy.1 xy.2 direction with
  | Moved x y _ => (x, y)
  | MoveError _ _ => xy
  end.

(** One entry of [view_grid]; a key that the handler does not set is [None]. *)
Record CellData := {
  map_x : Z;
  map_y : Z;
  view_x : Z;
  view_y : Z;
  is_player : bool;
  vtype : option string;
  color : option string;
  description : option string;
  numbers : list Z
}.

(** The map [cellMap]: a later cell with the same coordinate replaces an
    earlier one. *)
Definition cellMapOf (cells : list Cell) : gmap (Z * Z) (list Z) :=
  foldl (λ m cell, <[(cX cell, cY cell) := Vals cell]> m) ∅ cells.

(** The body of the two loops of [playerViewHandler]. *)
Definition viewCell (cfg : Config) (circles : list Circle)
    (cellMap : gmap (Z * Z) (list Z)) (playerX playerY dx dy : Z) : CellData :=
  let mapX := iadd playerX dx in
  let mapY := iadd playerY dy in
  let viewX := iadd dx 2 in
  let viewY := iadd dy 2 in
  let isPlayer := (dx =? 0) && (dy =? 0) in
  if (mapX <? 0) || (Width cfg <=? mapX) || (mapY <? 0) || (Height cfg <=? mapY) then
    {| map_x := mapX; map_y := mapY; view_x := viewX; view_y := viewY;
       is_player := isPlayer; vtype := Some "outside"%string;
       color := Some "black"%string; description := Some "Вне карты"%string;
       numbers := [] |}
  else
    let cellType := getCellType mapX mapY circles in
    let '(t, c, d) :=
      if cellType =? 0 then
        (Some "empty", Some "white", Some "Пустая клетка")%string
      else if cellType =? 1 then
        (Some "inside_circle", Some "blue", Some "Внутри круга")%string
      else if cellType =? 2 then
        (Some "circle_center", Some "green", Some "Центр круга")%string
      else (None, None, None) in
    {| map_x := mapX; map_y := mapY; view_x := viewX; view_y := viewY;
       is_player := isPlayer; vtype := t; color := c; description := d;
       numbers := tokensAt cellMap (mapX, mapY) |}.

(** [view_grid]: the row [viewY] holds the entries for [dy = viewY - 2],
    each slot being written once by the loops over [dy] and [dx]. *)
Definition playerViewHandler (cfg : Config) (circles : list Circle)
    (cells : list Cell) (playerX playerY : Z) : list (list CellData) :=
  let cellMap := cellMapOf cells in
  (λ dy, (λ dx, viewCell cfg circles cellMap playerX playerY dx dy) <$> seqZ (-2) 5)
    <$> seqZ (-2) 5.

(** ** Epochs *)

(** What [newEpochHandler] computes once the map, its speeds, its epoch and
    its cells are read from the store: the new epoch and the new cells. *)
Definition newEpochHandler (cfg : Config) (circles : list Circle)
    (speeds : list Q) (epoch : Z) (cells : list Cell) (r : Rand)
    : option (Z * list Cell * Rand) :=
  '(cells1, r1) ←
    (if len cells =? 0 then generateDistribution cfg circles [90%Q; 10%Q] r
     else Some (cells, r));
  '(cells2, r2) ←
    (if 0 <? len speeds then moveNumbers cfg circles cells1 speeds r1
     else Some (cells1, r1));
  Some (iadd epoch 1, cells2, r2).

(** [n] calls of [moveNumbers], each on the result of the one before. *)
Fixpoint epochs (cfg : Config) (circles : list Circle) (speeds : list Q)
    (n : nat) (cells : list Cell) (r : Rand) : option (list Cell * Rand) :=
  match n with
  | O => Some (cells, r)
  | S n' =>
      '(cells1, r1) ← moveNumbers cfg circles cells speeds r;
      epochs cfg circles speeds n' cells1 r1
  end.

(** The coordinate of a stored cell. *)
Definition coordOf (cell : Cell) : Z * Z := (cX cell, cY cell).

(** The centre test of [getCellType] for one circle, in Go arithmetic. *)
Definition atCentre (x y : Z) (circle : Circle) : bool :=
  (isub x (X circle) =? 0) && (isub y (Y circle) =? 0).

(** What is used of [math.Cos] and [math.Sin]: values in [[-1, 1]]. *)
Definition boundedTrig `{FloatMath} : Prop :=
  ∀ a, (-1 <= Cos a)%Q ∧ (Cos a <= 1)%Q ∧ (-1 <= Sin a)%Q ∧ (Sin a <= 1)%Q.

(** The circle lies within the canvas of the image variant. *)
Definition imageContained (mg : Image.MapGenerator) (c : Image.Circle) : Prop :=
  0 <= Image.X c - Image.Radius c ∧
  Image.X c + Image.Radius c < Image.Width mg * Image.CellSize mg ∧
  0 <= Image.Y c - Image.Radius c ∧
  Image.Y c + Image.Radius c < Image.Height mg * Image.CellSize mg.

(** The calls of [img.Set] that [drawCircle] makes, in order, each as the
    pixel and its colour; the two loops run from [-r] to [r], as they do
    in the source for every radius but the largest [int]. *)
Definition drawCircle {A} (c : Image.Circle) (fill center : A) : list (Z * Z * A) :=
  let cx := Image.X c in
  let cy := Image.Y c in
  let r := Image.Radius c in
  (dx ← seqZ (isub 0 r) (r - isub 0 r + 1);
   dy ← seqZ (isub 0 r) (r - isub 0 r + 1);
   if iadd (imul dx dx) (imul dy dy) <=? imul r r
   then [(iadd cx dx, iadd cy dy, fill)] else [])
  ++ [(cx, cy, center)].




(** * Properties *)

(** ** Go arithmetic *)

Ltac int_consts :=
  change (2 ^ 63) with 9223372036854775808 in *;
  change (2 ^ 64) with 18446744073709551616 in *;
  change (2 ^ 62) with 4611686018427387904 in *.

Lemma wrap_id z : is_int z → wrap z = z.
Proof.
  unfold is_int, wrap. int_consts. intros Hz.
  rewrite Z.mod_small; lia.
Qed.

Lemma wrap_is_int z : is_int (wrap z).
Proof.
  unfold is_int, wrap. int_consts.
  pose proof (Z.mod_pos_bound (z + 9223372036854775808) 18446744073709551616).
  lia.
Qed.

Lemma isub_diag x : isub x x = 0.
Proof. unfold isub. rewrite Z.sub_diag. reflexivity. Qed.

Lemma len_app {A} (l1 l2 : list A) : len (l1 ++ l2) = len l1 + len l2.
Proof. unfold len. rewrite length_app. lia. Qed.

Lemma len_nonneg {A} (l : list A) : 0 <= len l.
Proof. unfold len. lia. Qed.

(** ** Floating point *)

Lemma Qltb_lt a b : Qltb a b = true ↔ (a < b)%Q.
Proof.
  unfold Qltb. rewrite negb_true_iff. split.
  - intros Hf. apply Qnot_le_lt. intros Hle. apply Qle_bool_iff in Hle. congruence.
  - intros Hlt. destruct (Qle_bool b a) eqn:Hle; [|done].
    apply Qle_bool_iff in Hle. exfalso. by apply (Qlt_not_le a b).
Qed.

Lemma roundHalfEven_bounds num den :
  0 < den →
  num / den <= roundHalfEven num den <= num / den + 1 ∧
  - den <= 2 * (roundHalfEven num den * den - num) <= den.
Proof.
  intros Hden. unfold roundHalfEven.
  pose proof (Z.div_mod num den ltac:(lia)) as Hdm.
  pose proof (Z.mod_pos_bound num den Hden) as Hr.
  set (q := num / den) in *. set (r := num mod den) in *.
  destruct (Z.compare_spec (2 * r) den); [destruct (Z.even q)| |]; split; nia.
Qed.

Lemma roundHalfEven_exact num den :
  0 < den → num mod den = 0 → roundHalfEven num den = num / den.
Proof.
  intros Hden Hr. unfold roundHalfEven. rewrite Hr.
  by destruct (Z.compare_spec (2 * 0) den); [lia| |lia].
Qed.

Lemma roundHalfEven_scale num den z :
  0 < den → 0 < z → roundHalfEven (num * z) (den * z) = roundHalfEven num den.
Proof.
  intros Hden Hz. unfold roundHalfEven.
  rewrite Z.div_mul_cancel_r, Z.mul_mod_distr_r by lia.
  set (q := num / den). set (r := num mod den).
  destruct (Z.compare_spec (2 * (r * z)) (den * z)),
           (Z.compare_spec (2 * r) den); try done; nia.
Qed.

Lemma ilog2_pow2 a j : 0 < a → 0 <= j → ilog2 a (2 ^ j) = Z.log2 a - j.
Proof.
  intros Ha Hj. unfold ilog2. rewrite Z.log2_pow2 by done.
  pose proof (Z.log2_spec a Ha) as [Hlo _].
  pose proof (Z.log2_nonneg a) as Hla.
  destruct (Z.leb_spec 0 (Z.log2 a - j)) as [He|He].
  - rewrite <- Z.pow_add_r by lia.
    replace (j + (Z.log2 a - j)) with (Z.log2 a) by lia.
    by destruct (Z.ltb_spec a (2 ^ Z.log2 a)); [lia|].
  - destruct (Z.ltb_spec (a * 2 ^ (- (Z.log2 a - j))) (2 ^ j)) as [Hlt|]; [|done].
    exfalso.
    assert (2 ^ j = 2 ^ Z.log2 a * 2 ^ (- (Z.log2 a - j))) as Hj2.
    { rewrite <- Z.pow_add_r by lia. f_equal. lia. }
    assert (0 < 2 ^ (- (Z.log2 a - j))) by (apply Z.pow_pos_nonneg; lia).
    nia.
Qed.

Lemma Qred_inject_Z n : Qred (inject_Z n) = inject_Z n.
Proof.
  unfold Qred, inject_Z.
  pose proof (Z.ggcd_gcd n 1) as Hg.
  pose proof (Z.ggcd_correct_divisors n 1) as Hd.
  destruct (Z.ggcd n 1) as [g [a b]]. simpl in *.
  rewrite Z.gcd_1_r in Hg. subst g. destruct Hd as [-> Hb].
  assert (b = 1) as -> by lia. f_equal. lia.
Qed.

(** Integers below [2^53] are binary64 values. *)
Lemma float64_exact n : 0 <= n < 2 ^ 53 → float64 n = inject_Z n.
Proof.
  intros [Hn Hlt]. unfold float64, round64.
  destruct n as [|a|a]; [done| |lia]. cbn [Qnum Qden inject_Z].
  unfold round64pos. change (Z.pos 1) with (2 ^ 0).
  rewrite ilog2_pow2 by lia. rewrite Z.sub_0_r.
  assert (Z.log2 (Z.pos a) <= 52) as Hlog.
  { apply Z.lt_succ_r. apply Z.log2_lt_pow2; [lia|]. exact Hlt. }
  pose proof (Z.log2_nonneg (Z.pos a)).
  rewrite Z.min_l by lia.
  destruct (Z.leb_spec 0 (52 - Z.log2 (Z.pos a))); [|lia].
  set (k := 52 - Z.log2 (Z.pos a)) in *.
  rewrite roundHalfEven_exact, Z.div_1_r by (lia || apply Z.mod_1_r).
  rewrite <- (Qred_inject_Z (Z.pos a)). apply Qred_complete.
  assert (0 < 2 ^ k) by (apply Z.pow_pos_nonneg; lia).
  unfold Qeq, inject_Z. cbn [Qnum Qden]. rewrite Z2Pos.id by done. lia.
Qed.

Lemma round64pos_nonneg a b : 0 < a → 0 < b → (0 <= round64pos a b)%Q.
Proof.
  intros Ha Hb. unfold round64pos.
  set (k := Z.min _ _). destruct (Z.leb_spec 0 k).
  - rewrite Qred_correct. unfold Qle. cbn [Qnum Qden]. rewrite Z.mul_1_r.
    assert (0 < 2 ^ k) by (apply Z.pow_pos_nonneg; lia).
    pose proof (roundHalfEven_bounds (a * 2 ^ k) b Hb) as [[Hlo _] _].
    pose proof (Z.div_pos (a * 2 ^ k) b ltac:(nia) Hb). lia.
  - rewrite Qred_correct. unfold Qle, inject_Z. cbn [Qnum Qden]. rewrite Z.mul_1_r.
    assert (0 < 2 ^ (- k)) by (apply Z.pow_pos_nonneg; lia).
    pose proof (roundHalfEven_bounds a (b * 2 ^ (- k)) ltac:(nia)) as [[Hlo _] _].
    pose proof (Z.div_pos a (b * 2 ^ (- k)) ltac:(lia) ltac:(nia)). nia.
Qed.

Lemma round64_nonneg x : (0 <= x)%Q → (0 <= round64 x)%Q.
Proof.
  intros Hx. unfold round64. destruct x as [[|a|a] b]; cbn [Qnum Qden].
  - done.
  - by apply round64pos_nonneg.
  - unfold Qle in Hx. simpl in Hx. lia.
Qed.

Lemma round64_nonpos x : (x <= 0)%Q → (round64 x <= 0)%Q.
Proof.
  intros Hx. unfold round64. destruct x as [[|a|a] b]; cbn [Qnum Qden].
  - done.
  - unfold Qle in Hx. simpl in Hx. lia.
  - pose proof (round64pos_nonneg (Z.pos a) (Z.pos b) ltac:(lia) ltac:(lia)) as Hp.
    unfold Qle in *. destruct (round64pos _ _) as [p q]. simpl in *. lia.
Qed.

(** The conversion of a large integer stays large. *)
Lemma float64_big n : 2 ^ 53 <= n → (inject_Z (2 ^ 53) <= float64 n)%Q.
Proof.
  intros Hn. unfold float64, round64.
  assert (0 < 2 ^ 53) by (apply Z.pow_pos_nonneg; lia).
  destruct n as [|a|a]; [lia| |lia]. cbn [Qnum Qden inject_Z].
  unfold round64pos. change (Z.pos 1) with (2 ^ 0).
  rewrite ilog2_pow2 by lia. rewrite Z.sub_0_r.
  assert (53 <= Z.log2 (Z.pos a)) as Hlog by (by apply Z.log2_le_pow2).
  pose proof (Z.log2_spec (Z.pos a) ltac:(lia)) as [Hlo _].
  rewrite Z.min_l by lia.
  destruct (Z.leb_spec 0 (52 - Z.log2 (Z.pos a))); [lia|].
  replace (- (52 - Z.log2 (Z.pos a))) with (Z.log2 (Z.pos a) - 52) by lia.
  set (t := Z.log2 (Z.pos a) - 52) in *.
  rewrite Qred_correct. rewrite Z.mul_1_l.
  assert (0 < 2 ^ t) as Ht by (apply Z.pow_pos_nonneg; lia).
  pose proof (roundHalfEven_bounds (Z.pos a) (2 ^ t) Ht) as [[Hfl _] _].
  assert (2 ^ 52 <= Z.pos a / 2 ^ t) as Hq.
  { apply Z.div_le_lower_bound; [done|].
    rewrite Z.mul_comm, <- Z.pow_add_r by lia.
    by replace (52 + t) with (Z.log2 (Z.pos a)) by lia. }
  assert (1 <= t) by lia.
  assert (2 ^ 1 <= 2 ^ t) by (apply Z.pow_le_mono_r; lia).
  rewrite <- Zle_Qle. change (2 ^ 53) with (2 ^ 52 * 2 ^ 1). nia.
Qed.


Ltac pow_consts :=
  change (2 ^ 25) with 33554432 in *;
  change (2 ^ 28) with 268435456 in *;
  change (2 ^ 29) with 536870912 in *;
  change (2 ^ 50) with 1125899906842624 in *;
  change (2 ^ 53) with 9007199254740992 in *;
  change (2 ^ 55) with 36028797018963968 in *;
  change (2 ^ 56) with 72057594037927936 in *;
  change (2 ^ 80) with 1208925819614629174706176 in *;
  change (2 ^ 81) with 2417851639229258349412352 in *;
  change (4 ^ 55) with 1298074214633706907132624082305024 in *.

Lemma Sqrt_inject_Z n :
  0 < n →
  Sqrt (inject_Z n) =
    round64 ((2 * Z.sqrt (n * 4 ^ 55) +
              (if Z.sqrt (n * 4 ^ 55) * Z.sqrt (n * 4 ^ 55) =? n * 4 ^ 55 then 0 else 1))
             # Z.to_pos (2 ^ 56)).
Proof.
  intros Hn. destruct n as [|a|a]; [lia| |lia].
  unfold Sqrt. cbn [Qnum Qden inject_Z].
  change (Z.log2 (Z.pos 1)) with 0. change (55 + 0) with 55. change (55 + 1) with 56.
  rewrite Z.div_1_r, Z.mod_1_r. change (0 =? 0) with true. by rewrite andb_true_r.
Qed.

(** Rounding a value with 57 to 108 bits, 56 of them behind the point. *)
Lemma round64_dyadic c :
  2 ^ 56 <= c < 2 ^ 108 →
  ∃ m t,
    t = Z.log2 c - 52 ∧ 4 <= t <= 55 ∧
    (round64 (c # Z.to_pos (2 ^ 56)) == m # Z.to_pos (2 ^ (56 - t)))%Q ∧
    c / 2 ^ t <= m ∧ 2 * (m * 2 ^ t) <= 2 * c + 2 ^ t.
Proof.
  intros [Hlo Hhi].
  assert (0 < 2 ^ 56) as H56 by (apply Z.pow_pos_nonneg; lia).
  assert (56 <= Z.log2 c) as Hl1 by (apply Z.log2_le_pow2; lia).
  assert (Z.log2 c < 108) as Hl2 by (apply Z.log2_lt_pow2; lia).
  set (t := Z.log2 c - 52).
  exists (roundHalfEven c (2 ^ t)), t.
  assert (0 < 2 ^ t) as Ht by (apply Z.pow_pos_nonneg; lia).
  assert (0 < 2 ^ (56 - t)) as Hk by (apply Z.pow_pos_nonneg; lia).
  pose proof (roundHalfEven_bounds c (2 ^ t) Ht) as [[Hfl _] [_ Hup]].
  split_and!; [done|lia|lia| |done|lia].
  unfold round64. destruct c as [|a|a]; [lia| |lia]. cbn [Qnum Qden].
  rewrite Z2Pos.id by done. unfold round64pos.
  rewrite ilog2_pow2 by lia.
  replace (52 - (Z.log2 (Z.pos a) - 56)) with (56 - t) by lia.
  rewrite Z.min_l by lia.
  destruct (Z.leb_spec 0 (56 - t)); [|lia].
  rewrite Qred_correct.
  replace (2 ^ 56) with (2 ^ t * 2 ^ (56 - t))
    by (rewrite <- Z.pow_add_r by lia; f_equal; lia).
  by rewrite roundHalfEven_scale.
Qed.

(** For a squared distance below [2^50] the rounded square root decides
    the comparison as the exact one does. *)
Lemma sqrtLt_small n s :
  0 <= n < 2 ^ 50 → sqrtLt n s = (0 <? s) && (n <? s * s).
Proof.
  intros [Hn0 Hn]. unfold sqrtLt.
  destruct (Z.leb_spec 0 n); [|lia]. cbn [andb].
  rewrite (float64_exact n) by (split; [done|]; pow_consts; lia).
  (* what is known of the converted bound *)
  assert (s <= 0 ∧ (float64 s <= 0)%Q ∨
          0 < s ∧ s < 2 ^ 53 ∧ float64 s = inject_Z s ∨
          2 ^ 53 <= s ∧ (inject_Z (2 ^ 53) <= float64 s)%Q) as Hs.
  { destruct (Z.le_gt_cases s 0); [left|right].
    - split; [done|]. apply round64_nonpos. unfold Qle. simpl. lia.
    - destruct (Z.lt_ge_cases s (2 ^ 53)); [left|right].
      + split_and!; [lia|done|]. apply float64_exact. lia.
      + split; [done|]. by apply float64_big. }
  destruct (Z.eq_dec n 0) as [->|Hnz].
  { change (Sqrt (inject_Z 0)) with 0%Q.
    destruct Hs as [[Hs HS] | [(Hs & _ & ->) | [Hs HS]]].
    - destruct (Z.ltb_spec 0 s); [lia|]. cbn [andb].
      destruct (Qltb 0 (float64 s)) eqn:Hlt; [|done].
      apply Qltb_lt in Hlt. exfalso. by apply (Qlt_not_le _ _ Hlt).
    - destruct (Z.ltb_spec 0 s); [|lia]. destruct (Z.ltb_spec 0 (s * s)); [|nia].
      apply Qltb_lt. unfold Qlt. simpl. lia.
    - pow_consts. destruct (Z.ltb_spec 0 s); [|lia].
      destruct (Z.ltb_spec 0 (s * s)); [|nia].
      apply Qltb_lt. eapply Qlt_le_trans; [|exact HS]. unfold Qlt. simpl. lia. }
  rewrite Sqrt_inject_Z by lia.
  set (N := n * 4 ^ 55). set (q := Z.sqrt N).
  set (sticky := if q * q =? N then 0 else 1).
  assert (0 <= sticky <= 1) as Hst by (subst sticky; destruct (q * q =? N); lia).
  assert (0 <= N) as HN by (subst N; pow_consts; lia).
  pose proof (Z.sqrt_spec N HN) as [Hq1 Hq2]. fold q in Hq1, Hq2.
  assert (0 <= q) as Hq0 by apply Z.sqrt_nonneg.
  (* the root of [s0^2 * 4^55] is [s0 * 2^55] *)
  assert (∀ s0, 0 <= s0 → s0 * s0 <= n → s0 * 2 ^ 55 <= q) as Hge.
  { intros s0 Hs0 Hle. subst q.
    rewrite <- (Z.sqrt_square (s0 * 2 ^ 55)) by (pow_consts; lia).
    apply Z.sqrt_le_mono. subst N. pow_consts. nia. }
  assert (∀ s0, 1 <= s0 <= 2 ^ 25 → n < s0 * s0 → q <= s0 * 2 ^ 55 - 2 ^ 29) as Hlt.
  { intros s0 Hs0 Hlt. apply Z.nlt_ge. intros Hgt. pow_consts.
    set (A := s0 * 36028797018963968 - 536870912) in *.
    assert (0 <= A) by (subst A; lia).
    assert ((A + 1) * (A + 1) <= q * q) by nia.
    assert (A * A = s0 * s0 * 1298074214633706907132624082305024
                    - s0 * 38685626227668133590597632 + 288230376151711744)
      as HA by (subst A; ring).
    subst N. pow_consts. nia. }
  pose proof (Hge 1 ltac:(lia) ltac:(lia)) as Hq55.
  assert (q < 2 ^ 80) as Hq80.
  { apply Z.nle_gt. intros Hle. pow_consts.
    assert (1208925819614629174706176 * 1208925819614629174706176 <= q * q) by nia.
    subst N. pow_consts. lia. }
  destruct (round64_dyadic (2 * q + sticky)) as (m & t & Ht & Ht4 & HV & Hfl & Hup).
  { pow_consts. change (2 ^ 108) with 324518553658426726783156020576256. lia. }
  assert (t <= 28) as Ht28.
  { assert (Z.log2 (2 * q + sticky) < 81); [|lia].
    apply Z.log2_lt_pow2; pow_consts; lia. }
  assert (0 < 2 ^ t) as H2t by (apply Z.pow_pos_nonneg; lia).
  assert (2 ^ t <= 2 ^ 28) as H2t28 by (apply Z.pow_le_mono_r; lia).
  assert (0 < 2 ^ (56 - t)) as H2k by (apply Z.pow_pos_nonneg; lia).
  assert (2 ^ 56 = 2 ^ (56 - t) * 2 ^ t) as Hsplit
    by (rewrite <- Z.pow_add_r by lia; f_equal; lia).
  set (V := round64 _) in *.
  (* the two integer facts *)
  assert (∀ s0, 1 <= s0 <= 2 ^ 25 → n < s0 * s0 → m < s0 * 2 ^ (56 - t)) as Hbelow.
  { intros s0 Hs0 Hlt0. specialize (Hlt s0 Hs0 Hlt0).
    apply Z.nle_gt. intros Hle.
    assert (s0 * 2 ^ 56 <= m * 2 ^ t) by (rewrite Hsplit; nia).
    pow_consts. lia. }
  assert (∀ s0, 0 <= s0 → s0 * s0 <= n → s0 * 2 ^ (56 - t) <= m) as Habove.
  { intros s0 Hs0 Hle0. specialize (Hge s0 Hs0 Hle0).
    etrans; [|exact Hfl]. apply Z.div_le_lower_bound; [done|].
    replace (2 ^ t * (s0 * 2 ^ (56 - t))) with (s0 * 2 ^ 56) by (rewrite Hsplit; ring).
    pow_consts. lia. }
  assert (∀ z, (V < inject_Z z)%Q ↔ m < z * 2 ^ (56 - t)) as Hcmp.
  { intros z. rewrite HV. unfold Qlt, inject_Z. cbn [Qnum Qden].
    rewrite Z2Pos.id by done. lia. }
  assert (V < inject_Z (2 ^ 25))%Q as Hcap.
  { apply Hcmp, Hbelow; pow_consts; lia. }
  destruct Hs as [[Hs HS] | [(Hs & Hs53 & ->) | [Hs HS]]].
  - destruct (Z.ltb_spec 0 s); [lia|]. cbn [andb].
    destruct (Qltb V (float64 s)) eqn:Hlt'; [|done].
    apply Qltb_lt in Hlt'. exfalso.
    assert (0 <= V)%Q as HV0.
    { subst V. apply round64_nonneg. unfold Qle. cbn [Qnum Qden]. lia. }
    apply (Qlt_not_le _ _ Hlt'). eapply Qle_trans; [exact HS|exact HV0].
  - destruct (Z.ltb_spec 0 s); [|lia]. cbn [andb].
    destruct (Z.ltb_spec n (s * s)) as [Hns|Hns].
    + apply Qltb_lt. destruct (Z.le_gt_cases s (2 ^ 25)) as [Hsmall|Hlarge].
      * apply Hcmp, Hbelow; lia.
      * eapply Qlt_trans; [exact Hcap|]. rewrite <- Zlt_Qlt. lia.
    + destruct (Qltb V (inject_Z s)) eqn:Hlt'; [|done].
      apply Qltb_lt, Hcmp in Hlt'. pose proof (Habove s ltac:(lia) Hns). lia.
  - pow_consts. destruct (Z.ltb_spec 0 s); [|lia].
    destruct (Z.ltb_spec n (s * s)); [|nia]. cbn [andb].
    apply Qltb_lt. eapply Qlt_le_trans; [exact Hcap|].
    eapply Qle_trans; [|exact HS]. rewrite <- Zle_Qle. lia.
Qed.

(** On the values that the examples below use, the roundings of the model
    are those of the machine: the quotients 3/10 and 7/10, their products
    with 50, two square roots and two conversions of integers above
    [2^53]. *)
Lemma machine_agrees :
  let p3 := PrimFloat.div (machineFloat 3) (machineFloat 10) in
  let p7 := PrimFloat.div (machineFloat 7) (machineFloat 10) in
  ofFloat p3 = round64 (3 # 10) ∧
  ofFloat p7 = round64 (7 # 10) ∧
  ofFloat (PrimFloat.mul p3 (machineFloat 50)) = fmul (ofFloat p3) 50 ∧
  ofFloat (PrimFloat.mul p7 (machineFloat 50)) = fmul (ofFloat p7) 50 ∧
  ofFloat (PrimFloat.sqrt (machineFloat (2 ^ 54 + 2 ^ 28))) =
    Sqrt (float64 (2 ^ 54 + 2 ^ 28)) ∧
  ofFloat (PrimFloat.sqrt (machineFloat 2)) = Sqrt (float64 2) ∧
  ofFloat (machineFloat (2 ^ 63 - 1)) = float64 (2 ^ 63 - 1) ∧
  ofFloat (machineFloat (2 ^ 53 + 1)) = float64 (2 ^ 53 + 1).
Proof. vm_compute. repeat split. Qed.

(** The same on two ranges: for every probability of two decimals, from
    0.00 to 1.00, the decoded value and its product with 50; and the square
    root of every integer up to 5000. *)
Lemma machine_agrees_on_ranges :
  forallb (λ k,
    let p := PrimFloat.div (machineFloat k) (machineFloat 100) in
    Qeq_bool (ofFloat p) (round64 (k # 100)) &&
    Qeq_bool (ofFloat (PrimFloat.mul p (machineFloat 50))) (fmul (ofFloat p) 50))
    (seqZ 0 101) = true ∧
  forallb (λ n,
    Qeq_bool (ofFloat (PrimFloat.sqrt (machineFloat n))) (Sqrt (float64 n)))
    (seqZ 0 5001) = true.
Proof. split; vm_compute; reflexivity. Qed.

(** ** Classification *)

Lemma getCellType_values x y circles :
  getCellType x y circles = 0 ∨ getCellType x y circles = 1 ∨
  getCellType x y circles = 2.
Proof.
  induction circles as [|c rest IH]; simpl; [by left|].
  destruct (_ && _); [by right; right|].
  destruct (_ <=? _); [by right; left|done].
Qed.

Lemma getCellType_cons x y c rest :
  getCellType x y (c :: rest) =
    if (isub x (X c) =? 0) && (isub y (Y c) =? 0) then 2
    else if inDisc x y c then 1 else getCellType x y rest.
Proof. reflexivity. Qed.

Lemma getCellType_at_center c rest : getCellType (X c) (Y c) (c :: rest) = 2.
Proof. rewrite getCellType_cons, !isub_diag. reflexivity. Qed.

(** Circles that do not hold the point in their disc are skipped. *)
Lemma getCellType_skip x y pre rest :
  Forall (λ e, inDisc x y e = false ∨ (X e = x ∧ Y e = y)) pre →
  getCellType x y (pre ++ rest) = 2 ∨
  getCellType x y (pre ++ rest) = getCellType x y rest.
Proof.
  induction 1 as [|e pre He _ IH]; [by right|].
  rewrite <- app_comm_cons, getCellType_cons.
  destruct He as [He|[<- <-]].
  - rewrite He. destruct (_ && _); [by left|done].
  - rewrite !isub_diag. by left.
Qed.

(** C3 (as the code has it): the classification is one of the three zone
    types, and a coordinate that is the centre of a circle is classified
    Center whenever no circle earlier in the iteration order holds it in its
    disc without being centred there: the first matching circle decides. *)
Theorem getCellType_total_first_match (x y : Z) (circles : list Circle) :
  (getCellType x y circles = Exterior ∨ getCellType x y circles = Interior ∨
   getCellType x y circles = Center) ∧
  ∀ pre c post,
    circles = pre ++ c :: post →
    X c = x → Y c = y →
    Forall (λ e, inDisc x y e = false ∨ (X e = x ∧ Y e = y)) pre →
    getCellType x y circles = Center.
Proof.
  split; [apply getCellType_values|].
  intros pre c post -> <- <- Hpre.
  destruct (getCellType_skip _ _ _ (c :: post) Hpre) as [H|H]; [done|].
  rewrite H. apply getCellType_at_center.
Qed.

Lemma getCellType_total_first_match_witness :
  let a := {| X := 0; Y := 0; Radius := 1; Type_ := "spawn" |} in
  let b := {| X := 5; Y := 5; Radius := 2; Type_ := "bedroom" |} in
  getCellType 5 5 [a; b] = Center.
Proof.
  intros a b.
  apply (proj2 (getCellType_total_first_match 5 5 [a; b]) [a] b []);
    [reflexivity | reflexivity | reflexivity |].
  constructor; [left; vm_compute; reflexivity | constructor].
Defined.

(** C3 (as the spec words it) fails: with a circle of radius 5 at (0,0)
    listed before a circle centred at (1,1), the coordinate (1,1) is the
    centre of a circle and is classified Interior. *)
Lemma center_precedence_counterexample :
  let circles := [ {| X := 0; Y := 0; Radius := 5; Type_ := "spawn" |};
                   {| X := 1; Y := 1; Radius := 1; Type_ := "bedroom" |} ] in
  (∃ c, In c circles ∧ X c = 1 ∧ Y c = 1) ∧
  getCellType 1 1 circles = Interior ∧
  getCellType 1 1 circles ≠ Center.
Proof.
  simpl. split; [|split; [reflexivity | discriminate]].
  eexists; split; [right; left; reflexivity | split; reflexivity].
Qed.

(** ** Migration with no speeds *)

(** C6: with an empty speed table [moveNumbers] returns its input
    population, whatever the bounds, the circles and the population. *)
Theorem moveNumbers_empty_speeds (cfg : Config) (circles : list Circle)
    (cells : list Cell) (r : Rand) :
  moveNumbers cfg circles cells [] r = Some (cells, r).
Proof. reflexivity. Qed.

(** ** The weighted selector *)

Lemma count_occ_replicate (n : nat) (v i : Z) :
  count_occ Z.eq_dec (replicate n v) i = if decide (v = i) then n else 0%nat.
Proof.
  induction n as [|n IH]; simpl; [by case_decide|].
  destruct (Z.eq_dec v i); case_decide; try done; lia.
Qed.

Lemma truncate_range f :
  (inject_Z (- 2 ^ 63) < f)%Q → (f < inject_Z (2 ^ 63))%Q → is_int (truncate f).
Proof.
  unfold Qlt, truncate, is_int, inject_Z. destruct f as [num den]. cbn [Qnum Qden].
  int_consts. rewrite !Z.mul_1_r. intros Hlo Hhi.
  destruct (Z.le_gt_cases 0 num) as [Hnum|Hnum].
  - rewrite Z.quot_div_nonneg by lia.
    pose proof (Z.div_pos num (Z.pos den) Hnum ltac:(lia)).
    assert (num / Z.pos den < 9223372036854775808); [|lia].
    apply Z.div_lt_upper_bound; lia.
  - replace num with (- - num) by lia. rewrite Z.quot_opp_l by lia.
    rewrite Z.quot_div_nonneg by lia.
    pose proof (Z.div_pos (- num) (Z.pos den) ltac:(lia) ltac:(lia)).
    assert (- num / Z.pos den < 9223372036854775808); [|lia].
    apply Z.div_lt_upper_bound; lia.
Qed.

Lemma int_convertible p : convertible p → int (fmul p 50) = truncate (fmul p 50).
Proof. intros [Hlo Hhi]. unfold int. apply wrap_id. by apply truncate_range. Qed.

Lemma weight_cons_0 p rest : weight (p :: rest) 0 = Z.to_nat (truncate (fmul p 50)).
Proof. reflexivity. Qed.

Lemma weight_cons_S p rest k : 0 < k → weight (p :: rest) k = weight rest (k - 1).
Proof.
  intros Hk. unfold weight.
  destruct (Z.ltb_spec k 0), (Z.ltb_spec (k - 1) 0); try lia.
  replace (Z.to_nat k) with (S (Z.to_nat (k - 1))) by lia. reflexivity.
Qed.

Lemma selectorLoop_count (probabilities : list Q) : ∀ idx selector i,
  Forall convertible probabilities →
  count_occ Z.eq_dec (selectorLoop idx probabilities selector) i =
    (count_occ Z.eq_dec selector i +
     if (idx <=? i)%Z then weight probabilities (i - idx)%Z else 0)%nat.
Proof.
  induction probabilities as [|p rest IH]; intros idx selector i Hconv; simpl.
  - unfold weight. destruct (idx <=? i), (i - idx <? 0); simpl; lia.
  - apply Forall_cons in Hconv as [Hp Hrest].
    rewrite IH, count_occ_app, count_occ_replicate, (int_convertible p Hp) by done.
    destruct (Z.leb_spec (idx + 1) i), (Z.leb_spec idx i); try lia.
    + case_decide; [lia|]. rewrite weight_cons_S by lia.
      replace (i - idx - 1) with (i - (idx + 1)) by lia. lia.
    + case_decide; [|lia]. subst i. rewrite Z.sub_diag, weight_cons_0. lia.
    + case_decide; lia.
Qed.

Lemma int_zero (p : Q) : (p == 0)%Q → int (fmul p 50) = 0.
Proof.
  unfold Qeq. simpl. intros Hp.
  assert (Qnum p = 0) as Hnum by lia.
  unfold fmul, round64. cbn [Qnum Qmult]. rewrite Hnum. reflexivity.
Qed.

Lemma selectorLoop_zero (probabilities : list Q) : ∀ idx selector,
  Forall (λ p, (p == 0)%Q) probabilities →
  selectorLoop idx probabilities selector = selector.
Proof.
  induction probabilities as [|p rest IH]; intros idx selector Hz; [done|].
  inversion Hz as [|? ? Hp Hrest]; subst. simpl.
  rewrite (int_zero p Hp). simpl. rewrite app_nil_r. by apply IH.
Qed.

(** C8 (as the code has it): the selector holds, of type [i], as many
    copies as the product [p_i * 50], rounded to binary64 and truncated to
    an integer, says (none when that number is not positive, none of any
    other value; the probabilities are those whose product fits an [int]),
    so the weights follow the probabilities only up to this rounding and
    truncation; when every probability is zero or the vector is empty the
    selector is empty and [generateDistribution] returns the empty
    population. *)
Theorem createProbabilitySelector_weights (probabilities : list Q) :
  (Forall convertible probabilities →
   ∀ i, count_occ Z.eq_dec (createProbabilitySelector probabilities) i =
        weight probabilities i) ∧
  (Forall (λ p, (p == 0)%Q) probabilities →
   createProbabilitySelector probabilities = [] ∧
   ∀ cfg circles r,
     generateDistribution cfg circles probabilities r = Some ([], r)).
Proof.
  split.
  - intros Hconv i. unfold createProbabilitySelector.
    rewrite selectorLoop_count by done. simpl. rewrite Z.sub_0_r.
    destruct (Z.leb_spec 0 i); [done|].
    unfold weight. destruct (Z.ltb_spec i 0); [done|lia].
  - intros Hz.
    assert (createProbabilitySelector probabilities = []) as Hsel
      by (by apply selectorLoop_zero).
    split; [done|]. intros cfg circles r.
    unfold generateDistribution. by rewrite Hsel.
Qed.

Lemma createProbabilitySelector_weights_witness :
  (∀ i, count_occ Z.eq_dec (createProbabilitySelector [1 # 4; 7 # 2]%Q) i =
        weight [1 # 4; 7 # 2]%Q i) ∧
  createProbabilitySelector [0%Q; 0%Q] = [] ∧
  ∀ cfg circles r, generateDistribution cfg circles [0%Q; 0%Q] r = Some ([], r).
Proof.
  split.
  - apply (proj1 (createProbabilitySelector_weights [1 # 4; 7 # 2]%Q)).
    constructor; [|constructor; [|constructor]]; split; by vm_compute.
  - apply (proj2 (createProbabilitySelector_weights [0%Q; 0%Q])).
    constructor; [done|]. constructor; [done|constructor].
Defined.

(** C8 (as the spec words it) fails: for the probabilities 1/4 and 1/2 the
    selector holds 12 and 25 copies, and no factor relates both weights to
    their probabilities. *)
Lemma selector_not_proportional :
  let probabilities := [1 # 4; 1 # 2]%Q in
  let selector := createProbabilitySelector probabilities in
  count_occ Z.eq_dec selector 0 = 12%nat ∧
  count_occ Z.eq_dec selector 1 = 25%nat ∧
  ¬ ∃ k : Q, ∀ (i : nat) p, probabilities !! i = Some p →
      (inject_Z (Z.of_nat (count_occ Z.eq_dec selector (Z.of_nat i))) == k * p)%Q.
Proof.
  cbv zeta. split; [by vm_compute|]. split; [by vm_compute|].
  intros [k Hk].
  pose proof (Hk 0%nat (1 # 4)%Q eq_refl) as H0.
  pose proof (Hk 1%nat (1 # 2)%Q eq_refl) as H1.
  assert (count_occ Z.eq_dec (createProbabilitySelector [1 # 4; 1 # 2]%Q) (Z.of_nat 0)
          = 12%nat) as E0 by (by vm_compute).
  assert (count_occ Z.eq_dec (createProbabilitySelector [1 # 4; 1 # 2]%Q) (Z.of_nat 1)
          = 25%nat) as E1 by (by vm_compute).
  rewrite E0 in H0. rewrite E1 in H1.
  destruct k as [n d]. unfold Qeq in H0, H1. simpl in H0, H1. lia.
Qed.

(** The product is rounded before it is truncated: the binary64 value next
    to 0.3 is a little below 3/10 and its exact product with 50 is below 15,
    yet [p * 50] is 15.0 and the selector holds 15 copies, not 14; in the
    same way the value next to 0.7 gets 35 copies. *)
Lemma selector_rounds_product :
  let p3 := (5404319552844595 # 18014398509481984)%Q in
  let p7 := (3152519739159347 # 4503599627370496)%Q in
  round64 (3 # 10) = p3 ∧ round64 (7 # 10) = p7 ∧
  truncate (p3 * 50) = 14 ∧ truncate (p7 * 50) = 34 ∧
  fmul p3 50 = 15%Q ∧ fmul p7 50 = 35%Q ∧
  count_occ Z.eq_dec (createProbabilitySelector [p3; p7]) 0 = 15%nat ∧
  count_occ Z.eq_dec (createProbabilitySelector [p3; p7]) 1 = 35%nat.
Proof. cbv zeta. split_and!; by vm_compute. Qed.

(** ** The grid *)

Lemma elem_of_coords cfg xy : xy ∈ coords cfg ↔ inGrid cfg xy = true.
Proof.
  unfold coords, inGrid. destruct xy as [x y]. simpl.
  rewrite list_elem_of_bind. setoid_rewrite list_elem_of_bind.
  setoid_rewrite list_elem_of_singleton. setoid_rewrite elem_of_seqZ.
  rewrite !andb_true_iff, !Z.leb_le, !Z.ltb_lt. split.
  - intros (y' & (x' & [= -> ->] & ?) & ?). lia.
  - intros ?. exists y. split; [exists x; split; [done|lia] | lia].
Qed.

Lemma NoDup_coords cfg : NoDup (coords cfg).
Proof.
  unfold coords. apply NoDup_bind; [| |apply NoDup_seqZ].
  - intros y1 y2 xy _ _.
    rewrite !list_elem_of_bind. setoid_rewrite list_elem_of_singleton.
    intros (? & -> & _) (? & [= _ ->] & _). done.
  - intros y _. apply NoDup_bind; [| |apply NoDup_seqZ].
    + intros x1 x2 xy _ _. rewrite !list_elem_of_singleton. by intros -> [= ->].
    + intros x _. apply NoDup_singleton.
Qed.

(** ** Seeding *)

Lemma Intn_pos n r : 0 < n → Intn n r = Some (peek r mod n, next r).
Proof. intros Hn. unfold Intn. destruct (Z.leb_spec n 0); [lia|done]. Qed.

Lemma pick_nonempty selector r :
  selector ≠ [] →
  ∃ v, pick selector r = Some (v, next r) ∧ v ∈ selector.
Proof.
  intros Hne. unfold pick.
  assert (0 < len selector) as Hlen.
  { unfold len. destruct selector; [done|simpl; lia]. }
  rewrite Intn_pos by done. simpl.
  pose proof (Z.mod_pos_bound (peek r) (len selector) Hlen) as Hb.
  destruct (lookup_lt_is_Some_2 selector (Z.to_nat (peek r mod len selector)))
    as [v Hv]; [unfold len in *; lia|].
  exists v. rewrite Hv. simpl. split; [done|].
  by eapply list_elem_of_lookup_2.
Qed.

Lemma pickMany_nonempty selector : ∀ count r,
  selector ≠ [] →
  ∃ vs r', pickMany count selector r = Some (vs, r') ∧
    length vs = count ∧ Forall (λ v, v ∈ selector) vs.
Proof.
  induction count as [|count IH]; intros r Hne; simpl.
  - by exists [], r.
  - destruct (pick_nonempty selector r Hne) as (v & -> & Hv). simpl.
    destruct (IH (next r) Hne) as (vs & r' & -> & Hlen & Hvs). simpl.
    exists (v :: vs), r'. split; [done|]. split; [simpl; lia|by constructor].
Qed.

Lemma seedCell_center circles selector cells r x y :
  getCellType x y circles = Center →
  seedCell circles selector (cells, r) (x, y) = Some (cells, r).
Proof. intros Ht. unfold seedCell. by rewrite Ht. Qed.

Lemma seedCell_interior circles selector cells r x y :
  selector ≠ [] →
  getCellType x y circles = Interior →
  ∃ v, v ∈ selector ∧
    seedCell circles selector (cells, r) (x, y) =
      Some (cells ++ [{| cX := x; cY := y; Vals := [v] |}], next r).
Proof.
  intros Hne Ht. unfold seedCell. rewrite Ht. simpl.
  destruct (pick_nonempty selector r Hne) as (v & -> & Hv). simpl.
  by exists v.
Qed.

Lemma seedCell_exterior circles selector cells r x y :
  selector ≠ [] →
  getCellType x y circles = Exterior →
  ∃ vals r', seedCell circles selector (cells, r) (x, y) =
      Some (cells ++ [{| cX := x; cY := y; Vals := vals |}], r') ∧
    len vals = 1 + peek r mod 2 ∧
    (length vals = 1%nat ∨ length vals = 2%nat) ∧
    Forall (λ v, v ∈ selector) vals.
Proof.
  intros Hne Ht. unfold seedCell. rewrite Ht.
  cbn [Z.eqb Exterior]. rewrite (Intn_pos 2) by lia. cbn [mbind option_bind].
  pose proof (Z.mod_pos_bound (peek r) 2 ltac:(lia)) as Hb.
  destruct (pickMany_nonempty selector (Z.to_nat (1 + peek r mod 2)) (next r) Hne)
    as (vs & r' & -> & Hlen & Hvs). simpl.
  assert (len vs = 1 + peek r mod 2) as Hl by (unfold len; lia).
  destruct (Z.ltb_spec 0 (len vs)); [|lia].
  exists vs, r'. split; [done|]. split; [done|]. split; [lia|done].
Qed.

Lemma seedCell_spec circles selector cells r xy :
  selector ≠ [] →
  ∃ added r', seedCell circles selector (cells, r) xy = Some (cells ++ added, r') ∧
    Forall2 (seeded circles selector)
      (if getCellType xy.1 xy.2 circles =? 2 then [] else [xy]) added.
Proof.
  intros Hne. destruct xy as [x y]. cbn [fst snd].
  destruct (getCellType_values x y circles) as [Ht|[Ht|Ht]].
  - destruct (seedCell_exterior circles selector cells r x y Hne Ht)
      as (vals & r' & -> & _ & Hlen & Hvs).
    eexists _, r'. split; [done|]. rewrite Ht. simpl.
    constructor; [|constructor]. unfold seeded. simpl. rewrite Ht.
    split_and!; [done|discriminate|done|done].
  - destruct (seedCell_interior circles selector cells r x y Hne Ht)
      as (v & Hv & ->).
    eexists _, _. split; [done|]. rewrite Ht. simpl.
    constructor; [|constructor]. unfold seeded. simpl. rewrite Ht.
    split_and!; [done|done|discriminate|by constructor].
  - rewrite seedCell_center by done. exists [], r. rewrite app_nil_r, Ht. simpl.
    split; [done|constructor].
Qed.

Lemma seedCells_spec circles selector : ∀ ks cells r,
  selector ≠ [] →
  ∃ added r', foldM (seedCell circles selector) ks (cells, r) = Some (cells ++ added, r') ∧
    Forall2 (seeded circles selector)
      (filter (λ xy, getCellType xy.1 xy.2 circles ≠ 2) ks) added.
Proof.
  induction ks as [|xy ks IH]; intros cells r Hne; cbn [foldM].
  - exists [], r. rewrite app_nil_r. split; [done|constructor].
  - destruct (seedCell_spec circles selector cells r xy Hne) as (a1 & r1 & -> & H1).
    cbn [mbind option_bind]. destruct (IH (cells ++ a1) r1 Hne) as (a2 & r2 & -> & H2).
    exists (a1 ++ a2), r2. rewrite app_assoc. split; [done|].
    rewrite filter_cons. case_decide as Hd.
    + destruct (Z.eqb_spec (getCellType xy.1 xy.2 circles) 2); [done|].
      inversion H1 as [|? ? ? ? Hs Hnil]; subst. inversion Hnil; subst.
      simpl. by constructor.
    + destruct (Z.eqb_spec (getCellType xy.1 xy.2 circles) 2); [|done].
      inversion H1; subst. done.
Qed.

Lemma tokensOf_nil xy : tokensOf [] xy = [].
Proof. reflexivity. Qed.

Lemma tokensOf_cons cell cells xy :
  tokensOf (cell :: cells) xy =
    (if decide ((cX cell, cY cell) = xy) then Vals cell else []) ++ tokensOf cells xy.
Proof. reflexivity. Qed.

Lemma tokensOf_app cells1 cells2 xy :
  tokensOf (cells1 ++ cells2) xy = tokensOf cells1 xy ++ tokensOf cells2 xy.
Proof. unfold tokensOf. apply bind_app. Qed.

Lemma seeded_absent circles selector ks cells xy :
  Forall2 (seeded circles selector) ks cells → xy ∉ ks → tokensOf cells xy = [].
Proof.
  induction 1 as [|k cell ks cells Hs _ IH]; intros Hnot; [done|].
  rewrite tokensOf_cons. destruct Hs as (Hk & _).
  rewrite not_elem_of_cons in Hnot. destruct Hnot as [Hne Hnot].
  case_decide; [congruence|]. simpl. by apply IH.
Qed.

Lemma seeded_present circles selector ks cells xy :
  Forall2 (seeded circles selector) ks cells → NoDup ks → xy ∈ ks →
  ∃ cell, cell ∈ cells ∧ tokensOf cells xy = Vals cell ∧
    seeded circles selector xy cell.
Proof.
  induction 1 as [|k cell ks cells Hs Hrest IH]; intros Hnd Hin;
    [by apply elem_of_nil in Hin|].
  apply NoDup_cons in Hnd as [Hk Hnd]. rewrite tokensOf_cons.
  apply elem_of_cons in Hin as [->|Hin].
  - exists cell. split; [by left|]. destruct Hs as (Hc & ?).
    case_decide; [|done].
    rewrite (seeded_absent _ _ _ _ _ Hrest Hk), app_nil_r. done.
  - destruct (IH Hnd Hin) as (cell' & Hin' & Htok & Hs'). exists cell'.
    split; [by right|]. destruct Hs as (Hc & _).
    case_decide; [|done]. subst. congruence.
Qed.

Lemma seeded_coords circles selector ks cells :
  Forall2 (seeded circles selector) ks cells →
  map (λ cell, (cX cell, cY cell)) cells = ks.
Proof.
  induction 1 as [|k cell ks cells (Hk & _) _ IH]; [done|].
  simpl. by rewrite Hk, IH.
Qed.

Lemma seeded_nonempty circles selector ks cells :
  Forall2 (seeded circles selector) ks cells →
  Forall (λ xy, getCellType xy.1 xy.2 circles ≠ 2) ks →
  Forall (λ cell, Vals cell ≠ []) cells.
Proof.
  induction 1 as [|k cell ks cells (Hk & Hi & He & _) _ IH]; intros Hks;
    [constructor|].
  apply Forall_cons in Hks as [Hne Hrest]. constructor; [|by apply IH].
  destruct (getCellType_values k.1 k.2 circles) as [Ht|[Ht|Ht]]; [| |done].
  - destruct (He Ht) as [Hl|Hl]; destruct (Vals cell); simpl in Hl; done.
  - specialize (Hi Ht). destruct (Vals cell); simpl in Hi; done.
Qed.

Lemma pick_draw selector r :
  selector ≠ [] →
  ∃ v, selector !! Z.to_nat (peek r mod len selector) = Some v ∧
       pick selector r = Some (v, next r).
Proof.
  intros Hne. unfold pick.
  assert (0 < len selector) as Hlen.
  { unfold len. destruct selector; [done|simpl; lia]. }
  rewrite Intn_pos by done. cbn [mbind option_bind].
  pose proof (Z.mod_pos_bound (peek r) (len selector) Hlen) as Hb.
  destruct (lookup_lt_is_Some_2 selector (Z.to_nat (peek r mod len selector)))
    as [v Hv]; [unfold len in *; lia|].
  exists v. by rewrite Hv.
Qed.

Lemma seedCell_interior_draw circles selector cells r x y :
  selector ≠ [] →
  getCellType x y circles = Interior →
  ∃ v, selector !! Z.to_nat (peek r mod len selector) = Some v ∧
    seedCell circles selector (cells, r) (x, y) =
      Some (cells ++ [{| cX := x; cY := y; Vals := [v] |}], next r).
Proof.
  intros Hne Ht. unfold seedCell. rewrite Ht. cbn [Z.eqb Interior Pos.eqb].
  destruct (pick_draw selector r Hne) as (v & Hv & ->). cbn [mbind option_bind].
  by exists v.
Qed.

Lemma seedCell_exterior_draws circles selector cells r x y :
  selector ≠ [] →
  getCellType x y circles = Exterior →
  ∃ v1 v2,
    selector !! Z.to_nat (peek (next r) mod len selector) = Some v1 ∧
    selector !! Z.to_nat (peek (next (next r)) mod len selector) = Some v2 ∧
    seedCell circles selector (cells, r) (x, y) =
      Some (if peek r mod 2 =? 0
            then (cells ++ [{| cX := x; cY := y; Vals := [v1] |}], next (next r))
            else (cells ++ [{| cX := x; cY := y; Vals := [v1; v2] |}],
                  next (next (next r)))).
Proof.
  intros Hne Ht. unfold seedCell. rewrite Ht.
  cbn [Z.eqb Exterior]. rewrite (Intn_pos 2) by lia. cbn [mbind option_bind].
  destruct (pick_draw selector (next r) Hne) as (v1 & Hv1 & Hp1).
  destruct (pick_draw selector (next (next r)) Hne) as (v2 & Hv2 & Hp2).
  exists v1, v2. split; [done|]. split; [done|].
  pose proof (Z.mod_pos_bound (peek r) 2 ltac:(lia)) as Hb.
  assert (peek r mod 2 = 0 ∨ peek r mod 2 = 1) as [-> | ->] by lia.
  - change (Z.to_nat (1 + 0)) with 1%nat. cbn [pickMany].
    rewrite Hp1. cbn [mbind option_bind]. reflexivity.
  - change (Z.to_nat (1 + 1)) with 2%nat. cbn [pickMany].
    rewrite Hp1. cbn [mbind option_bind]. rewrite Hp2. cbn [mbind option_bind].
    reflexivity.
Qed.

(** C7: for a probability vector whose products [p * 50] fit an [int] and
    whose selector is not empty, [generateDistribution] returns a
    population in which a Center cell holds no token, an Interior cell
    exactly one, an Exterior cell one or two, every token is an entry of
    the selector, and the stored cells are exactly the non-Center
    coordinates of the grid in row-major order, none with an empty list.
    At each cell the draws decide: a Center cell consumes no draw; an
    Interior cell consumes one, [d], and gets the selector entry of index
    [d mod len(selector)]; an Exterior cell consumes one for the count,
    [1 + d mod 2], and then one per token, each picking the selector entry
    of its index in the same way. *)
Theorem generateDistribution_zones (cfg : Config) (circles : list Circle)
    (probabilities : list Q) (r : Rand) :
  Forall convertible probabilities →
  createProbabilitySelector probabilities ≠ [] →
  let selector := createProbabilitySelector probabilities in
  ∃ cells r',
    generateDistribution cfg circles probabilities r = Some (cells, r') ∧
    (∀ x y, inGrid cfg (x, y) = true →
       let toks := tokensOf cells (x, y) in
       (getCellType x y circles = Center → toks = []) ∧
       (getCellType x y circles = Interior → length toks = 1%nat) ∧
       (getCellType x y circles = Exterior →
          length toks = 1%nat ∨ length toks = 2%nat) ∧
       Forall (λ v, v ∈ selector) toks) ∧
    map (λ cell, (cX cell, cY cell)) cells =
      filter (λ xy, getCellType xy.1 xy.2 circles ≠ 2) (coords cfg) ∧
    Forall (λ cell, Vals cell ≠ []) cells ∧
    generateDistribution cfg circles probabilities r =
      foldM (seedCell circles selector) (coords cfg) ([], r) ∧
    (∀ x y cells0 r0, getCellType x y circles = Center →
       seedCell circles selector (cells0, r0) (x, y) = Some (cells0, r0)) ∧
    (∀ x y cells0 r0, getCellType x y circles = Interior →
       ∃ v, selector !! Z.to_nat (peek r0 mod len selector) = Some v ∧
         seedCell circles selector (cells0, r0) (x, y) =
           Some (cells0 ++ [{| cX := x; cY := y; Vals := [v] |}], next r0)) ∧
    (∀ x y cells0 r0, getCellType x y circles = Exterior →
       ∃ v1 v2,
         selector !! Z.to_nat (peek (next r0) mod len selector) = Some v1 ∧
         selector !! Z.to_nat (peek (next (next r0)) mod len selector) = Some v2 ∧
         seedCell circles selector (cells0, r0) (x, y) =
           Some (if peek r0 mod 2 =? 0
                 then (cells0 ++ [{| cX := x; cY := y; Vals := [v1] |}],
                       next (next r0))
                 else (cells0 ++ [{| cX := x; cY := y; Vals := [v1; v2] |}],
                       next (next (next r0))))).
Proof.
  intros _ Hne selector.
  destruct (seedCells_spec circles selector (coords cfg) [] r Hne)
    as (cells & r' & Hrun & Hseeded).
  assert (generateDistribution cfg circles probabilities r =
            foldM (seedCell circles selector) (coords cfg) ([], r)) as Hfold.
  { unfold generateDistribution. subst selector.
    destruct (Z.eqb_spec (len (createProbabilitySelector probabilities)) 0)
      as [Hz|_]; [|done].
    exfalso. apply Hne. destruct (createProbabilitySelector probabilities); [done|].
    unfold len in Hz. simpl in Hz. lia. }
  exists cells, r'. split_and!.
  - by rewrite Hfold.
  - intros x y Hin toks.
    destruct (decide (getCellType x y circles = 2)) as [Hc|Hc].
    + assert (toks = []) as ->.
      { eapply seeded_absent; [done|]. rewrite list_elem_of_filter. tauto. }
      unfold Center, Interior, Exterior. rewrite Hc.
      split_and!; [done|done|done|constructor].
    + destruct (seeded_present circles selector _ cells (x, y) Hseeded)
        as (cell & _ & Htok & _ & Hi & He & Hv).
      { apply NoDup_filter, NoDup_coords. }
      { rewrite list_elem_of_filter. split; [done|]. by apply elem_of_coords. }
      subst toks. rewrite Htok. split_and!; done.
  - by eapply seeded_coords.
  - eapply seeded_nonempty; [done|]. apply List.Forall_forall.
    intros xy Hxy. apply list_elem_of_In, list_elem_of_filter in Hxy. tauto.
  - exact Hfold.
  - intros x y cells0 r0 Ht. by apply seedCell_center.
  - intros x y cells0 r0 Ht. by apply seedCell_interior_draw.
  - intros x y cells0 r0 Ht. by apply seedCell_exterior_draws.
Qed.

Lemma generateDistribution_zones_witness :
  let cfg := {| Width := 3; Height := 3; Spawns := 1; Bedrooms := 0;
                SpawnR := 1; BedroomR := 0; MaxGap := 0 |} in
  let circles := [ {| X := 1; Y := 1; Radius := 1; Type_ := "spawn" |} ] in
  ∃ cells r',
    generateDistribution cfg circles [1%Q] (replay [1; 7; 3]) = Some (cells, r') ∧
    tokensOf cells (1, 1) = [] ∧
    length (tokensOf cells (1, 0)) = 1%nat ∧
    (length (tokensOf cells (0, 0)) = 1%nat ∨ length (tokensOf cells (0, 0)) = 2%nat).
Proof.
  intros cfg circles.
  destruct (generateDistribution_zones cfg circles [1%Q] (replay [1; 7; 3]))
    as (cells & r' & Hrun & Hz & _).
  - constructor; [|constructor]. split; by vm_compute.
  - by vm_compute.
  - exists cells, r'. split; [exact Hrun|].
    destruct (Hz 1 1 eq_refl) as (Hc & _).
    destruct (Hz 1 0 eq_refl) as (_ & Hi & _).
    destruct (Hz 0 0 eq_refl) as (_ & _ & He & _).
    split_and!; [by apply Hc|by apply Hi|by apply He].
Defined.

(** ** Migration: one token *)

Lemma getNeighbors_inGrid x y cfg n : n ∈ getNeighbors x y cfg → inGrid cfg n = true.
Proof.
  unfold getNeighbors. rewrite list_elem_of_bind. intros (d & Hn & _).
  destruct (inGrid cfg (iadd x d.1, iadd y d.2)) eqn:Hg.
  - apply list_elem_of_singleton in Hn. by subst.
  - by apply elem_of_nil in Hn.
Qed.

(** The shuffle never panics and only rearranges the slice it is given. *)
Lemma shuffle_keeps (P : Z * Z → Prop) : ∀ i neighbors r,
  (i < length neighbors)%nat ∨ i = 0%nat →
  Forall P neighbors →
  ∃ shuffled r', shuffle i neighbors r = Some (shuffled, r') ∧ Forall P shuffled.
Proof.
  induction i as [|i IH]; intros neighbors r Hi HP; [by exists neighbors, r|].
  destruct Hi as [Hi|Hi]; [|done]. cbn [shuffle].
  rewrite Intn_pos by lia. cbn [mbind option_bind].
  pose proof (Z.mod_pos_bound (peek r) (Z.of_nat (S i) + 1) ltac:(lia)) as Hj.
  set (j := Z.to_nat (peek r mod (Z.of_nat (S i) + 1))) in *.
  destruct (lookup_lt_is_Some_2 neighbors (S i) Hi) as [a Ha].
  destruct (lookup_lt_is_Some_2 neighbors j ltac:(lia)) as [b Hb].
  rewrite Ha, Hb. cbn [mbind option_bind].
  apply IH.
  - left. rewrite !length_insert. lia.
  - apply Forall_insert; [apply Forall_insert; [done|]|].
    + eapply Forall_lookup_1; eauto.
    + eapply Forall_lookup_1; eauto.
Qed.

Lemma scan_spec circles val : ∀ neighbors m,
  (scan circles m neighbors val = (m, false) ∧
   Forall (λ n, canMove circles m n = false) neighbors) ∨
  (∃ n, n ∈ neighbors ∧ canMove circles m n = true ∧
        scan circles m neighbors val = (appendAt m n val, true)).
Proof.
  induction neighbors as [|n rest IH]; intros m; simpl.
  - left. split; [done|constructor].
  - destruct (canMove circles m n) eqn:Hc.
    + right. exists n. split; [by left|done].
    + destruct (IH m) as [[-> Hall]|(n' & Hin & Hc' & ->)].
      * left. split; [done|by constructor].
      * right. exists n'. split; [by right|done].
Qed.

Lemma scan_blocked circles val neighbors m :
  Forall (λ n, canMove circles m n = false) neighbors →
  scan circles m neighbors val = (m, false).
Proof.
  induction 1 as [|n rest Hn _ IH]; simpl; [done|]. by rewrite Hn.
Qed.

Lemma speedOf_total speeds val :
  speeds ≠ [] → 0 <= val → ∃ speed, speedOf speeds val = Some speed.
Proof.
  intros Hne Hval. unfold speedOf.
  assert (0 < len speeds) by (unfold len; destruct speeds; [done|simpl; lia]).
  destruct (Z.leb_spec (len speeds) val).
  - simpl. destruct speeds; [done|]. by eexists.
  - destruct (Z.ltb_spec val 0); [lia|].
    apply lookup_lt_is_Some_2. unfold len in *. lia.
Qed.

Lemma Float64_nonneg r : (0 <= (Float64 r).1 * 100)%Q.
Proof.
  unfold Float64. simpl. unfold Qle. simpl.
  pose proof (Z.mod_pos_bound (peek r) (2 ^ 53) ltac:(done)). lia.
Qed.

(** A speed that is not positive never lets the draw succeed. *)
Lemma draw_fails r speed : (speed <= 0)%Q → Qltb ((Float64 r).1 * 100) speed = false.
Proof.
  intros Hs. unfold Qltb. apply negb_false_iff, Qle_bool_iff.
  eapply Qle_trans; [exact Hs|apply Float64_nonneg].
Qed.

(** The token is appended exactly once: at its own coordinate, or at a
    neighbour that admits it. *)
Lemma moveToken_spec cfg circles speeds cell m r val :
  speeds ≠ [] → 0 <= val →
  ∃ key r', moveToken cfg circles speeds cell (m, r) val = Some (appendAt m key val, r') ∧
    (key = (cX cell, cY cell) ∨
     (key ∈ getNeighbors (cX cell) (cY cell) cfg ∧ canMove circles m key = true)).
Proof.
  intros Hne Hval. unfold moveToken.
  destruct (speedOf_total speeds val Hne Hval) as [speed ->]. cbn [mbind option_bind].
  destruct (Float64 r) as [f r1].
  destruct (Qltb (f * 100) speed); [|by eexists _, _; split; [|left]].
  set (neighbors := getNeighbors (cX cell) (cY cell) cfg).
  destruct (shuffle_keeps (λ n, n ∈ neighbors) (length neighbors - 1) neighbors r1)
    as (shuffled & r2 & -> & Hsh).
  { destruct neighbors; simpl; [by right|left; lia]. }
  { by apply Forall_forall. }
  cbn [mbind option_bind].
  destruct (scan_spec circles val shuffled m) as [[-> _]|(n & Hin & Hc & ->)].
  - eexists _, _. split; [done|by left].
  - eexists _, _. split; [done|right]. split; [|done].
    rewrite Forall_forall in Hsh. by apply Hsh.
Qed.

(** The stay-put paths: a failed draw, or no admissible neighbour. *)
Lemma moveToken_stays cfg circles speeds cell m r val speed :
  speedOf speeds val = Some speed →
  Qltb ((Float64 r).1 * 100) speed = false ∨
  Forall (λ n, canMove circles m n = false) (getNeighbors (cX cell) (cY cell) cfg) →
  ∃ r', moveToken cfg circles speeds cell (m, r) val =
          Some (appendAt m (cX cell, cY cell) val, r').
Proof.
  intros Hspeed Hstay. unfold moveToken. rewrite Hspeed. cbn [mbind option_bind].
  destruct (Float64 r) as [f r1] eqn:Hf. simpl in Hstay.
  destruct (Qltb (f * 100) speed) eqn:Hdraw; [|by eexists].
  destruct Hstay as [?|Hblocked]; [done|].
  set (neighbors := getNeighbors (cX cell) (cY cell) cfg) in *.
  destruct (shuffle_keeps (λ n, canMove circles m n = false)
              (length neighbors - 1) neighbors r1)
    as (shuffled & r2 & -> & Hsh); [|done|].
  { destruct neighbors; simpl; [by right|left; lia]. }
  cbn [mbind option_bind]. rewrite (scan_blocked _ _ _ _ Hsh). by eexists.
Qed.

(** ** Migration: the next-state map *)

Lemma tokensAt_appendAt_eq m key val :
  tokensAt (appendAt m key val) key = tokensAt m key ++ [val].
Proof. unfold tokensAt at 1, appendAt. by rewrite lookup_insert_eq. Qed.

Lemma tokensAt_appendAt_ne m key val key' :
  key ≠ key' → tokensAt (appendAt m key val) key' = tokensAt m key'.
Proof. intros Hne. unfold tokensAt, appendAt. by rewrite lookup_insert_ne. Qed.

Lemma bind_appendAt_notin m key val (ks : list (Z * Z)) :
  key ∉ ks → ks ≫= tokensAt (appendAt m key val) = ks ≫= tokensAt m.
Proof.
  induction ks as [|k ks IH]; intros Hnot; [done|].
  apply not_elem_of_cons in Hnot as [Hne Hnot].
  rewrite !bind_cons, tokensAt_appendAt_ne, IH; done.
Qed.

Lemma bind_appendAt_in m key val (ks : list (Z * Z)) :
  NoDup ks → key ∈ ks →
  ks ≫= tokensAt (appendAt m key val) ≡ₚ val :: (ks ≫= tokensAt m).
Proof.
  induction 1 as [|k ks Hk Hnd IH]; intros Hin; [by apply elem_of_nil in Hin|].
  rewrite !bind_cons. apply elem_of_cons in Hin as [<-|Hin].
  - rewrite tokensAt_appendAt_eq, bind_appendAt_notin by done.
    rewrite <- app_assoc. simpl. by rewrite <- Permutation_middle.
  - rewrite tokensAt_appendAt_ne by (intros ->; done).
    rewrite IH by done. by rewrite <- Permutation_middle.
Qed.

Lemma count_occ_appendAt m key val xy v :
  count_occ Z.eq_dec (tokensAt (appendAt m key val) xy) v =
    (count_occ Z.eq_dec (tokensAt m xy) v +
     if decide (key = xy ∧ val = v) then 1 else 0)%nat.
Proof.
  destruct (decide (key = xy)) as [->|Hne].
  - rewrite tokensAt_appendAt_eq, count_occ_app. simpl.
    destruct (Z.eq_dec val v); case_decide; try tauto; lia.
  - rewrite tokensAt_appendAt_ne by done. case_decide; [tauto|lia].
Qed.

Lemma tokensAt_emptyState cfg xy : tokensAt (emptyState cfg) xy = [].
Proof.
  unfold emptyState.
  assert (∀ ks (m : gmap (Z * Z) (list Z)),
            tokensAt m xy = [] →
            tokensAt (foldl (λ m xy, <[xy := []]> m) m ks) xy = []) as H.
  { induction ks as [|k ks IH]; intros m Hm; [done|]. simpl. apply IH.
    unfold tokensAt in *. destruct (decide (k = xy)) as [->|Hne].
    - by rewrite lookup_insert_eq.
    - by rewrite lookup_insert_ne. }
  apply H. unfold tokensAt. by rewrite lookup_empty.
Qed.

Lemma bind_emptyState cfg (ks : list (Z * Z)) : ks ≫= tokensAt (emptyState cfg) = [].
Proof.
  induction ks as [|k ks IH]; [done|].
  by rewrite bind_cons, tokensAt_emptyState, IH.
Qed.

(** ** Migration: the result slice *)

Lemma allTokens_app cells1 cells2 :
  allTokens (cells1 ++ cells2) = allTokens cells1 ++ allTokens cells2.
Proof. unfold allTokens. apply bind_app. Qed.

Lemma collect_allTokens cfg m : allTokens (collect cfg m) = coords cfg ≫= tokensAt m.
Proof.
  unfold collect. induction (coords cfg) as [|xy ks IH]; [done|].
  rewrite !bind_cons, allTokens_app, IH. f_equal.
  destruct (Z.ltb_spec 0 (len (tokensAt m xy))) as [|Hz].
  - unfold allTokens. rewrite bind_singleton. done.
  - destruct (tokensAt m xy); [done|]. unfold len in Hz. simpl in Hz. lia.
Qed.

Lemma collect_tokensOf cfg m xy :
  tokensOf (collect cfg m) xy = if inGrid cfg xy then tokensAt m xy else [].
Proof.
  assert (∀ ks : list (Z * Z), NoDup ks →
    tokensOf (ks ≫= λ xy,
        let vals := tokensAt m xy in
        if 0 <? len vals then [{| cX := xy.1; cY := xy.2; Vals := vals |}] else []) xy =
      if decide (xy ∈ ks) then tokensAt m xy else []) as H.
  { induction 1 as [|k ks Hk Hnd IH]; [done|].
    rewrite bind_cons, tokensOf_app, IH.
    destruct (decide (k = xy)) as [->|Hne].
    - rewrite (decide_True (P := xy ∈ xy :: ks)) by (by left).
      rewrite (decide_False (P := xy ∈ ks)) by done. rewrite app_nil_r.
      cbv zeta. destruct (Z.ltb_spec 0 (len (tokensAt m xy))) as [|Hz].
      + rewrite tokensOf_cons. simpl. rewrite decide_True by (by destruct xy).
        by rewrite app_nil_r.
      + destruct (tokensAt m xy); [done|]. unfold len in Hz. simpl in Hz. lia.
    - assert (tokensOf (let vals := tokensAt m k in
               if 0 <? len vals then [{| cX := k.1; cY := k.2; Vals := vals |}] else [])
               xy = []) as ->.
      { cbv zeta. destruct (0 <? len (tokensAt m k)); [|done].
        rewrite tokensOf_cons. simpl.
        rewrite decide_False by (by destruct k). done. }
      simpl. destruct (decide (xy ∈ ks)) as [Hin|Hin].
      + by rewrite decide_True by (by right).
      + rewrite decide_False; [done|]. by apply not_elem_of_cons. }
  unfold collect. rewrite H by apply NoDup_coords.
  destruct (inGrid cfg xy) eqn:Hg.
  - rewrite decide_True; [done|by apply elem_of_coords].
  - rewrite decide_False; [done|]. rewrite elem_of_coords. congruence.
Qed.

(** ** Migration: the whole run *)

Lemma moveCell_spec cfg circles speeds cell :
  speeds ≠ [] → inGrid cfg (cX cell, cY cell) = true →
  ∀ vals m r, Forall (λ v, 0 <= v) vals →
  ∃ m' r', foldM (moveToken cfg circles speeds cell) vals (m, r) = Some (m', r') ∧
    coords cfg ≫= tokensAt m' ≡ₚ vals ++ (coords cfg ≫= tokensAt m) ∧
    (∀ xy v, (count_occ Z.eq_dec (tokensAt m xy) v ≤
              count_occ Z.eq_dec (tokensAt m' xy) v)%nat) ∧
    (∀ v, neverMoves speeds v →
       (count_occ Z.eq_dec (tokensAt m (cX cell, cY cell)) v +
        count_occ Z.eq_dec vals v ≤
        count_occ Z.eq_dec (tokensAt m' (cX cell, cY cell)) v)%nat).
Proof.
  intros Hne Hcell. induction vals as [|val rest IH]; intros m r Hvals.
  - exists m, r. split_and!; [done|done|done|]. intros v _. simpl. lia.
  - apply Forall_cons in Hvals as [Hval Hrest]. cbn [foldM].
    destruct (moveToken_spec cfg circles speeds cell m r val Hne Hval)
      as (key & r1 & Hstep & Hkey).
    rewrite Hstep. cbn [mbind option_bind].
    destruct (IH (appendAt m key val) r1 Hrest) as (m' & r' & -> & Hperm & Hmono & Hstay).
    exists m', r'. split_and!; [done| | |].
    + rewrite Hperm, bind_appendAt_in.
      * by rewrite <- Permutation_middle.
      * apply NoDup_coords.
      * apply elem_of_coords. destruct Hkey as [->|[Hn _]]; [done|].
        by eapply getNeighbors_inGrid.
    + intros xy v. etrans; [|apply Hmono]. rewrite count_occ_appendAt. lia.
    + intros v Hv. specialize (Hstay v Hv). specialize (Hmono (cX cell, cY cell) v).
      rewrite count_occ_appendAt in Hstay.
      destruct (decide (val = v)) as [->|Hvv].
      * destruct Hv as (speed & Hspeed & Hle).
        destruct (moveToken_stays cfg circles speeds cell m r v speed Hspeed)
          as [r'' Hs]; [left; by apply draw_fails|].
        rewrite Hs in Hstep. injection Hstep as Hm _.
        assert (count_occ Z.eq_dec (tokensAt (appendAt m key v) (cX cell, cY cell)) v =
                S (count_occ Z.eq_dec (tokensAt m (cX cell, cY cell)) v)) as Hc.
        { rewrite <- Hm, count_occ_appendAt. rewrite decide_True by done. lia. }
        rewrite count_occ_appendAt in Hc. simpl.
        destruct (Z.eq_dec v v); [|done]. lia.
      * simpl. destruct (Z.eq_dec val v); [done|].
        case_decide; [tauto|]. lia.
Qed.

Lemma moveCells_spec cfg circles speeds :
  speeds ≠ [] →
  ∀ cells m r, wellFormed cfg cells →
  ∃ m' r', foldM (moveCell cfg circles speeds) cells (m, r) = Some (m', r') ∧
    coords cfg ≫= tokensAt m' ≡ₚ allTokens cells ++ (coords cfg ≫= tokensAt m) ∧
    (∀ xy v, (count_occ Z.eq_dec (tokensAt m xy) v ≤
              count_occ Z.eq_dec (tokensAt m' xy) v)%nat) ∧
    (∀ xy v, neverMoves speeds v →
       (count_occ Z.eq_dec (tokensAt m xy) v +
        count_occ Z.eq_dec (tokensOf cells xy) v ≤
        count_occ Z.eq_dec (tokensAt m' xy) v)%nat).
Proof.
  intros Hne. induction cells as [|cell cells IH]; intros m r Hwf.
  - exists m, r. split_and!; [done|done|done|]. intros xy v _. simpl. lia.
  - apply Forall_cons in Hwf as [[Hcell Hvals] Hwf]. cbn [foldM].
    change (moveCell cfg circles speeds (m, r) cell)
      with (foldM (moveToken cfg circles speeds cell) (Vals cell) (m, r)).
    destruct (moveCell_spec cfg circles speeds cell Hne Hcell (Vals cell) m r Hvals)
      as (m1 & r1 & -> & Hperm1 & Hmono1 & Hstay1).
    cbn [mbind option_bind].
    destruct (IH m1 r1 Hwf) as (m' & r' & -> & Hperm & Hmono & Hstay).
    exists m', r'. split_and!; [done| | |].
    + rewrite Hperm, Hperm1. unfold allTokens. rewrite bind_cons.
      rewrite <- !app_assoc. apply Permutation_app_swap_app.
    + intros xy v. etrans; [apply Hmono1|apply Hmono].
    + intros xy v Hv. specialize (Hstay xy v Hv).
      rewrite tokensOf_cons, count_occ_app. case_decide as Hxy.
      * subst xy. specialize (Hstay1 v Hv). lia.
      * specialize (Hmono1 xy v). simpl. lia.
Qed.

(** C2: on a population of the grid [moveNumbers] returns, and the tokens
    of its result are the tokens of its input, each exactly once (as
    multisets); in particular the totals agree.  The speed table is
    arbitrary (empty included). *)
Theorem moveNumbers_conserves (cfg : Config) (circles : list Circle)
    (cells : list Cell) (speeds : list Q) (r : Rand) :
  wellFormed cfg cells →
  ∃ out r',
    moveNumbers cfg circles cells speeds r = Some (out, r') ∧
    allTokens out ≡ₚ allTokens cells ∧
    totalTokens out = totalTokens cells.
Proof.
  intros Hwf.
  assert (∀ out, allTokens out ≡ₚ allTokens cells →
                 totalTokens out = totalTokens cells) as Htotal.
  { intros out Hp. unfold totalTokens, len. by rewrite Hp. }
  destruct speeds as [|speed speeds].
  - exists cells, r. split_and!; [done|done|done].
  - unfold moveNumbers.
    destruct (moveCells_spec cfg circles (speed :: speeds) ltac:(done)
                cells (emptyState cfg) r Hwf) as (m' & r' & Hrun & Hperm & _).
    replace (len (speed :: speeds) =? 0) with false
      by (symmetry; apply Z.eqb_neq; unfold len; simpl; lia).
    cbv zeta. rewrite Hrun. cbn [mbind option_bind].
    assert (allTokens (collect cfg m') ≡ₚ allTokens cells) as Hp.
    { rewrite collect_allTokens, Hperm, bind_emptyState. by rewrite app_nil_r. }
    exists (collect cfg m'), r'. split_and!; [done|done|by apply Htotal].
Qed.

Lemma moveNumbers_conserves_witness :
  let cfg := {| Width := 2; Height := 2; Spawns := 0; Bedrooms := 0;
                SpawnR := 0; BedroomR := 0; MaxGap := 0 |} in
  let cells := [ {| cX := 0; cY := 0; Vals := [0; 1] |};
                 {| cX := 1; cY := 1; Vals := [1] |} ] in
  ∃ out r',
    moveNumbers cfg [] cells [60%Q; 30%Q] (replay [5; 3; 1]) = Some (out, r') ∧
    allTokens out ≡ₚ allTokens cells ∧
    totalTokens out = totalTokens cells.
Proof.
  intros cfg cells.
  apply (moveNumbers_conserves cfg [] cells [60%Q; 30%Q] (replay [5; 3; 1])).
  repeat constructor; simpl; lia.
Defined.

(** C10: a token that does not migrate - its draw fails, or no neighbour
    admits it - is appended to the next-state list of its own coordinate,
    whatever that list already holds and whatever the zone of the
    coordinate; hence on any population of the grid (no capacity assumed)
    the tokens of a type that never moves are all found again at their own
    coordinate in the result, Center cells and over-full cells included. *)
Theorem stay_put_bypasses_capacity (cfg : Config) (circles : list Circle)
    (speeds : list Q) :
  (∀ cell m r val speed,
     speedOf speeds val = Some speed →
     Qltb ((Float64 r).1 * 100) speed = false ∨
     Forall (λ n, canMove circles m n = false) (getNeighbors (cX cell) (cY cell) cfg) →
     ∃ r', moveToken cfg circles speeds cell (m, r) val =
             Some (appendAt m (cX cell, cY cell) val, r')) ∧
  (∀ cells r v,
     wellFormed cfg cells →
     neverMoves speeds v →
     ∃ out r',
       moveNumbers cfg circles cells speeds r = Some (out, r') ∧
       ∀ xy, inGrid cfg xy = true →
         (count_occ Z.eq_dec (tokensOf cells xy) v ≤
          count_occ Z.eq_dec (tokensOf out xy) v)%nat).
Proof.
  split; [intros; by eapply moveToken_stays|].
  intros cells r v Hwf Hv.
  assert (speeds ≠ []) as Hne.
  { destruct Hv as (speed & Hs & _). intros ->. unfold speedOf in Hs.
    change (len []) with 0 in Hs.
    destruct (Z.leb_spec 0 v); [done|].
    destruct (Z.ltb_spec v 0); [done|lia]. }
  destruct (moveCells_spec cfg circles speeds Hne cells (emptyState cfg) r Hwf)
    as (m' & r' & Hrun & _ & _ & Hstay).
  exists (collect cfg m'), r'. split.
  - unfold moveNumbers.
    replace (len speeds =? 0) with false
      by (symmetry; apply Z.eqb_neq; unfold len; destruct speeds; [done|simpl; lia]).
    cbv zeta. by rewrite Hrun.
  - intros xy Hxy. rewrite collect_tokensOf, Hxy.
    specialize (Hstay xy v Hv). rewrite tokensAt_emptyState in Hstay.
    simpl in Hstay. lia.
Qed.

Lemma stay_put_bypasses_capacity_witness :
  let cfg := {| Width := 3; Height := 3; Spawns := 1; Bedrooms := 0;
                SpawnR := 1; BedroomR := 0; MaxGap := 0 |} in
  let circles := [ {| X := 1; Y := 1; Radius := 1; Type_ := "spawn" |} ] in
  let cells := [ {| cX := 1; cY := 1; Vals := [0; 0; 0] |} ] in
  getCellType 1 1 circles = Center ∧
  ∃ out r',
    moveNumbers cfg circles cells [0%Q] (replay []) = Some (out, r') ∧
    (3 ≤ count_occ Z.eq_dec (tokensOf out (1%Z, 1%Z)) 0%Z)%nat.
Proof.
  intros cfg circles cells. split; [reflexivity|].
  destruct (proj2 (stay_put_bypasses_capacity cfg circles [0%Q]) cells (replay []) 0)
    as (out & r' & Hrun & Hkeep).
  - repeat constructor; simpl; lia.
  - exists 0%Q. split; [reflexivity|]. unfold Qle. simpl. lia.
  - exists out, r'. split; [exact Hrun|]. exact (Hkeep (1, 1) eq_refl).
Defined.

(** ** Migration: the capacity rule *)

(** A speed of 100 or more always lets the draw succeed. *)
Lemma draw_succeeds r speed : (100 <= speed)%Q → Qltb ((Float64 r).1 * 100) speed = true.
Proof.
  intros Hs. unfold Qltb. apply negb_true_iff.
  destruct (Qle_bool speed ((Float64 r).1 * 100)) eqn:Hle; [|done].
  apply Qle_bool_iff in Hle.
  assert ((Float64 r).1 * 100 < 100)%Q as Hlt.
  { unfold Float64. simpl. unfold Qlt. simpl.
    pose proof (Z.mod_pos_bound (peek r) (2 ^ 53) ltac:(done)).
    change (Z.pos (2 ^ 53 * 1)) with (2 ^ 53). lia. }
  exfalso. eapply Qlt_irrefl, Qlt_le_trans; [exact Hlt|]. by eapply Qle_trans.
Qed.

Lemma moveToken_moves cfg circles speeds cell m r val speed n :
  speedOf speeds val = Some speed → (100 <= speed)%Q →
  getNeighbors (cX cell) (cY cell) cfg = [n] →
  canMove circles m n = true →
  moveToken cfg circles speeds cell (m, r) val = Some (appendAt m n val, next r).
Proof.
  intros Hspeed Hs Hn Hc. unfold moveToken. rewrite Hspeed. cbn [mbind option_bind].
  pose proof (draw_succeeds r speed Hs) as Hd.
  assert ((Float64 r).2 = next r) as Hr by reflexivity.
  destruct (Float64 r) as [f r1]. simpl in Hd, Hr. subst r1. rewrite Hd, Hn.
  cbn [length Nat.sub shuffle mbind option_bind scan]. by rewrite Hc.
Qed.

Lemma moveToken_never cfg circles speeds cell m r val speed :
  speedOf speeds val = Some speed → (speed <= 0)%Q →
  moveToken cfg circles speeds cell (m, r) val =
    Some (appendAt m (cX cell, cY cell) val, next r).
Proof.
  intros Hspeed Hs. unfold moveToken. rewrite Hspeed. cbn [mbind option_bind].
  pose proof (draw_fails r speed Hs) as Hd.
  assert ((Float64 r).2 = next r) as Hr by reflexivity.
  destruct (Float64 r) as [f r1]. simpl in Hd, Hr. subst r1. by rewrite Hd.
Qed.

(** The seeding step does establish the capacity rule. *)
Lemma generateDistribution_respectsCapacity cfg circles probabilities r cells r' :
  generateDistribution cfg circles probabilities r = Some (cells, r') →
  respectsCapacity circles cells.
Proof.
  unfold generateDistribution. set (selector := createProbabilitySelector probabilities).
  intros Hrun x y.
  destruct (Z.eqb_spec (len selector) 0) as [Hz|Hz].
  { injection Hrun as <- _. simpl. unfold capacity.
    destruct (_ =? _); [|destruct (_ =? _)]; unfold len; simpl; lia. }
  assert (selector ≠ []) as Hne by (intros E; rewrite E in Hz; done).
  destruct (seedCells_spec circles selector (coords cfg) [] r Hne)
    as (cells' & r'' & Hrun' & Hseeded).
  rewrite Hrun' in Hrun. injection Hrun as <- _. simpl.
  set (ks := filter (λ xy, getCellType xy.1 xy.2 circles ≠ 2) (coords cfg)) in *.
  destruct (decide ((x, y) ∈ ks)) as [Hin|Hin].
  - destruct (seeded_present circles selector ks cells' (x, y) Hseeded)
      as (cell & _ & -> & _ & Hi & He & _); [apply NoDup_filter, NoDup_coords|done|].
    simpl in Hi, He. unfold capacity, len.
    destruct (getCellType_values x y circles) as [Ht|[Ht|Ht]]; rewrite Ht; simpl.
    + destruct (He Ht); lia.
    + specialize (Hi Ht). lia.
    + apply list_elem_of_filter in Hin as [Hin _]. done.
  - rewrite (seeded_absent _ _ _ _ _ Hseeded Hin). unfold capacity.
    destruct (_ =? _); [|destruct (_ =? _)]; unfold len; simpl; lia.
Qed.

(** C1 (evaluation of the code): on the 2x1 grid without circles, the
    population [(0,0) -> [0,0]; (1,0) -> [1,1]] is produced by
    [generateDistribution] and respects the capacity rule; with the valid
    speed table [100, 0] every run of [moveNumbers] moves both tokens of
    (0,0) to (1,0) and then appends the two tokens of (1,0), which stay
    put, to the same list: the Exterior cell (1,0) ends with four tokens. *)
Theorem capacity_broken_by_stay_put :
  let cfg := {| Width := 2; Height := 1; Spawns := 0; Bedrooms := 0;
                SpawnR := 0; BedroomR := 0; MaxGap := 0 |} in
  let seed := [ {| cX := 0; cY := 0; Vals := [0; 0] |};
                {| cX := 1; cY := 0; Vals := [1; 1] |} ] in
  let speeds := [100%Q; 0%Q] in
  validateConfig cfg = None ∧
  validateSpeeds speeds = None ∧
  (∃ r0, generateDistribution cfg [] [1 # 2; 1 # 2]%Q (replay [1; 0; 0; 1; 25; 25]) =
           Some (seed, r0)) ∧
  respectsCapacity [] seed ∧
  ∀ r, ∃ out r',
    moveNumbers cfg [] seed speeds r = Some (out, r') ∧
    getCellType 1 0 [] = Exterior ∧
    tokensOf out (1, 0) = [0; 0; 1; 1] ∧
    ¬ respectsCapacity [] out.
Proof.
  intros cfg seed speeds.
  assert (∃ r0, generateDistribution cfg [] [1 # 2; 1 # 2]%Q
                  (replay [1; 0; 0; 1; 25; 25]) = Some (seed, r0)) as Hseed.
  { eexists. vm_compute. reflexivity. }
  split; [reflexivity|]. split; [reflexivity|]. split; [exact Hseed|].
  split. { destruct Hseed as [r0 H0]. by eapply generateDistribution_respectsCapacity. }
  intros r.
  assert (∃ out r', moveNumbers cfg [] seed speeds r = Some (out, r') ∧
                    tokensOf out (1, 0) = [0; 0; 1; 1]) as (out & r' & Hrun & Hout).
  { unfold moveNumbers. change (len speeds =? 0) with false. cbv zeta.
    cbn [foldM seed moveCell Vals mbind option_bind].
    rewrite (moveToken_moves _ _ _ _ _ _ _ 100%Q (1, 0));
      [|reflexivity|by vm_compute|reflexivity|reflexivity].
    cbn [mbind option_bind].
    rewrite (moveToken_moves _ _ _ _ _ _ _ 100%Q (1, 0));
      [|reflexivity|by vm_compute|reflexivity|by vm_compute].
    cbn [mbind option_bind].
    rewrite (moveToken_never _ _ _ _ _ _ _ 0%Q); [|reflexivity|by vm_compute].
    cbn [mbind option_bind].
    rewrite (moveToken_never _ _ _ _ _ _ _ 0%Q); [|reflexivity|by vm_compute].
    cbn [mbind option_bind].
    eexists _, _. split; [reflexivity|]. by vm_compute. }
  exists out, r'. split_and!; [done|done|done|].
  intros Hcap. specialize (Hcap 1 0). rewrite Hout in Hcap.
  vm_compute in Hcap. by apply Hcap.
Qed.

(** ** Square roots *)


(** Below [2^50] the test of the source decides the comparison of the real
    square root. *)
Lemma sqrtLt_false_real n s :
  0 <= n < 2 ^ 50 → sqrtLt n s = false → (IZR s <= sqrt (IZR n))%R.
Proof.
  intros Hn. rewrite sqrtLt_small by done. intros Hf.
  destruct (Z.ltb_spec 0 s) as [Hs|Hs]; simpl in Hf.
  - destruct (Z.ltb_spec n (s * s)) as [|Hge]; [done|].
    assert (0 <= IZR s)%R as Hs' by (apply IZR_le; lia).
    rewrite <- (sqrt_square (IZR s)) at 1 by done.
    apply sqrt_le_1_alt. rewrite <- mult_IZR. by apply IZR_le.
  - apply Rle_trans with 0%R; [apply IZR_le; lia|apply sqrt_pos].
Qed.

Lemma sqrtLt_real n s :
  0 <= n < 2 ^ 50 → sqrtLt n s = true ↔ (sqrt (IZR n) < IZR s)%R.
Proof.
  intros Hn. split.
  - rewrite sqrtLt_small by done.
    rewrite !andb_true_iff, !Z.ltb_lt. intros [Hs Hlt].
    assert (0 <= IZR s)%R as Hs' by (apply IZR_le; lia).
    rewrite <- (sqrt_square (IZR s)) by done.
    apply sqrt_lt_1_alt. split; [apply IZR_le; lia|].
    rewrite <- mult_IZR. by apply IZR_lt.
  - intros Hlt. destruct (sqrtLt n s) eqn:Hb; [done|].
    apply sqrtLt_false_real in Hb; [lra|done].
Qed.

Lemma apartXYR_sym x1 y1 r1 x2 y2 r2 :
  apartXYR x1 y1 r1 x2 y2 r2 → apartXYR x2 y2 r2 x1 y1 r1.
Proof.
  unfold apartXYR. intros Ha.
  replace (r2 + r1) with (r1 + r2) by lia.
  replace ((x2 - x1) * (x2 - x1) + (y2 - y1) * (y2 - y1))
    with ((x1 - x2) * (x1 - x2) + (y1 - y2) * (y1 - y2)) by lia.
  done.
Qed.

Lemma square_bound d B : - B < d < B → 0 <= d * d < B * B.
Proof. intros Hd. nia. Qed.

(** For centres below [2^24] the distance test of the source is exact. *)
Lemma sqrtLt_apart x1 y1 r1 x2 y2 r2 :
  0 <= x1 < 2 ^ 24 → 0 <= y1 < 2 ^ 24 → 0 <= r1 < 2 ^ 24 →
  0 <= x2 < 2 ^ 24 → 0 <= y2 < 2 ^ 24 → 0 <= r2 < 2 ^ 24 →
  sqrtLt (iadd (imul (isub x1 x2) (isub x1 x2)) (imul (isub y1 y2) (isub y1 y2)))
         (iadd r1 r2) = false →
  apartXYR x1 y1 r1 x2 y2 r2.
Proof.
  change (2 ^ 24) with 16777216. intros Hx1 Hy1 Hr1 Hx2 Hy2 Hr2.
  unfold iadd, isub, imul.
  rewrite (wrap_id (x1 - x2)), (wrap_id (y1 - y2)), (wrap_id (r1 + r2))
    by (unfold is_int; int_consts; lia).
  pose proof (square_bound (x1 - x2) 16777216 ltac:(lia)).
  pose proof (square_bound (y1 - y2) 16777216 ltac:(lia)).
  rewrite (wrap_id ((x1 - x2) * (x1 - x2))), (wrap_id ((y1 - y2) * (y1 - y2)))
    by (unfold is_int; int_consts; lia).
  rewrite wrap_id by (unfold is_int; int_consts; lia).
  intros Hf. apply sqrtLt_false_real; [|done].
  change (2 ^ 50) with 1125899906842624. lia.
Qed.

(** ** Pairs of list elements *)

Lemma FOP_insert {A} (R : A → A → Prop) (c : A) (l1 l2 : list A) :
  (∀ a b, R a b → R b a) →
  ForallOrdPairs R (l1 ++ l2) → Forall (R c) (l1 ++ l2) →
  ForallOrdPairs R (l1 ++ c :: l2).
Proof.
  intros Hsym. induction l1 as [|a l1 IH]; simpl; intros Hfop Hc.
  - by constructor.
  - inversion Hfop as [|? ? Ha Hrest]; subst.
    apply Forall_cons in Hc as [Hca Hc]. constructor; [|by apply IH].
    apply Forall_app in Ha as [Ha1 Ha2].
    apply Forall_app. split; [done|]. constructor; [by apply Hsym|done].
Qed.


(** ** Circle packing: proposals *)

Lemma validateConfig_ok cfg :
  validateConfig cfg = None →
  0 < Width cfg <= 100 ∧ 0 < Height cfg <= 100 ∧ 0 <= Spawns cfg ∧ 0 <= Bedrooms cfg.
Proof.
  unfold validateConfig.
  destruct (Z.leb_spec (Width cfg) 0), (Z.leb_spec (Height cfg) 0); simpl; try done.
  destruct (Z.ltb_spec 100 (Width cfg)), (Z.ltb_spec 100 (Height cfg)); simpl; try done.
  destruct (Z.ltb_spec (Spawns cfg) 0), (Z.ltb_spec (Bedrooms cfg) 0); simpl; try done;
    lia.
Qed.

Lemma Intn_Some n r k r' : Intn n r = Some (k, r') → 0 <= k < n.
Proof.
  unfold Intn. destruct (Z.leb_spec n 0); [done|].
  intros [= <- _]. apply Z.mod_pos_bound. lia.
Qed.

Lemma uniformCoord_range size radius r x r' :
  0 < size <= 100 → 0 <= radius < 2 ^ 62 →
  uniformCoord size radius r = Some (x, r') →
  radius <= x < size - radius.
Proof.
  int_consts. intros Hsize Hrad. unfold uniformCoord, imul, isub, iadd.
  rewrite (wrap_id (2 * radius)) by (unfold is_int; int_consts; lia).
  rewrite (wrap_id (size - 2 * radius)) by (unfold is_int; int_consts; lia).
  destruct (Intn (size - 2 * radius) r) as [[k r1]|] eqn:Hk; [|done].
  apply Intn_Some in Hk. simpl. intros [= <- _].
  rewrite wrap_id by (unfold is_int; int_consts; lia). lia.
Qed.

Lemma nearbyAttempts_range `{FloatMath} g baseCircle radius :
  0 < Width (config g) <= 100 → 0 < Height (config g) <= 100 →
  0 <= radius < 2 ^ 62 →
  ∀ attempts r x y r',
    nearbyAttempts attempts g baseCircle radius r = Some (x, y, r') →
    radius <= x < Width (config g) - radius ∧
    radius <= y < Height (config g) - radius.
Proof.
  intros HW HH Hrad. induction attempts as [|attempts IH]; intros r x y r'.
  - cbn [nearbyAttempts].
    destruct (uniformCoord (Width (config g)) radius r) as [[x0 r1]|] eqn:Hx; [|done].
    cbn [mbind option_bind].
    destruct (uniformCoord (Height (config g)) radius r1) as [[y0 r2]|] eqn:Hy; [|done].
    cbn [mbind option_bind]. intros [= <- <- _].
    split; by eapply uniformCoord_range.
  - cbn [nearbyAttempts]. destruct (Float64 r) as [f1 r1].
    destruct (Float64 r1) as [f2 r2]. cbv zeta.
    match goal with |- context [if ?b then _ else _] => destruct b eqn:Hguard end.
    + intros [= <- <- _].
      rewrite !andb_true_iff, !Z.leb_le, !Z.ltb_lt in Hguard.
      unfold isub in Hguard. int_consts.
      rewrite !wrap_id in Hguard by (unfold is_int; int_consts; lia). lia.
    + apply IH.
Qed.

Lemma propose_range `{FloatMath} g radius r c r' :
  0 < Width (config g) <= 100 → 0 < Height (config g) <= 100 →
  0 <= radius < 2 ^ 62 →
  propose g radius r = Some (c, r') →
  Radius c = radius ∧ contained (config g) c.
Proof.
  intros HW HH Hrad. unfold propose.
  assert (∀ x y, radius <= x < Width (config g) - radius →
                 radius <= y < Height (config g) - radius →
                 contained (config g) {| X := x; Y := y; Radius := radius; Type_ := "" |})
    as Hcont by (intros x y Hx Hy; unfold contained; simpl; lia).
  destruct (0 <? len (getAllCircles g)).
  - destruct (Intn _ r) as [[k r1]|]; [|done]. cbn [mbind option_bind].
    destruct (getAllCircles g !! Z.to_nat k) as [base|]; [|done]. cbn [mbind option_bind].
    unfold generateNearbyPosition.
    destruct (nearbyAttempts 30 g base radius r1) as [[[x y] r2]|] eqn:Hn; [|done].
    cbn [mbind option_bind]. intros [= <- _]. split; [done|].
    destruct (nearbyAttempts_range g base radius HW HH Hrad _ _ _ _ _ Hn). by apply Hcont.
  - destruct (uniformCoord (Width (config g)) radius r) as [[x r1]|] eqn:Hx; [|done].
    cbn [mbind option_bind].
    destruct (uniformCoord (Height (config g)) radius r1) as [[y r2]|] eqn:Hy; [|done].
    cbn [mbind option_bind]. intros [= <- _]. split; [done|].
    apply Hcont; by eapply uniformCoord_range.
Qed.

(** The bounds test of [canPlaceCircle] is exact for a centre on the grid. *)
Lemma outOfBounds_contained cfg c :
  0 < Width cfg <= 100 → 0 < Height cfg <= 100 →
  0 <= Radius c < 2 ^ 62 → 0 <= X c <= 100 → 0 <= Y c <= 100 →
  outOfBounds cfg c = false → contained cfg c.
Proof.
  int_consts. intros HW HH Hrad Hx Hy. unfold outOfBounds, isub, iadd.
  rewrite !wrap_id by (unfold is_int; int_consts; lia).
  rewrite !orb_false_iff, !Z.ltb_ge, !Z.leb_gt. unfold contained. lia.
Qed.

(** ** Circle packing: the invariant *)

Lemma contained_small cfg c :
  Width cfg <= 100 → Height cfg <= 100 → contained cfg c →
  0 <= X c < 2 ^ 24 ∧ 0 <= Y c < 2 ^ 24 ∧ 0 <= Radius c < 2 ^ 24.
Proof. change (2 ^ 24) with 16777216. unfold contained. lia. Qed.

Lemma canPlaceCircle_apart cfg g c :
  Width cfg <= 100 → Height cfg <= 100 →
  packed cfg g → contained cfg c → canPlaceCircle g c = true →
  Forall (apart c) (getAllCircles g).
Proof.
  intros HW HH (Hcfg & Hcont & _) Hc. unfold canPlaceCircle.
  destruct (outOfBounds (config g) c); [done|].
  rewrite forallb_forall. intros Hall. apply List.Forall_forall. intros e He.
  specialize (Hall e He). apply negb_true_iff in Hall.
  rewrite List.Forall_forall in Hcont. specialize (Hcont e He).
  destruct (contained_small cfg c HW HH Hc) as (? & ? & ?).
  destruct (contained_small cfg e HW HH Hcont) as (? & ? & ?).
  by apply sqrtLt_apart.
Qed.

Lemma getAllCircles_addCircle k g c :
  ∃ l1 l2 t, getAllCircles g = l1 ++ l2 ∧
             getAllCircles (addCircle k g c) = l1 ++ setType t c :: l2.
Proof.
  unfold getAllCircles. destruct k; simpl.
  - exists (map (setType "spawn") (spawns g)), (map (setType "bedroom") (bedrooms g)), "spawn"%string.
    split; [done|]. by rewrite map_app, <- app_assoc.
  - exists (map (setType "spawn") (spawns g) ++ map (setType "bedroom") (bedrooms g)), [], "bedroom"%string.
    split; [by rewrite app_nil_r|]. by rewrite map_app, app_assoc.
Qed.

Lemma packed_addCircle cfg k g c :
  Width cfg <= 100 → Height cfg <= 100 →
  packed cfg g → contained cfg c → canPlaceCircle g c = true →
  packed cfg (addCircle k g c).
Proof.
  intros HW HH Hp Hc Hplace.
  pose proof (canPlaceCircle_apart cfg g c HW HH Hp Hc Hplace) as Hapart.
  destruct Hp as (Hcfg & Hcont & Hfop).
  destruct (getAllCircles_addCircle k g c) as (l1 & l2 & t & Hold & Hnew).
  split; [by destruct k|]. rewrite Hnew. rewrite Hold in *. split.
  - apply Forall_app in Hcont as [H1 H2]. apply Forall_app. split; [done|].
    constructor; [exact Hc|done].
  - apply FOP_insert; [intros a b; apply apartXYR_sym|done|exact Hapart].
Qed.

Lemma placeOne_spec `{FloatMath} g radius :
  0 < Width (config g) <= 100 → 0 < Height (config g) <= 100 →
  0 <= radius < 2 ^ 62 →
  ∀ attempts r c r',
    placeOne attempts g radius r = Some (Some c, r') →
    contained (config g) c ∧ canPlaceCircle g c = true.
Proof.
  intros HW HH Hrad. induction attempts as [|attempts IH]; intros r c r'; [done|].
  cbn [placeOne]. destruct (propose g radius r) as [[c0 r1]|] eqn:Hp; [|done].
  cbn [mbind option_bind]. destruct (canPlaceCircle g c0) eqn:Hplace.
  - intros [= <- _]. split; [|done]. by eapply propose_range.
  - apply IH.
Qed.

Lemma config_addCircle k g c : config (addCircle k g c) = config g.
Proof. by destruct k. Qed.

Lemma placeLoop_packed `{FloatMath} cfg k :
  0 < Width cfg <= 100 → 0 < Height cfg <= 100 →
  0 <= kindRadius k cfg < 2 ^ 62 →
  ∀ n i g r err g' r',
    packed cfg g →
    placeLoop k n i g r = Some (err, g', r') →
    packed cfg g'.
Proof.
  intros HW HH Hrad. induction n as [|n IH]; intros i g r err g' r' Hp.
  - by intros [= _ <- _].
  - cbn [placeLoop]. assert (config g = cfg) as Hcfg by apply Hp.
    destruct (placeOne 3000 g (kindRadius k (config g)) r) as [[[c|] r1]|] eqn:Hone;
      cbn [mbind option_bind]; [| |done].
    + rewrite Hcfg in Hone.
      destruct (placeOne_spec g (kindRadius k cfg) ltac:(by rewrite Hcfg)
                  ltac:(by rewrite Hcfg) Hrad _ _ _ _ Hone) as [Hc Hplace].
      rewrite Hcfg in Hc. apply IH.
      apply packed_addCircle; [lia|lia|done|done|done].
    + by intros [= _ <- _].
Qed.

Lemma Generate_packed `{FloatMath} cfg r err g r' :
  validateConfig cfg = None → radiiInRange cfg →
  Generate (NewMapGenerator cfg) r = Some (err, g, r') →
  packed cfg g.
Proof.
  intros Hvalid [HS HB]. destruct (validateConfig_ok cfg Hvalid) as (HW & HH & _ & _).
  unfold Generate. cbn [config NewMapGenerator]. set (g0 := NewMapGenerator cfg).
  assert (packed cfg g0) as Hp0 by (split; [done|split; constructor]).
  set (center := {| X := idiv (Width cfg) 2; Y := idiv (Height cfg) 2;
                    Radius := SpawnR cfg; Type_ := "" |}).
  set (g1 := if 0 <? Spawns cfg
             then if canPlaceCircle g0 center then addCircle KSpawn g0 center else g0
             else g0).
  assert (packed cfg g1) as Hp1.
  { subst g1. destruct (0 <? Spawns cfg); [|done].
    destruct (canPlaceCircle g0 center) eqn:Hplace; [|done].
    apply packed_addCircle; [lia|lia|done| |done].
    unfold canPlaceCircle in Hplace. cbn [config g0 NewMapGenerator] in Hplace.
    destruct (outOfBounds cfg center) eqn:Hout; [done|].
    assert (∀ s, 0 < s <= 100 → 0 <= idiv s 2 <= 100) as Hdiv.
    { intros s Hs. unfold idiv.
      assert (0 <= s ÷ 2 <= 100).
      { split; [apply Z.quot_pos; lia|].
        etrans; [apply Z.quot_le_upper_bound with (q := s); lia|lia]. }
      rewrite wrap_id by (unfold is_int; int_consts; lia). done. }
    apply outOfBounds_contained; simpl; auto. }
  destruct (placeLoop KSpawn _ _ g1 r) as [[[err1 g2] r1]|] eqn:Hloop1;
    cbn [mbind option_bind]; [|done].
  pose proof (placeLoop_packed cfg KSpawn HW HH HS _ _ _ _ _ _ _ Hp1 Hloop1) as Hp2.
  destruct err1.
  - by intros [= _ <- _].
  - intros Hloop2. by eapply (placeLoop_packed cfg KBedroom HW HH HB).
Qed.




(** ** The image variant *)







(** ** Circle packing: running out of attempts *)

Lemma placedOf_addCircle_same k g c : placedOf k (addCircle k g c) = placedOf k g ++ [c].
Proof. by destruct k. Qed.

Lemma placedOf_addCircle_other k k' g c :
  k' ≠ k → placedOf k' (addCircle k g c) = placedOf k' g.
Proof. by destruct k, k'. Qed.



(** ** Circle packing: when the proposals cannot panic *)











(** ** Outside the range *)

(** The hypothesis on the radii cannot be dropped: [validateConfig] does not
    look at them, and with a spawn radius of [2^63 - 1] the sums and
    differences of [canPlaceCircle] wrap around, so that the bounds test
    passes for a circle centred far outside the 100 x 100 grid. *)
Remark radius_wraparound :
  let cfg := {| Width := 100; Height := 100; Spawns := 1; Bedrooms := 0;
                SpawnR := 2 ^ 63 - 1; BedroomR := 1; MaxGap := 0 |} in
  validateConfig cfg = None ∧
  ∃ g r',
    @Generate axisMath (NewMapGenerator cfg) (replay []) = Some (None, g, r') ∧
    getAllCircles g = [ {| X := 2 ^ 63 - 1; Y := 2 ^ 63 - 1; Radius := 2 ^ 63 - 1;
                           Type_ := "spawn" |} ].
Proof.
  intros cfg. split; [reflexivity|].
  eexists _, _. split; [vm_compute; reflexivity|reflexivity].
Qed.

(** ** Classification on a packed circle set *)

(** On circles that keep their distance - what the packer returns - the
    order of the circles does not matter for a centre: a coordinate that is
    the centre of a circle of positive radius is classified Center. *)
Lemma getCellType_center_apart (x y : Z) (circles : list Circle) (c : Circle) :
  Forall (λ e, 0 <= X e < 2 ^ 31 ∧ 0 <= Y e < 2 ^ 31 ∧ 0 <= Radius e < 2 ^ 31) circles →
  ForallOrdPairs apart circles →
  c ∈ circles → X c = x → Y c = y → 0 < Radius c →
  getCellType x y circles = Center.
Proof.
  intros Hsmall Hfop Hc Hx Hy Hrad.
  destruct (list_elem_of_split _ _ Hc) as (pre & post & Hsplit).
  assert (Forall (λ e, inDisc x y e = false ∨ (X e = x ∧ Y e = y)) pre) as Hpre;
    [|rewrite Hsplit; destruct (getCellType_skip x y pre (c :: post) Hpre) as [?|Hskip];
      [done|rewrite Hskip; subst x y; apply getCellType_at_center]].
  apply List.Forall_forall. intros e He.
  assert (In e circles) as Hein by (rewrite Hsplit; apply in_or_app; by left).
  destruct (ForallOrdPairs_In Hfop e c Hein ltac:(by apply list_elem_of_In))
    as [->|Hapart]; [by right|].
  assert (apart e c) as Ha by (destruct Hapart; [done|by apply apartXYR_sym]).
  rewrite List.Forall_forall in Hsmall.
  destruct (Hsmall e Hein) as (Hex & Hey & Her).
  destruct (Hsmall c ltac:(by apply list_elem_of_In)) as (Hcx & Hcy & _).
  left. unfold inDisc. apply Z.leb_gt. subst x y.
  change (2 ^ 31) with 2147483648 in *. unfold iadd, isub, imul.
  rewrite (wrap_id (X c - X e)), (wrap_id (Y c - Y e))
    by (unfold is_int; int_consts; lia).
  pose proof (square_bound (X c - X e) 2147483648 ltac:(lia)).
  pose proof (square_bound (Y c - Y e) 2147483648 ltac:(lia)).
  pose proof (square_bound (Radius e) 2147483648 ltac:(lia)).
  rewrite (wrap_id ((X c - X e) * (X c - X e))), (wrap_id ((Y c - Y e) * (Y c - Y e))),
          (wrap_id (Radius e * Radius e)) by (unfold is_int; int_consts; lia).
  rewrite wrap_id by (unfold is_int; int_consts; lia).
  apply Z.nle_gt. intros Hle.
  unfold apart, apartXYR in Ha.
  replace ((X e - X c) * (X e - X c) + (Y e - Y c) * (Y e - Y c))
    with ((X c - X e) * (X c - X e) + (Y c - Y e) * (Y c - Y e)) in Ha by lia.
  assert (sqrt (IZR ((X c - X e) * (X c - X e) + (Y c - Y e) * (Y c - Y e)))
            <= IZR (Radius e))%R as Hs.
  { rewrite <- (sqrt_square (IZR (Radius e))) by (apply IZR_le; lia).
    apply sqrt_le_1_alt. rewrite <- mult_IZR. by apply IZR_le. }
  assert (IZR (Radius e + Radius c) <= IZR (Radius e))%R as Hr
    by (eapply Rle_trans; [exact Ha|exact Hs]).
  apply le_IZR in Hr. lia.
Qed.

(** ** Outside the grid *)

(** [moveNumbers] is meant for populations of the grid: a cell whose
    coordinate lies outside the bounds keeps its tokens in the next-state
    map under its own key, which the final conversion never visits, and a
    negative token type makes the index into the speed table panic. *)
Remark outside_wellFormed :
  let cfg := {| Width := 1; Height := 1; Spawns := 0; Bedrooms := 0;
                SpawnR := 0; BedroomR := 0; MaxGap := 0 |} in
  (∀ r, ∃ r', moveNumbers cfg [] [ {| cX := 5; cY := 5; Vals := [0] |} ] [0%Q] r =
                Some ([], r')) ∧
  (∀ r, moveNumbers cfg [] [ {| cX := 0; cY := 0; Vals := [-1] |} ] [0%Q] r = None).
Proof.
  intros cfg. split; intros r.
  - unfold moveNumbers. change (len [0%Q] =? 0) with false. cbv zeta.
    cbn [foldM moveCell Vals mbind option_bind].
    rewrite (moveToken_never _ _ _ _ _ _ _ 0%Q); [|reflexivity|by vm_compute].
    cbn [mbind option_bind]. eexists. by vm_compute.
  - reflexivity.
Qed.

(** * Further properties of the server *)

(** ** Neighbours *)

Lemma wrap_near_inj x a b :
  - 2 <= a <= 2 → - 2 <= b <= 2 → wrap (x + a) = wrap (x + b) → a = b.
Proof.
  unfold wrap. int_consts. intros Ha Hb Heq.
  assert ((x + a + 9223372036854775808) mod 18446744073709551616 =
          (x + b + 9223372036854775808) mod 18446744073709551616) as Hm by lia.
  clear Heq. Z.div_mod_to_equations. lia.
Qed.

(** A step of one cell from an [int] that lands on an index below an [int]
    bound did not wrap around. *)
Lemma wrap_step_exact x d bound :
  is_int x → is_int bound → - 1 <= d <= 1 →
  0 <= wrap (x + d) < bound → wrap (x + d) = x + d.
Proof.
  unfold is_int, wrap. int_consts. intros Hx Hb Hd Hw.
  Z.div_mod_to_equations. lia.
Qed.

Lemma elem_of_directions d :
  d ∈ directions ↔ - 1 <= d.1 <= 1 ∧ - 1 <= d.2 <= 1 ∧ d ≠ (0, 0).
Proof.
  destruct d as [dx dy]. unfold directions. simpl.
  rewrite !elem_of_cons, elem_of_nil. split.
  - intros H.
    repeat (destruct H as [[= -> ->]|H]; [split_and!; (lia || done)|]).
    done.
  - intros (Hx & Hy & Hne).
    assert (dx = -1 ∨ dx = 0 ∨ dx = 1) as Hdx by lia.
    assert (dy = -1 ∨ dy = 0 ∨ dy = 1) as Hdy by lia.
    destruct Hdx as [-> | [-> | ->]], Hdy as [-> | [-> | ->]]; try done; tauto.
Qed.

Lemma elem_of_getNeighbors x y cfg n :
  n ∈ getNeighbors x y cfg ↔
  ∃ d, d ∈ directions ∧ n = (iadd x d.1, iadd y d.2) ∧ inGrid cfg n = true.
Proof.
  unfold getNeighbors. rewrite list_elem_of_bind. split.
  - intros (d & Hn & Hd). exists d. split; [done|].
    destruct (inGrid cfg (iadd x d.1, iadd y d.2)) eqn:Hg.
    + apply list_elem_of_singleton in Hn. by subst.
    + by apply elem_of_nil in Hn.
  - intros (d & Hd & -> & Hg). exists d. split; [|done].
    rewrite Hg. by apply list_elem_of_singleton.
Qed.

Lemma getNeighbors_iff x y cfg n :
  is_int x → is_int y → is_int (Width cfg) → is_int (Height cfg) →
  n ∈ getNeighbors x y cfg ↔
  inGrid cfg n = true ∧ Z.max (Z.abs (n.1 - x)) (Z.abs (n.2 - y)) = 1.
Proof.
  intros Hx Hy HW HH. rewrite elem_of_getNeighbors. split.
  - intros ([dx dy] & Hd & -> & Hg). split; [done|].
    apply elem_of_directions in Hd as (Hdx & Hdy & Hne). simpl in *.
    unfold inGrid in Hg. simpl in Hg.
    rewrite !andb_true_iff, !Z.leb_le, !Z.ltb_lt in Hg.
    unfold iadd in *.
    rewrite (wrap_step_exact x dx (Width cfg)), (wrap_step_exact y dy (Height cfg))
      by (done || lia).
    assert (dx ≠ 0 ∨ dy ≠ 0) by (destruct (decide (dx = 0)); [right; congruence|by left]).
    lia.
  - intros [Hg Hc]. destruct n as [nx ny]. simpl in Hc.
    exists (nx - x, ny - y). simpl.
    unfold inGrid in Hg. simpl in Hg. pose proof Hg as Hg'.
    rewrite !andb_true_iff, !Z.leb_le, !Z.ltb_lt in Hg'.
    assert (iadd x (nx - x) = nx ∧ iadd y (ny - y) = ny) as [-> ->].
    { unfold iadd. replace (x + (nx - x)) with nx by lia.
      replace (y + (ny - y)) with ny by lia.
      unfold is_int in *. split; apply wrap_id; unfold is_int; lia. }
    split; [|done]. apply elem_of_directions. simpl. split_and!; try lia.
    intros [= ? ?]. lia.
Qed.

Lemma getNeighbors_length x y cfg : (length (getNeighbors x y cfg) <= 8)%nat.
Proof.
  unfold getNeighbors, directions. simpl.
  repeat (match goal with |- context [if ?b then _ else _] => destruct b end);
    simpl; lia.
Qed.

Lemma getNeighbors_NoDup x y cfg : NoDup (getNeighbors x y cfg).
Proof.
  unfold getNeighbors. apply NoDup_bind.
  - intros d1 d2 n Hd1 Hd2 H1 H2.
    apply elem_of_directions in Hd1 as (? & ? & _).
    apply elem_of_directions in Hd2 as (? & ? & _).
    destruct (inGrid cfg (iadd x d1.1, iadd y d1.2)); [|by apply elem_of_nil in H1].
    destruct (inGrid cfg (iadd x d2.1, iadd y d2.2)); [|by apply elem_of_nil in H2].
    apply list_elem_of_singleton in H1, H2. subst n. injection H2 as Hx Hy.
    unfold iadd in *. apply wrap_near_inj in Hx, Hy; try lia.
    destruct d1, d2. simpl in *. congruence.
  - intros d _. destruct (inGrid _ _); [apply NoDup_singleton|constructor].
  - apply (bool_decide_unpack _). by vm_compute.
Qed.

(** X1: [getNeighbors] returns, without repetition, exactly the cells of
    the grid at Chebyshev distance 1 from [(x, y)]: at most eight, never
    [(x, y)] itself, never a cell outside the bounds. *)
Theorem getNeighbors_adjacent (x y : Z) (cfg : Config) :
  is_int x → is_int y → is_int (Width cfg) → is_int (Height cfg) →
  (∀ n, n ∈ getNeighbors x y cfg ↔
        inGrid cfg n = true ∧ Z.max (Z.abs (n.1 - x)) (Z.abs (n.2 - y)) = 1) ∧
  NoDup (getNeighbors x y cfg) ∧
  (length (getNeighbors x y cfg) <= 8)%nat ∧
  (x, y) ∉ getNeighbors x y cfg.
Proof.
  intros Hx Hy HW HH. split_and!.
  - intros n. by apply getNeighbors_iff.
  - apply getNeighbors_NoDup.
  - apply getNeighbors_length.
  - rewrite getNeighbors_iff by done. simpl. lia.
Qed.

Lemma getNeighbors_adjacent_witness :
  let cfg := {| Width := 3; Height := 3; Spawns := 0; Bedrooms := 0;
                SpawnR := 0; BedroomR := 0; MaxGap := 0 |} in
  (1, 0) ∈ getNeighbors 0 0 cfg ∧ ((0, 0) ∉ getNeighbors 0 0 cfg) ∧
  length (getNeighbors 1 1 cfg) = 8%nat.
Proof.
  intros cfg.
  destruct (getNeighbors_adjacent 0 0 cfg) as (Hiff & _ & _ & Hself);
    try (unfold is_int; int_consts; simpl; lia).
  split; [apply Hiff; split; [reflexivity|simpl; lia]|].
  split; [exact Hself|reflexivity].
Defined.

(** X2: adjacency is symmetric on the grid: a cell is among the neighbours
    of each of its own neighbours, so a migration can be undone by a later
    migration in the opposite direction. *)
Theorem getNeighbors_symmetric (cfg : Config) (p q : Z * Z) :
  is_int (Width cfg) → is_int (Height cfg) →
  inGrid cfg p = true →
  q ∈ getNeighbors p.1 p.2 cfg → p ∈ getNeighbors q.1 q.2 cfg.
Proof.
  intros HW HH Hp Hq.
  assert (∀ n, inGrid cfg n = true → is_int n.1 ∧ is_int n.2) as Hint.
  { intros n Hn. unfold inGrid in Hn.
    rewrite !andb_true_iff, !Z.leb_le, !Z.ltb_lt in Hn.
    unfold is_int in *. int_consts. lia. }
  destruct (Hint p Hp) as [Hp1 Hp2].
  apply getNeighbors_iff in Hq as [Hq Hd]; [|done..].
  destruct (Hint q Hq) as [Hq1 Hq2].
  apply getNeighbors_iff; [done..|]. split; [done|]. lia.
Qed.

Lemma getNeighbors_symmetric_witness :
  let cfg := {| Width := 4; Height := 4; Spawns := 0; Bedrooms := 0;
                SpawnR := 0; BedroomR := 0; MaxGap := 0 |} in
  (1, 2) ∈ getNeighbors 2 3 cfg.
Proof.
  intros cfg.
  apply (getNeighbors_symmetric cfg (1, 2) (2, 3));
    try (unfold is_int; int_consts; simpl; lia); [reflexivity|].
  vm_compute. apply list_elem_of_In. simpl. tauto.
Defined.

(** ** Validation *)

Lemma length_bind_singleton {A B} (f : A → B) (l : list A) :
  length (l ≫= λ x, [f x]) = length l.
Proof. induction l as [|x l IH]; [done|]. rewrite bind_cons. simpl. by rewrite IH. Qed.

Lemma length_bind_const {A B} (f : A → list B) (n : nat) (l : list A) :
  (∀ x, length (f x) = n) → length (l ≫= f) = (length l * n)%nat.
Proof.
  intros Hf. induction l as [|x l IH]; [done|].
  rewrite bind_cons, length_app, IH, Hf. simpl. lia.
Qed.

Lemma length_coords cfg :
  length (coords cfg) = (Z.to_nat (Height cfg) * Z.to_nat (Width cfg))%nat.
Proof.
  unfold coords. rewrite (length_bind_const _ (Z.to_nat (Width cfg))).
  - by rewrite length_seqZ.
  - intros y. by rewrite length_bind_singleton, length_seqZ.
Qed.

Lemma validateConfig_None cfg :
  validateConfig cfg = None ↔
  0 < Width cfg <= 100 ∧ 0 < Height cfg <= 100 ∧ 0 <= Spawns cfg ∧ 0 <= Bedrooms cfg.
Proof.
  split; [apply validateConfig_ok|].
  intros (HW & HH & HS & HB). unfold validateConfig.
  destruct (Z.leb_spec (Width cfg) 0), (Z.leb_spec (Height cfg) 0); try lia. simpl.
  destruct (Z.ltb_spec 100 (Width cfg)), (Z.ltb_spec 100 (Height cfg)); try lia. simpl.
  destruct (Z.ltb_spec (Spawns cfg) 0), (Z.ltb_spec (Bedrooms cfg) 0); try lia. done.
Qed.

(** X3: [validateConfig] accepts exactly the configurations with sides in
    [[1, 100]] and counts that are not negative (the radii and the gap are
    not looked at), and the grid of an accepted configuration has
    [Width * Height] coordinates, at most 10000. *)
Theorem validateConfig_accepts (cfg : Config) :
  (validateConfig cfg = None ↔
   0 < Width cfg <= 100 ∧ 0 < Height cfg <= 100 ∧
   0 <= Spawns cfg ∧ 0 <= Bedrooms cfg) ∧
  (validateConfig cfg = None →
   len (coords cfg) = Width cfg * Height cfg ∧ 1 <= len (coords cfg) <= 10000).
Proof.
  split; [apply validateConfig_None|].
  intros (HW & HH & _ & _)%validateConfig_ok.
  assert (len (coords cfg) = Width cfg * Height cfg) as Hlen.
  { unfold len. rewrite length_coords. lia. }
  split; [done|]. rewrite Hlen. nia.
Qed.

Lemma validateConfig_accepts_witness :
  let cfg := {| Width := 100; Height := 100; Spawns := 3; Bedrooms := 2;
                SpawnR := 5; BedroomR := 3; MaxGap := 2 |} in
  len (coords cfg) = 10000.
Proof.
  intros cfg.
  destruct (proj2 (validateConfig_accepts cfg) eq_refl) as [Hlen _].
  exact Hlen.
Defined.

Lemma Qltb_false a b : Qltb a b = false ↔ (b <= a)%Q.
Proof. unfold Qltb. rewrite negb_false_iff. apply Qle_bool_iff. Qed.

Lemma checkSpeeds_None speeds : ∀ i,
  checkSpeeds i speeds = None ↔ Forall (λ s, (0 <= s)%Q ∧ (s <= 100)%Q) speeds.
Proof.
  induction speeds as [|s rest IH]; intros i; simpl; [split; [constructor|done]|].
  rewrite Forall_cons, <- (IH (i + 1)), <- !Qltb_false.
  destruct (Qltb s 0), (Qltb 100 s); simpl; intuition discriminate.
Qed.

Lemma checkSpeeds_Some speeds : ∀ i j s,
  checkSpeeds i speeds = Some (SpeedOutOfRange j s) →
  ∃ k : nat, j = i + Z.of_nat k ∧ speeds !! k = Some s ∧
    ¬ ((0 <= s)%Q ∧ (s <= 100)%Q) ∧
    Forall (λ s, (0 <= s)%Q ∧ (s <= 100)%Q) (take k speeds).
Proof.
  induction speeds as [|s0 rest IH]; intros i j s; simpl; [done|].
  destruct (Qltb s0 0 || Qltb 100 s0) eqn:Hbad.
  - intros [= <- <-]. exists 0%nat. split_and!; [lia|done| |constructor].
    rewrite <- !Qltb_false. intros [H1 H2]. rewrite H1, H2 in Hbad. done.
  - intros (k & -> & Hk & Hs & Hpre)%IH. exists (S k).
    split_and!; [lia|done|done|]. simpl. constructor; [|done].
    apply orb_false_iff in Hbad as [H1 H2]. by rewrite <- !Qltb_false.
Qed.

Lemma checkSpeeds_not_empty speeds i : checkSpeeds i speeds ≠ Some SpeedsEmpty.
Proof.
  revert i. induction speeds as [|s rest IH]; intros i; simpl; [done|].
  destruct (_ || _); [done|apply IH].
Qed.

(** X4: [validateSpeeds] accepts exactly the non-empty tables with every
    entry in [[0, 100]]; on another table it reports that the table is
    empty, or the first entry out of range with its index.  With an
    accepted table every token type that is not negative has a speed, a
    percentage: its own entry of the table when the type is below the
    length of the table, and entry 0 otherwise (the fallback of
    [moveNumbers]; the index is not taken modulo the length); a negative
    token type has none, the lookup panics. *)
Theorem validateSpeeds_accepts (speeds : list Q) :
  (validateSpeeds speeds = None ↔
   speeds ≠ [] ∧ Forall (λ s, (0 <= s)%Q ∧ (s <= 100)%Q) speeds) ∧
  (validateSpeeds speeds = Some SpeedsEmpty ↔ speeds = []) ∧
  (∀ j s, validateSpeeds speeds = Some (SpeedOutOfRange j s) →
     ∃ k : nat, j = Z.of_nat k ∧ speeds !! k = Some s ∧
       ¬ ((0 <= s)%Q ∧ (s <= 100)%Q) ∧
       Forall (λ s, (0 <= s)%Q ∧ (s <= 100)%Q) (take k speeds)) ∧
  (validateSpeeds speeds = None →
   (∀ val, 0 <= val →
      ∃ s, speedOf speeds val = Some s ∧
           speeds !! (if val <? len speeds then Z.to_nat val else 0%nat) = Some s ∧
           (0 <= s)%Q ∧ (s <= 100)%Q) ∧
   (∀ val, val < 0 → speedOf speeds val = None)).
Proof.
  unfold validateSpeeds.
  destruct speeds as [|s0 rest].
  - simpl. split_and!; [intuition discriminate|done|done|done].
  - change (len (s0 :: rest) =? 0) with (Z.of_nat (S (length rest)) =? 0).
    destruct (Z.eqb_spec (Z.of_nat (S (length rest))) 0) as [|_]; [lia|].
    split_and!.
    + rewrite checkSpeeds_None. intuition discriminate.
    + split; [|done]. intros H. by apply checkSpeeds_not_empty in H.
    + intros j s (k & -> & ?)%checkSpeeds_Some. by exists k.
    + intros Hok%checkSpeeds_None. split.
      * intros val Hval.
        destruct (speedOf_total (s0 :: rest) val ltac:(done) Hval) as [s Hs].
        exists s. split; [done|]. unfold speedOf in Hs.
        assert (speeds_at :
          (s0 :: rest) !! (if val <? len (s0 :: rest) then Z.to_nat val else 0%nat)
            = Some s).
        { destruct (Z.leb_spec (len (s0 :: rest)) val),
                   (Z.ltb_spec val (len (s0 :: rest))); try lia.
          - exact Hs.
          - destruct (Z.ltb_spec val 0); [lia|exact Hs]. }
        split; [exact speeds_at|].
        rewrite Forall_lookup in Hok. by eapply Hok.
      * intros val Hval. unfold speedOf.
        pose proof (len_nonneg (s0 :: rest)).
        destruct (Z.leb_spec (len (s0 :: rest)) val); [lia|].
        by destruct (Z.ltb_spec val 0); [|lia].
Qed.

Lemma validateSpeeds_accepts_witness :
  speedOf [30%Q; 100%Q] 1 = Some 100%Q ∧ speedOf [30%Q; 100%Q] 7 = Some 30%Q ∧
  ∃ s, speedOf [30%Q; 100%Q] 7 = Some s ∧ [30%Q; 100%Q] !! 0%nat = Some s ∧
       (0 <= s)%Q ∧ (s <= 100)%Q.
Proof.
  split; [reflexivity|]. split; [reflexivity|].
  apply (proj1 (proj2 (proj2 (proj2 (validateSpeeds_accepts [30%Q; 100%Q]))) eq_refl) 7).
  lia.
Defined.

(** ** Classification, zone by zone *)

Lemma atCentre_eq x y c :
  is_int x → is_int y → is_int (X c) → is_int (Y c) →
  atCentre x y c = true ↔ x = X c ∧ y = Y c.
Proof.
  unfold atCentre, isub, is_int, wrap. int_consts. intros Hx Hy HX HY.
  rewrite andb_true_iff, !Z.eqb_eq. split.
  - intros [H1 H2]. Z.div_mod_to_equations. lia.
  - intros [-> ->]. rewrite !Z.sub_diag. done.
Qed.

Lemma getCellType_Exterior x y circles :
  getCellType x y circles = 0 ↔
  Forall (λ c, atCentre x y c = false ∧ inDisc x y c = false) circles.
Proof.
  induction circles as [|c rest IH]; [split; [constructor|done]|].
  rewrite getCellType_cons, Forall_cons, <- IH. unfold atCentre.
  destruct (_ && _); [intuition discriminate|].
  destruct (inDisc x y c); intuition discriminate.
Qed.

(** X5: the zone of a cell says where the cell lies: Exterior exactly when
    no circle has it as centre or in its disc, Interior only when some
    circle holds it in its disc without being centred there, Center only
    when it is the centre of some circle - the centre test being equality
    of the coordinates. *)
Theorem getCellType_zones (x y : Z) (circles : list Circle) :
  (getCellType x y circles = Exterior ↔
   Forall (λ c, atCentre x y c = false ∧ inDisc x y c = false) circles) ∧
  (getCellType x y circles = Interior →
   ∃ c, c ∈ circles ∧ atCentre x y c = false ∧ inDisc x y c = true) ∧
  (getCellType x y circles = Center →
   ∃ c, c ∈ circles ∧ atCentre x y c = true) ∧
  (∀ c, is_int x → is_int y → is_int (X c) → is_int (Y c) →
        (atCentre x y c = true ↔ x = X c ∧ y = Y c)).
Proof.
  split_and!; [apply getCellType_Exterior| | |intros c; apply atCentre_eq].
  - induction circles as [|c rest IH]; [done|].
    rewrite getCellType_cons. fold (atCentre x y c).
    destruct (atCentre x y c) eqn:Ha; [done|].
    destruct (inDisc x y c) eqn:Hd.
    + intros _. exists c. split; [by left|done].
    + intros (c' & ? & ?)%IH. exists c'. split; [by right|done].
  - induction circles as [|c rest IH]; [done|].
    rewrite getCellType_cons. fold (atCentre x y c).
    destruct (atCentre x y c) eqn:Ha.
    + intros _. exists c. split; [by left|done].
    + destruct (inDisc x y c); [done|].
      intros (c' & ? & ?)%IH. exists c'. split; [by right|done].
Qed.

Lemma getCellType_zones_witness :
  let circles := [ {| X := 5; Y := 5; Radius := 2; Type_ := "spawn" |} ] in
  ∃ c, c ∈ circles ∧ atCentre 5 4 c = false ∧ inDisc 5 4 c = true.
Proof.
  intros circles.
  apply (proj1 (proj2 (getCellType_zones 5 4 circles))). reflexivity.
Defined.

(** ** The shuffle *)

Lemma insert_swap_head {A} (l : list A) (j : nat) (x b : A) :
  l !! j = Some b → b :: <[j := x]> l ≡ₚ x :: l.
Proof.
  revert j. induction l as [|a l IH]; intros j Hj; [done|].
  destruct j as [|j]; simpl in *.
  - injection Hj as ->. apply perm_swap.
  - rewrite (perm_swap a b), (IH j Hj). apply perm_swap.
Qed.

Lemma swap_Permutation {A} (l : list A) : ∀ (i j : nat) (a b : A),
  l !! i = Some a → l !! j = Some b →
  <[i := b]> (<[j := a]> l) ≡ₚ l.
Proof.
  induction l as [|x l IH]; intros i j a b Hi Hj; [done|].
  destruct i as [|i], j as [|j]; simpl in *.
  - by injection Hi as <-; injection Hj as <-.
  - injection Hi as <-. by apply insert_swap_head.
  - injection Hj as <-. by apply insert_swap_head.
  - by rewrite (IH i j a b).
Qed.

Lemma shuffle_Permutation : ∀ i neighbors r,
  (i < length neighbors)%nat ∨ i = 0%nat →
  ∃ shuffled r', shuffle i neighbors r = Some (shuffled, r') ∧
                 shuffled ≡ₚ neighbors.
Proof.
  induction i as [|i IH]; intros neighbors r Hi; [by exists neighbors, r|].
  destruct Hi as [Hi|Hi]; [|done]. cbn [shuffle].
  rewrite Intn_pos by lia. cbn [mbind option_bind].
  pose proof (Z.mod_pos_bound (peek r) (Z.of_nat (S i) + 1) ltac:(lia)) as Hj.
  set (j := Z.to_nat (peek r mod (Z.of_nat (S i) + 1))) in *.
  destruct (lookup_lt_is_Some_2 neighbors (S i) Hi) as [a Ha].
  destruct (lookup_lt_is_Some_2 neighbors j ltac:(lia)) as [b Hb].
  rewrite Ha, Hb. cbn [mbind option_bind].
  destruct (IH (<[S i := b]> (<[j := a]> neighbors)) (next r))
    as (shuffled & r' & Hrun & Hperm).
  { left. rewrite !length_insert. lia. }
  exists shuffled, r'. split; [done|].
  rewrite Hperm. by apply swap_Permutation.
Qed.

(** X6: the shuffle of [moveNumbers] never panics and returns a
    rearrangement of the neighbours it is given: none is lost, none is
    scanned twice. *)
Theorem shuffle_permutes (neighbors : list (Z * Z)) (r : Rand) :
  ∃ shuffled r',
    shuffle (length neighbors - 1) neighbors r = Some (shuffled, r') ∧
    shuffled ≡ₚ neighbors.
Proof.
  apply shuffle_Permutation. destruct neighbors; simpl; [by right|left; lia].
Qed.

(** ** Populations *)

Lemma selectorLoop_indices (probabilities : list Q) : ∀ idx selector,
  0 <= idx →
  Forall (λ v, 0 <= v < idx) selector →
  Forall (λ v, 0 <= v < idx + len probabilities)
         (selectorLoop idx probabilities selector).
Proof.
  induction probabilities as [|p rest IH]; intros idx selector Hidx Hsel; simpl.
  - unfold len. simpl. eapply Forall_impl; [done|]. simpl. lia.
  - replace (idx + len (p :: rest)) with (idx + 1 + len rest)
      by (unfold len; simpl; lia).
    apply IH; [lia|]. apply Forall_app. split.
    + eapply Forall_impl; [done|]. simpl. lia.
    + apply Forall_replicate. lia.
Qed.

Lemma createProbabilitySelector_indices probabilities :
  Forall (λ v, 0 <= v < len probabilities) (createProbabilitySelector probabilities).
Proof.
  unfold createProbabilitySelector.
  apply (selectorLoop_indices probabilities 0 []); [lia|constructor].
Qed.

Lemma tokensOf_elem cells v xy : v ∈ tokensOf cells xy → v ∈ allTokens cells.
Proof.
  unfold tokensOf, allTokens. rewrite !list_elem_of_bind.
  intros (cell & Hv & Hcell). exists cell. split; [|done].
  case_decide; [done|by apply elem_of_nil in Hv].
Qed.

Lemma seeded_wellFormed cfg circles selector ks cells :
  Forall2 (seeded circles selector) ks cells →
  Forall (λ xy, inGrid cfg xy = true) ks →
  Forall (λ v, 0 <= v) selector →
  wellFormed cfg cells.
Proof.
  intros Hs Hks Hsel. unfold wellFormed.
  induction Hs as [|k cell ks cells (Hk & _ & _ & Hv) _ IH]; [constructor|].
  apply Forall_cons in Hks as [Hin Hks]. constructor; [|by apply IH].
  split; [by rewrite Hk|].
  rewrite Forall_forall in Hsel. eapply Forall_impl; [exact Hv|]. simpl. auto.
Qed.

Lemma seeded_tokens circles selector ks cells (P : Z → Prop) :
  Forall2 (seeded circles selector) ks cells →
  Forall P selector → Forall P (allTokens cells).
Proof.
  intros Hs Hsel. unfold allTokens. apply Forall_bind.
  induction Hs as [|k cell ks cells (_ & _ & _ & Hv) _ IH]; constructor; [|done].
  simpl. rewrite Forall_forall in Hsel. eapply Forall_impl; [exact Hv|]. simpl. auto.
Qed.

Lemma generateDistribution_run cfg circles probabilities r :
  ∃ cells r',
    generateDistribution cfg circles probabilities r = Some (cells, r') ∧
    wellFormed cfg cells ∧ NoDup (coordOf <$> cells) ∧
    Forall (λ v, 0 <= v < len probabilities) (allTokens cells).
Proof.
  unfold generateDistribution.
  set (selector := createProbabilitySelector probabilities).
  pose proof (createProbabilitySelector_indices probabilities) as Hidx.
  fold selector in Hidx.
  destruct (Z.eqb_spec (len selector) 0) as [Hz|Hz].
  { exists [], r. split_and!; [done|constructor|constructor|constructor]. }
  assert (selector ≠ []) as Hne by (intros E; rewrite E in Hz; done).
  destruct (seedCells_spec circles selector (coords cfg) [] r Hne)
    as (cells & r' & Hrun & Hseeded).
  exists cells, r'. split_and!; [done| | |].
  - eapply seeded_wellFormed; [done| |].
    + apply Forall_forall. intros xy [_ Hxy]%list_elem_of_filter.
      by apply elem_of_coords.
    + eapply Forall_impl; [exact Hidx|]. simpl. lia.
  - change (coordOf <$> cells) with (map (λ cell, (cX cell, cY cell)) cells).
    rewrite (seeded_coords _ _ _ _ Hseeded). apply NoDup_filter, NoDup_coords.
  - by eapply seeded_tokens.
Qed.

(** X7: [generateDistribution] always returns, and what it returns is a
    population of the grid: the stored coordinates are distinct cells of
    the grid, every token is an index into the probability vector, and
    every coordinate respects the capacity of its zone. *)
Theorem generateDistribution_population (cfg : Config) (circles : list Circle)
    (probabilities : list Q) (r : Rand) :
  ∃ cells r',
    generateDistribution cfg circles probabilities r = Some (cells, r') ∧
    wellFormed cfg cells ∧
    NoDup (coordOf <$> cells) ∧
    Forall (λ v, 0 <= v < len probabilities) (allTokens cells) ∧
    respectsCapacity circles cells.
Proof.
  destruct (generateDistribution_run cfg circles probabilities r)
    as (cells & r' & Hrun & Hwf & Hnd & Htok).
  exists cells, r'. split_and!; try done.
  by eapply generateDistribution_respectsCapacity.
Qed.

Lemma canMove_capacity circles m key :
  canMove circles m key = true →
  len (tokensAt m key) < capacity (getCellType key.1 key.2 circles).
Proof.
  unfold canMove, capacity.
  destruct (_ =? 0); [by intros ?%Z.ltb_lt|].
  destruct (_ =? 1); [by intros ?%Z.ltb_lt|done].
Qed.

Lemma capacity_nonneg t : 0 <= capacity t.
Proof. unfold capacity. destruct (_ =? 0); [lia|]. destruct (_ =? 1); lia. Qed.

Lemma len_tokensAt_appendAt m key val xy :
  len (tokensAt (appendAt m key val) xy) =
    len (tokensAt m xy) + (if decide (key = xy) then 1 else 0).
Proof.
  case_decide as Hk.
  - subst. rewrite tokensAt_appendAt_eq, len_app. done.
  - rewrite tokensAt_appendAt_ne by done. lia.
Qed.

(** What a cell holds over its capacity are tokens that started there. *)
Lemma moveCell_bound cfg circles speeds cell :
  speeds ≠ [] →
  ∀ vals m r, Forall (λ v, 0 <= v) vals →
  ∃ m' r', foldM (moveToken cfg circles speeds cell) vals (m, r) = Some (m', r') ∧
    ∀ xy B, 0 <= B →
      len (tokensAt m xy) <= capacity (getCellType xy.1 xy.2 circles) + B →
      len (tokensAt m' xy) <=
        capacity (getCellType xy.1 xy.2 circles) + B +
        (if decide ((cX cell, cY cell) = xy) then len vals else 0).
Proof.
  intros Hne. induction vals as [|val rest IH]; intros m r Hvals.
  - exists m, r. split; [done|]. intros xy B HB Hm.
    case_decide; unfold len in *; simpl; lia.
  - apply Forall_cons in Hvals as [Hval Hrest]. cbn [foldM].
    destruct (moveToken_spec cfg circles speeds cell m r val Hne Hval)
      as (key & r1 & -> & Hkey).
    cbn [mbind option_bind].
    destruct (IH (appendAt m key val) r1 Hrest) as (m' & r' & -> & Hbound).
    exists m', r'. split; [done|]. intros xy B HB Hm.
    pose proof (capacity_nonneg (getCellType xy.1 xy.2 circles)) as Hcap.
    assert (len (val :: rest) = 1 + len rest) as -> by (unfold len; simpl; lia).
    pose proof (len_nonneg rest) as Hrestlen.
    destruct Hkey as [->|[_ Hcan]].
    + case_decide as Hxy.
      * specialize (Hbound xy (B + 1) ltac:(lia)).
        rewrite decide_True in Hbound by done.
        rewrite len_tokensAt_appendAt, decide_True in Hbound by done.
        lia.
      * specialize (Hbound xy B HB).
        rewrite decide_False in Hbound by done.
        rewrite len_tokensAt_appendAt, decide_False in Hbound by done.
        lia.
    + specialize (Hbound xy B HB). apply canMove_capacity in Hcan.
      rewrite len_tokensAt_appendAt in Hbound.
      destruct (decide (key = xy)) as [->|Hk]; case_decide; lia.
Qed.

Lemma moveCells_bound cfg circles speeds :
  speeds ≠ [] →
  ∀ cells m r, wellFormed cfg cells →
  ∃ m' r', foldM (moveCell cfg circles speeds) cells (m, r) = Some (m', r') ∧
    ∀ xy B, 0 <= B →
      len (tokensAt m xy) <= capacity (getCellType xy.1 xy.2 circles) + B →
      len (tokensAt m' xy) <=
        capacity (getCellType xy.1 xy.2 circles) + B + len (tokensOf cells xy).
Proof.
  intros Hne. induction cells as [|cell cells IH]; intros m r Hwf.
  - exists m, r. split; [done|]. intros xy B HB Hm. unfold len in *. simpl. lia.
  - apply Forall_cons in Hwf as [[Hcell Hvals] Hwf]. cbn [foldM].
    change (moveCell cfg circles speeds (m, r) cell)
      with (foldM (moveToken cfg circles speeds cell) (Vals cell) (m, r)).
    destruct (moveCell_bound cfg circles speeds cell Hne (Vals cell) m r Hvals)
      as (m1 & r1 & -> & Hb1).
    cbn [mbind option_bind].
    destruct (IH m1 r1 Hwf) as (m' & r' & -> & Hb).
    exists m', r'. split; [done|]. intros xy B HB Hm.
    rewrite tokensOf_cons, len_app.
    specialize (Hb1 xy B HB Hm).
    pose proof (len_nonneg (Vals cell)).
    assert (len (@nil Z) = 0) as Hnil by reflexivity.
    case_decide; rewrite ?Hnil in *.
    + specialize (Hb xy (B + len (Vals cell)) ltac:(lia) ltac:(lia)). lia.
    + specialize (Hb xy B HB ltac:(lia)). lia.
Qed.

Lemma len_speeds_nonempty (speeds : list Q) : speeds ≠ [] → (len speeds =? 0) = false.
Proof. intros H. apply Z.eqb_neq. unfold len. destruct speeds; [done|simpl; lia]. Qed.

(** One call of [moveNumbers] on a population of the grid, with all the
    facts about the next-state map that the statements below share. *)
Lemma moveNumbers_run cfg circles cells speeds r :
  speeds ≠ [] → wellFormed cfg cells →
  ∃ m' r',
    moveNumbers cfg circles cells speeds r = Some (collect cfg m', r') ∧
    coords cfg ≫= tokensAt m' ≡ₚ allTokens cells ∧
    (∀ xy, len (tokensAt m' xy) <=
           capacity (getCellType xy.1 xy.2 circles) + len (tokensOf cells xy)).
Proof.
  intros Hne Hwf.
  destruct (moveCells_spec cfg circles speeds Hne cells (emptyState cfg) r Hwf)
    as (m' & r' & Hrun & Hperm & _).
  destruct (moveCells_bound cfg circles speeds Hne cells (emptyState cfg) r Hwf)
    as (m'' & r'' & Hrun' & Hbound).
  rewrite Hrun in Hrun'. injection Hrun' as <- <-.
  exists m', r'. split_and!.
  - unfold moveNumbers. rewrite len_speeds_nonempty by done. cbv zeta.
    by rewrite Hrun.
  - by rewrite Hperm, bind_emptyState, app_nil_r.
  - intros xy. specialize (Hbound xy 0 ltac:(lia)).
    rewrite tokensAt_emptyState in Hbound.
    pose proof (capacity_nonneg (getCellType xy.1 xy.2 circles)).
    unfold len at 1 in Hbound. simpl in Hbound. lia.
Qed.

Lemma collect_coords cfg m :
  coordOf <$> collect cfg m = filter (λ xy, tokensAt m xy ≠ []) (coords cfg).
Proof.
  unfold collect. induction (coords cfg) as [|xy ks IH]; [done|].
  rewrite bind_cons, fmap_app, IH, filter_cons.
  destruct (tokensAt m xy) as [|v vs] eqn:Ht; case_decide; try done.
  simpl. by destruct xy.
Qed.

Lemma collect_nonempty cfg m : Forall (λ cell, Vals cell ≠ []) (collect cfg m).
Proof.
  unfold collect. apply Forall_bind, Forall_forall. intros xy _. simpl.
  destruct (tokensAt m xy) eqn:Ht; simpl; [constructor|].
  constructor; [by simpl|constructor].
Qed.

Lemma collect_wellFormed cfg m :
  Forall (λ v, 0 <= v) (coords cfg ≫= tokensAt m) → wellFormed cfg (collect cfg m).
Proof.
  intros Htok. unfold wellFormed, collect. apply Forall_bind, Forall_forall.
  intros xy Hxy. simpl.
  destruct (0 <? len (tokensAt m xy)); [|constructor].
  constructor; [|constructor]. simpl. split.
  - destruct xy. by apply elem_of_coords.
  - rewrite Forall_bind, Forall_forall in Htok. by apply Htok.
Qed.

Lemma wellFormed_tokens cfg cells : wellFormed cfg cells → Forall (λ v, 0 <= v) (allTokens cells).
Proof.
  unfold wellFormed, allTokens. intros Hwf. apply Forall_bind.
  eapply Forall_impl; [exact Hwf|]. by intros cell [_ ?].
Qed.

(** X8: on a population of the grid [moveNumbers] returns a population of
    the grid again, stored sparsely: coordinates of the grid in row-major
    order and without repetition, no empty list, token types not negative. *)
Theorem moveNumbers_population (cfg : Config) (circles : list Circle)
    (cells : list Cell) (speeds : list Q) (r : Rand) :
  speeds ≠ [] → wellFormed cfg cells →
  ∃ out r',
    moveNumbers cfg circles cells speeds r = Some (out, r') ∧
    wellFormed cfg out ∧
    NoDup (coordOf <$> out) ∧
    sublist (coordOf <$> out) (coords cfg) ∧
    Forall (λ cell, Vals cell ≠ []) out.
Proof.
  intros Hne Hwf.
  destruct (moveNumbers_run cfg circles cells speeds r Hne Hwf)
    as (m' & r' & Hrun & Hperm & _).
  exists (collect cfg m'), r'. split_and!; [done| | | |apply collect_nonempty].
  - apply collect_wellFormed. rewrite Hperm. by eapply wellFormed_tokens.
  - rewrite collect_coords. apply NoDup_filter, NoDup_coords.
  - rewrite collect_coords. apply sublist_filter.
Qed.

Lemma moveNumbers_population_witness :
  let cfg := {| Width := 2; Height := 2; Spawns := 0; Bedrooms := 0;
                SpawnR := 0; BedroomR := 0; MaxGap := 0 |} in
  let cells := [ {| cX := 1; cY := 1; Vals := [1] |};
                 {| cX := 0; cY := 0; Vals := [0; 1] |} ] in
  ∃ out r',
    moveNumbers cfg [] cells [60%Q; 30%Q] (replay [5; 3; 1]) = Some (out, r') ∧
    wellFormed cfg out ∧ NoDup (coordOf <$> out).
Proof.
  intros cfg cells.
  destruct (moveNumbers_population cfg [] cells [60%Q; 30%Q] (replay [5; 3; 1]))
    as (out & r' & Hrun & Hwf & Hnd & _).
  - discriminate.
  - constructor; [|constructor; [|constructor]].
    + split; [reflexivity|]. constructor; [lia|constructor].
    + split; [reflexivity|]. constructor; [lia|]. constructor; [lia|constructor].
  - exists out, r'. split; [exact Hrun|]. split; [exact Hwf|exact Hnd].
Defined.

(** X9: whatever the speeds, a cell never ends an epoch with more tokens
    than the capacity of its zone plus the tokens it held before: a Center
    cell gains no token, and a cell that was empty stays within its
    capacity. *)
Theorem moveNumbers_occupancy (cfg : Config) (circles : list Circle)
    (cells : list Cell) (speeds : list Q) (r : Rand) :
  wellFormed cfg cells →
  ∃ out r',
    moveNumbers cfg circles cells speeds r = Some (out, r') ∧
    (∀ x y, len (tokensOf out (x, y)) <=
            capacity (getCellType x y circles) + len (tokensOf cells (x, y))) ∧
    (∀ x y, getCellType x y circles = Center →
            len (tokensOf out (x, y)) <= len (tokensOf cells (x, y))) ∧
    (∀ x y, tokensOf cells (x, y) = [] →
            len (tokensOf out (x, y)) <= capacity (getCellType x y circles)).
Proof.
  intros Hwf.
  assert (∃ out r', moveNumbers cfg circles cells speeds r = Some (out, r') ∧
            ∀ x y, len (tokensOf out (x, y)) <=
                   capacity (getCellType x y circles) + len (tokensOf cells (x, y)))
    as (out & r' & Hrun & Hbound).
  { destruct speeds as [|s0 rest].
    - exists cells, r. split; [done|]. intros x y.
      pose proof (capacity_nonneg (getCellType x y circles)). lia.
    - destruct (moveNumbers_run cfg circles cells (s0 :: rest) r ltac:(done) Hwf)
        as (m' & r' & Hrun & _ & Hbound).
      exists (collect cfg m'), r'. split; [done|]. intros x y.
      rewrite collect_tokensOf. destruct (inGrid cfg (x, y)); [apply (Hbound (x, y))|].
      pose proof (capacity_nonneg (getCellType x y circles)).
      pose proof (len_nonneg (tokensOf cells (x, y))).
      unfold len at 1. simpl. lia. }
  exists out, r'. split_and!; [done|done| |].
  - intros x y Hc. specialize (Hbound x y). rewrite Hc in Hbound.
    change (capacity Center) with 0 in Hbound. lia.
  - intros x y He. specialize (Hbound x y). rewrite He in Hbound.
    change (len (@nil Z)) with 0 in Hbound. lia.
Qed.

Lemma moveNumbers_occupancy_witness :
  let cfg := {| Width := 2; Height := 1; Spawns := 0; Bedrooms := 0;
                SpawnR := 0; BedroomR := 0; MaxGap := 0 |} in
  let cells := [ {| cX := 0; cY := 0; Vals := [0; 0] |};
                 {| cX := 1; cY := 0; Vals := [1; 1] |} ] in
  ∃ out r',
    moveNumbers cfg [] cells [100%Q; 0%Q] (replay []) = Some (out, r') ∧
    len (tokensOf out (1, 0)) <= 2 + 2.
Proof.
  intros cfg cells.
  destruct (moveNumbers_occupancy cfg [] cells [100%Q; 0%Q] (replay []))
    as (out & r' & Hrun & Hbound & _).
  - repeat constructor; simpl; lia.
  - exists out, r'. split; [exact Hrun|]. exact (Hbound 1 0).
Defined.

Lemma moveNumbers_step cfg circles cells speeds r :
  wellFormed cfg cells →
  ∃ out r',
    moveNumbers cfg circles cells speeds r = Some (out, r') ∧
    allTokens out ≡ₚ allTokens cells ∧ wellFormed cfg out.
Proof.
  intros Hwf. destruct speeds as [|s0 rest]; [by exists cells, r|].
  destruct (moveNumbers_run cfg circles cells (s0 :: rest) r ltac:(done) Hwf)
    as (m' & r' & Hrun & Hperm & _).
  exists (collect cfg m'), r'. split_and!; [done| |].
  - by rewrite collect_allTokens.
  - apply collect_wellFormed. rewrite Hperm. by eapply wellFormed_tokens.
Qed.

(** X10: any number of epochs can follow one another: started on a
    population of the grid, [n] successive calls of [moveNumbers] never
    panic, and the population they end with is again a population of the
    grid with the very same tokens. *)
Theorem epochs_conserve (cfg : Config) (circles : list Circle) (speeds : list Q)
    (n : nat) (cells : list Cell) (r : Rand) :
  wellFormed cfg cells →
  ∃ out r',
    epochs cfg circles speeds n cells r = Some (out, r') ∧
    allTokens out ≡ₚ allTokens cells ∧
    wellFormed cfg out.
Proof.
  revert cells r. induction n as [|n IH]; intros cells r Hwf; [by exists cells, r|].
  cbn [epochs].
  destruct (moveNumbers_step cfg circles cells speeds r Hwf)
    as (cells1 & r1 & -> & Hperm1 & Hwf1).
  cbn [mbind option_bind].
  destruct (IH cells1 r1 Hwf1) as (out & r' & Hrun & Hperm & Hwf').
  exists out, r'. split_and!; [done| |done]. by rewrite Hperm.
Qed.

Lemma epochs_conserve_witness :
  let cfg := {| Width := 2; Height := 2; Spawns := 0; Bedrooms := 0;
                SpawnR := 0; BedroomR := 0; MaxGap := 0 |} in
  let cells := [ {| cX := 0; cY := 0; Vals := [0; 1] |};
                 {| cX := 1; cY := 1; Vals := [1] |} ] in
  ∃ out r',
    epochs cfg [] [60%Q; 30%Q] 3 cells (replay [5; 3; 1]) = Some (out, r') ∧
    allTokens out ≡ₚ allTokens cells ∧ wellFormed cfg out.
Proof.
  intros cfg cells.
  apply (epochs_conserve cfg [] [60%Q; 30%Q] 3 cells (replay [5; 3; 1])).
  repeat constructor; simpl; lia.
Defined.

(** ** The circle set of a generated map *)

Lemma propose_radius `{FloatMath} g radius r c r' :
  propose g radius r = Some (c, r') → Radius c = radius ∧ Type_ c = ""%string.
Proof.
  unfold propose. destruct (0 <? len (getAllCircles g)); intros Hp.
  - apply bind_Some in Hp as ([k r1] & _ & Hp).
    apply bind_Some in Hp as (base & _ & Hp).
    apply bind_Some in Hp as ([[x y] r2] & _ & Hp).
    by injection Hp as <- _.
  - apply bind_Some in Hp as ([x r1] & _ & Hp).
    apply bind_Some in Hp as ([y r2] & _ & Hp).
    by injection Hp as <- _.
Qed.

Lemma placeOne_radius `{FloatMath} g radius : ∀ attempts r c r',
  placeOne attempts g radius r = Some (Some c, r') → Radius c = radius.
Proof.
  induction attempts as [|attempts IH]; intros r c r'; [done|].
  cbn [placeOne]. intros Hrest.
  apply bind_Some in Hrest as ([c0 r1] & Hp & Hrest).
  destruct (canPlaceCircle g c0); [|by eapply IH].
  injection Hrest as <- _. by eapply propose_radius.
Qed.

Lemma placeLoop_layout `{FloatMath} k : ∀ n i g r err g' r',
  Forall (λ c, Radius c = kindRadius k (config g)) (placedOf k g) →
  placeLoop k n i g r = Some (err, g', r') →
  config g' = config g ∧
  (∀ k', k' ≠ k → placedOf k' g' = placedOf k' g) ∧
  Forall (λ c, Radius c = kindRadius k (config g)) (placedOf k g') ∧
  (err = None → length (placedOf k g') = (length (placedOf k g) + n)%nat).
Proof.
  induction n as [|n IH]; intros i g r err g' r' Hrad.
  - intros [= <- <- _]. split_and!; [done|done|done|intros _; lia].
  - cbn [placeLoop]. intros Hrest.
    apply bind_Some in Hrest as ([placed r1] & Hone & Hrest).
    destruct placed as [c|].
    + apply IH in Hrest as (Hcfg & Hother & Hrad' & Hlen).
      * rewrite config_addCircle in Hcfg, Hrad'.
        rewrite placedOf_addCircle_same, length_app in Hlen. simpl in Hlen.
        split_and!; [done| |done|intros ->; specialize (Hlen eq_refl); lia].
        intros k' Hk'. rewrite Hother by done. by apply placedOf_addCircle_other.
      * rewrite config_addCircle, placedOf_addCircle_same.
        apply Forall_app. split; [done|]. constructor; [|constructor].
        by eapply placeOne_radius.
    + injection Hrest as <- <- _. split_and!; done.
Qed.

Lemma Generate_layout `{FloatMath} cfg r err g r' :
  Generate (NewMapGenerator cfg) r = Some (err, g, r') →
  Forall (λ c, Radius c = SpawnR cfg) (spawns g) ∧
  Forall (λ c, Radius c = BedroomR cfg) (bedrooms g) ∧
  (err = None → length (spawns g) = Z.to_nat (Spawns cfg) ∧
                length (bedrooms g) = Z.to_nat (Bedrooms cfg)).
Proof.
  unfold Generate. cbn [config NewMapGenerator]. set (g0 := NewMapGenerator cfg).
  set (center := {| X := idiv (Width cfg) 2; Y := idiv (Height cfg) 2;
                    Radius := SpawnR cfg; Type_ := "" |}).
  set (g1 := if 0 <? Spawns cfg
             then if canPlaceCircle g0 center then addCircle KSpawn g0 center else g0
             else g0).
  assert (config g1 = cfg ∧ bedrooms g1 = [] ∧
          Forall (λ c, Radius c = SpawnR cfg) (spawns g1) ∧
          (length (spawns g1) + Z.to_nat (Spawns cfg - len (spawns g1)) =
           Z.to_nat (Spawns cfg))%nat)
    as (Hcfg1 & Hbed1 & Hrad1 & Hlen1).
  { subst g1. destruct (Z.ltb_spec 0 (Spawns cfg)).
    - destruct (canPlaceCircle g0 center); unfold len; simpl; split_and!;
        try done; try lia. by repeat constructor.
    - unfold len. simpl. split_and!; try done. lia. }
  intros Hrest. apply bind_Some in Hrest as ([[err1 g2] r1] & Hloop1 & Hrest).
  apply (placeLoop_layout KSpawn) in Hloop1 as (Hcfg2 & Hother2 & Hrad2 & Hlen2);
    [|by rewrite Hcfg1].
  rewrite Hcfg1 in Hcfg2, Hrad2. cbn [placedOf kindRadius] in Hrad2, Hlen2.
  assert (bedrooms g2 = []) as Hbed2
    by (rewrite <- Hbed1; apply (Hother2 KBedroom); done).
  destruct err1 as [e1|].
  - injection Hrest as <- <- _. rewrite Hbed2. split_and!; [done|constructor|done].
  - apply (placeLoop_layout KBedroom) in Hrest as (Hcfg3 & Hother3 & Hrad3 & Hlen3);
      [|cbn [placedOf]; rewrite Hbed2; constructor].
    rewrite Hcfg2 in Hrad3. cbn [placedOf kindRadius] in Hrad3, Hlen3.
    pose proof (Hother3 KSpawn ltac:(done)) as Hsp. cbn [placedOf] in Hsp.
    rewrite Hsp. split_and!; [done|done|].
    intros ->. specialize (Hlen2 eq_refl). specialize (Hlen3 eq_refl).
    rewrite Hbed2 in Hlen3. simpl in Hlen3. split; lia.
Qed.

Lemma getSpawnPoints_app l1 l2 :
  getSpawnPoints (l1 ++ l2) = getSpawnPoints l1 ++ getSpawnPoints l2.
Proof. unfold getSpawnPoints. apply bind_app. Qed.

Lemma getSpawnPoints_tagged t (l : list Circle) :
  getSpawnPoints (map (setType t) l) =
    if String.eqb t "spawn" then map (setType t) l else [].
Proof.
  unfold getSpawnPoints. induction l as [|c l IH]; [by destruct (String.eqb _ _)|].
  simpl map. rewrite bind_cons, IH. simpl.
  destruct (String.eqb t "spawn"); done.
Qed.

Lemma getSpawnPoints_getAllCircles g :
  getSpawnPoints (getAllCircles g) = map (setType "spawn") (spawns g).
Proof.
  unfold getAllCircles.
  rewrite getSpawnPoints_app, !getSpawnPoints_tagged. simpl. apply app_nil_r.
Qed.

(** X11: the circle set that a successful [Generate] hands to the client
    lists the spawn circles first: [Spawns] circles tagged spawn with the
    spawn radius, then [Bedrooms] circles tagged bedroom with the bedroom
    radius; [getSpawnPoints] gives back exactly the first group. *)
Theorem Generate_circle_set `{FloatMath} (cfg : Config) (r : Rand)
    (g : MapGenerator) (r' : Rand) :
  Generate (NewMapGenerator cfg) r = Some (None, g, r') →
  length (getAllCircles g) = (Z.to_nat (Spawns cfg) + Z.to_nat (Bedrooms cfg))%nat ∧
  (∀ (i : nat) c, getAllCircles g !! i = Some c →
     if decide (i < Z.to_nat (Spawns cfg))%nat
     then Type_ c = "spawn"%string ∧ Radius c = SpawnR cfg
     else Type_ c = "bedroom"%string ∧ Radius c = BedroomR cfg) ∧
  getSpawnPoints (getAllCircles g) = take (Z.to_nat (Spawns cfg)) (getAllCircles g).
Proof.
  intros Hgen.
  destruct (Generate_layout cfg r None g r' Hgen) as (Hs & Hb & Hlen).
  destruct (Hlen eq_refl) as [Hls Hlb]. split_and!.
  - unfold getAllCircles. rewrite length_app, !length_map. lia.
  - intros i c Hi. unfold getAllCircles in Hi. case_decide as Hlt.
    + rewrite lookup_app_l in Hi by (rewrite length_map; lia).
      rewrite list_lookup_fmap in Hi.
      destruct (spawns g !! i) as [c0|] eqn:Hc0; [|done].
      injection Hi as <-. split; [done|]. simpl.
      rewrite Forall_lookup in Hs. by eapply Hs.
    + rewrite lookup_app_r in Hi by (rewrite length_map; lia).
      rewrite list_lookup_fmap in Hi.
      destruct (bedrooms g !! _) as [c0|] eqn:Hc0; [|done].
      injection Hi as <-. split; [done|]. simpl.
      rewrite Forall_lookup in Hb. by eapply Hb.
  - rewrite getSpawnPoints_getAllCircles. unfold getAllCircles.
    rewrite take_app_length'; [done|]. by rewrite length_map.
Qed.

Lemma Generate_circle_set_witness :
  let cfg := {| Width := 10; Height := 10; Spawns := 1; Bedrooms := 1;
                SpawnR := 2; BedroomR := 1; MaxGap := 2 |} in
  ∃ g r',
    @Generate axisMath (NewMapGenerator cfg) (replay []) = Some (None, g, r') ∧
    length (getAllCircles g) = 2%nat ∧
    getSpawnPoints (getAllCircles g) = take 1 (getAllCircles g).
Proof.
  intros cfg.
  assert (∃ g r', @Generate axisMath (NewMapGenerator cfg) (replay []) =
                    Some (None, g, r')) as (g & r' & Hrun).
  { eexists _, _. vm_compute. reflexivity. }
  exists g, r'. split; [exact Hrun|].
  destruct (@Generate_circle_set axisMath cfg (replay []) g r' Hrun) as (Hlen & _ & Hsp).
  split; [exact Hlen|exact Hsp].
Defined.

(** ** Players: the spawn position *)

(** Truncation toward zero stays within symmetric integer bounds. *)
Lemma int_bounds (q : Q) (R : Z) :
  0 <= R < 2 ^ 62 → (- inject_Z R <= q)%Q → (q <= inject_Z R)%Q →
  - R <= int q <= R.
Proof.
  int_consts. intros HR Hlo Hhi. destruct q as [n d]. unfold int, truncate, Qle in *.
  simpl in *. rewrite Z.mul_1_r in *.
  assert (- R <= n ÷ Z.pos d <= R) as Hq.
  { pose proof (Z.quot_le_mono (- R * Z.pos d) n (Z.pos d) ltac:(lia) Hlo) as H1.
    pose proof (Z.quot_le_mono n (R * Z.pos d) (Z.pos d) ltac:(lia) Hhi) as H2.
    rewrite Z.quot_mul in H1, H2 by lia. lia. }
  rewrite wrap_id by (unfold is_int; int_consts; lia). done.
Qed.

Lemma Float64_range r : (0 <= (Float64 r).1)%Q ∧ ((Float64 r).1 <= 1)%Q.
Proof.
  unfold Float64. simpl. unfold Qle. simpl.
  pose proof (Z.mod_pos_bound (peek r) (2 ^ 53) ltac:(done)).
  change (Z.pos (2 ^ 53)) with (2 ^ 53). lia.
Qed.

Lemma spawn_offset (f R c : Q) :
  (0 <= f)%Q → (f <= 1)%Q → (1 <= R)%Q → (-1 <= c)%Q → (c <= 1)%Q →
  (- R <= (1 + f * (R - 1)) * c)%Q ∧ ((1 + f * (R - 1)) * c <= R)%Q.
Proof.
  intros.
  assert (0 <= f * (R - 1))%Q by (apply Qmult_le_0_compat; Lqa.lra).
  assert (f * (R - 1) <= 1 * (R - 1))%Q by (apply Qmult_le_compat_r; Lqa.lra).
  set (rad := (1 + f * (R - 1))%Q) in *.
  assert (1 <= rad)%Q by (unfold rad; Lqa.lra).
  assert (rad <= R)%Q by (unfold rad; Lqa.lra).
  assert (rad * c <= rad * 1)%Q
    by (rewrite !(Qmult_comm rad); apply Qmult_le_compat_r; Lqa.lra).
  assert (rad * (-1) <= rad * c)%Q
    by (rewrite !(Qmult_comm rad); apply Qmult_le_compat_r; Lqa.lra).
  split; Lqa.lra.
Qed.

(** The position is drawn in the bounding box of one of the circles. *)
Lemma getRandomSpawnPoint_box `{FloatMath} cfg spawns r :
  boundedTrig → Width cfg <= 100 → Height cfg <= 100 →
  spawns ≠ [] →
  Forall (λ c, contained cfg c ∧ 1 <= Radius c) spawns →
  ∃ x y r' c,
    getRandomSpawnPoint spawns r = Some (x, y, r') ∧ c ∈ spawns ∧
    Z.abs (x - X c) <= Radius c ∧ Z.abs (y - Y c) <= Radius c.
Proof.
  intros Htrig HW HH Hne Hall. unfold getRandomSpawnPoint.
  assert ((len spawns =? 0) = false) as ->
    by (apply Z.eqb_neq; unfold len; destruct spawns; [done|simpl; lia]).
  assert (0 < len spawns) as Hlen by (unfold len; destruct spawns; [done|simpl; lia]).
  rewrite Intn_pos by done. cbn [mbind option_bind].
  pose proof (Z.mod_pos_bound (peek r) (len spawns) Hlen) as Hk.
  destruct (lookup_lt_is_Some_2 spawns (Z.to_nat (peek r mod len spawns))) as [c Hc];
    [unfold len in *; lia|].
  rewrite Hc. cbn [mbind option_bind].
  assert (c ∈ spawns) as Hin by (by eapply list_elem_of_lookup_2).
  rewrite Forall_forall in Hall. destruct (Hall c Hin) as [Hcont Hrad].
  destruct Hcont as (_ & Hx0 & Hx1 & Hy0 & Hy1).
  set (r1 := next r).
  pose proof (Float64_range r1) as [Hf1a Hf1b].
  destruct (Float64 r1) as [f1 r2] eqn:Hfl1. simpl in Hf1a, Hf1b.
  pose proof (Float64_range r2) as [Hf2a Hf2b].
  destruct (Float64 r2) as [f2 r3] eqn:Hfl2. simpl in Hf2a, Hf2b.
  cbv zeta.
  destruct (Htrig (f1 * 2 * Pi)%Q) as (Hc1 & Hc2 & Hs1 & Hs2).
  assert (isub (Radius c) 1 = Radius c - 1) as ->
    by (unfold isub; apply wrap_id; unfold is_int; int_consts; lia).
  assert (float64 (Radius c - 1) == inject_Z (Radius c) - 1)%Q as Hfl.
  { rewrite float64_exact by (change (2 ^ 53) with 9007199254740992; lia).
    unfold Qeq, Qminus, Qplus, Qopp, inject_Z. simpl. lia. }
  assert (1 <= inject_Z (Radius c))%Q as HR1
    by (unfold Qle, inject_Z; simpl; lia).
  set (radius := (1 + f2 * float64 (Radius c - 1))%Q).
  assert (radius == 1 + f2 * (inject_Z (Radius c) - 1))%Q as Hradius
    by (unfold radius; by rewrite Hfl).
  destruct (spawn_offset f2 (inject_Z (Radius c)) (Cos (f1 * 2 * Pi)) Hf2a Hf2b HR1 Hc1 Hc2)
    as [Hcl Hch].
  destruct (spawn_offset f2 (inject_Z (Radius c)) (Sin (f1 * 2 * Pi)) Hf2a Hf2b HR1 Hs1 Hs2)
    as [Hsl Hsh].
  rewrite <- Hradius in Hcl, Hch, Hsl, Hsh.
  assert (0 <= Radius c < 2 ^ 62) as HRr by (int_consts; lia).
  pose proof (int_bounds _ _ HRr Hcl Hch) as Hix.
  pose proof (int_bounds _ _ HRr Hsl Hsh) as Hiy.
  eexists _, _, r3, c. split; [done|]. split; [done|].
  unfold iadd. rewrite !wrap_id by (unfold is_int; int_consts; lia). lia.
Qed.

(** X12: on a map made by [Generate] (validated configuration, radii in
    range, spawn radius at least 1) a player is always spawned on a cell of
    the grid, within the bounding box of a spawn circle; when the map has
    no spawn circle the request is refused with status 400. *)
Theorem spawnPlayer_on_map `{FloatMath} (cfg : Config) (r : Rand)
    (g : MapGenerator) (r0 rnd : Rand) :
  boundedTrig →
  validateConfig cfg = None → radiiInRange cfg → 1 <= SpawnR cfg →
  Generate (NewMapGenerator cfg) r = Some (None, g, r0) →
  if decide (0 < Spawns cfg) then
    ∃ x y rnd' c,
      spawnPlayerHandler (getAllCircles g) rnd = Some (Spawned x y, rnd') ∧
      inGrid cfg (x, y) = true ∧
      c ∈ getSpawnPoints (getAllCircles g) ∧
      Z.abs (x - X c) <= Radius c ∧ Z.abs (y - Y c) <= Radius c
  else
    spawnPlayerHandler (getAllCircles g) rnd =
      Some (SpawnError 400 "На карте нет точек спавна"%string, rnd).
Proof.
  intros Htrig Hvalid Hrange HR Hgen.
  destruct (validateConfig_ok cfg Hvalid) as (HW & HH & HS & _).
  destruct (Generate_layout cfg r None g r0 Hgen) as (Hrad & _ & Hlen).
  destruct (Hlen eq_refl) as [Hls _].
  destruct (Generate_packed cfg r None g r0 Hvalid Hrange Hgen) as (_ & Hcont & _).
  unfold spawnPlayerHandler. rewrite getSpawnPoints_getAllCircles.
  set (spawns' := map (setType "spawn") (spawns g)).
  case_decide as Hpos.
  - assert (spawns' ≠ []) as Hne.
    { subst spawns'. destruct (spawns g); [simpl in Hls; lia|done]. }
    assert (Forall (λ c, contained cfg c ∧ 1 <= Radius c) spawns') as Hall.
    { unfold getAllCircles in Hcont. apply Forall_app in Hcont as [Hc _].
      subst spawns'. apply Forall_forall. intros c Hc'.
      split; [rewrite Forall_forall in Hc; by apply Hc|].
      apply list_elem_of_fmap in Hc' as (c0 & -> & Hc0). simpl.
      rewrite Forall_forall in Hrad. rewrite (Hrad c0 Hc0). done. }
    destruct (getRandomSpawnPoint_box cfg spawns' rnd Htrig ltac:(lia) ltac:(lia) Hne Hall)
      as (x & y & rnd' & c & Hrun & Hin & Hx & Hy).
    assert ((len spawns' =? 0) = false) as ->
      by (apply Z.eqb_neq; unfold len; destruct spawns'; [done|simpl; lia]).
    rewrite Hrun. cbn [mbind option_bind].
    exists x, y, rnd', c. split_and!; [done| |done|done|done].
    rewrite Forall_forall in Hall. destruct (Hall c Hin) as [(_ & ? & ? & ? & ?) _].
    unfold inGrid. simpl. rewrite !andb_true_iff, !Z.leb_le, !Z.ltb_lt. lia.
  - assert (spawns g = []) as Hnil by (destruct (spawns g); [done|simpl in Hls; lia]).
    subst spawns'. by rewrite Hnil.
Qed.

Lemma spawnPlayer_on_map_witness :
  let cfg := {| Width := 10; Height := 10; Spawns := 1; Bedrooms := 1;
                SpawnR := 2; BedroomR := 1; MaxGap := 2 |} in
  ∃ g r0 x y rnd',
    @Generate axisMath (NewMapGenerator cfg) (replay []) = Some (None, g, r0) ∧
    @spawnPlayerHandler axisMath (getAllCircles g) (replay [0; 0; 5]) =
      Some (Spawned x y, rnd') ∧
    inGrid cfg (x, y) = true.
Proof.
  intros cfg.
  assert (∃ g r0, @Generate axisMath (NewMapGenerator cfg) (replay []) =
                    Some (None, g, r0)) as (g & r0 & Hrun).
  { eexists _, _. vm_compute. reflexivity. }
  pose proof (@spawnPlayer_on_map axisMath cfg (replay []) g r0 (replay [0; 0; 5])) as Hs.
  rewrite decide_True in Hs by (simpl; lia).
  destruct Hs as (x & y & rnd' & c & Hsp & Hin & _).
  - intros a. unfold Qle. simpl. lia.
  - reflexivity.
  - unfold radiiInRange. simpl. int_consts. lia.
  - simpl. lia.
  - exact Hrun.
  - exists g, r0, x, y, rnd'. split; [exact Hrun|]. split; [exact Hsp|exact Hin].
Defined.

(** ** Players: moving *)

Lemma outside_inGrid cfg nx ny :
  ((nx <? 0) || (Width cfg <=? nx) || (ny <? 0) || (Height cfg <=? ny)) =
    negb (inGrid cfg (nx, ny)).
Proof.
  unfold inGrid. simpl.
  destruct (Z.ltb_spec nx 0), (Z.leb_spec (Width cfg) nx), (Z.ltb_spec ny 0),
    (Z.leb_spec (Height cfg) ny), (Z.leb_spec 0 nx), (Z.ltb_spec nx (Width cfg)),
    (Z.leb_spec 0 ny), (Z.ltb_spec ny (Height cfg)); simpl; try done; lia.
Qed.

Lemma inGrid_bounds cfg x y :
  inGrid cfg (x, y) = true ↔ 0 <= x < Width cfg ∧ 0 <= y < Height cfg.
Proof.
  unfold inGrid. simpl. rewrite !andb_true_iff, !Z.leb_le, !Z.ltb_lt. lia.
Qed.

(** A step of one from an [int] that lands in [[0, bound)] did not wrap. *)
Lemma wrap_step_inside v d bound :
  is_int v → is_int bound → - 1 <= d <= 1 →
  0 <= wrap (v + d) < bound → wrap (v + d) = v + d.
Proof.
  intros Hv Hb Hd Hin.
  destruct (decide (is_int (v + d))) as [Hi|Hi]; [by apply wrap_id|].
  exfalso. unfold is_int, wrap in *. int_consts.
  Z.div_mod_to_equations. lia.
Qed.

Lemma movePlayerHandler_Moved cfg x y direction x' y' message :
  movePlayerHandler cfg x y direction = Moved x' y' message →
  inGrid cfg (x', y') = true ∧
  ((direction = "up"%string ∧ x' = x ∧ y' = isub y 1) ∨
   (direction = "down"%string ∧ x' = x ∧ y' = iadd y 1) ∨
   (direction = "left"%string ∧ x' = isub x 1 ∧ y' = y) ∨
   (direction = "right"%string ∧ x' = iadd x 1 ∧ y' = y)).
Proof.
  unfold movePlayerHandler.
  destruct (String.eqb_spec direction "up") as [->|_];
    [|destruct (String.eqb_spec direction "down") as [->|_];
      [|destruct (String.eqb_spec direction "left") as [->|_];
        [|destruct (String.eqb_spec direction "right") as [->|_]; [|done]]]];
    rewrite outside_inGrid;
    (destruct (inGrid cfg _) eqn:Hin; simpl; [|done]);
    intros [= <- <- _]; (split; [done|]); tauto.
Qed.

Lemma positionAfter_step cfg x y direction dx dy :
  (direction, dx, dy) ∈
    [("up"%string, 0, -1); ("down"%string, 0, 1);
     ("left"%string, -1, 0); ("right"%string, 1, 0)] →
  is_int (x + dx) → is_int (y + dy) →
  positionAfter cfg (x, y) direction =
    if inGrid cfg (x + dx, y + dy) then (x + dx, y + dy) else (x, y).
Proof.
  intros Hd Hx Hy. unfold positionAfter, movePlayerHandler.
  repeat (apply elem_of_cons in Hd as [[= -> -> ->]|Hd]); [| | | |by apply elem_of_nil in Hd];
    cbn [String.eqb Ascii.eqb Bool.eqb fst snd andb]; rewrite outside_inGrid;
    unfold isub, iadd; rewrite ?Z.add_0_r in *.
  - change (y - 1) with (y + -1). rewrite (wrap_id (y + -1)) by done.
    by destruct (inGrid cfg _).
  - rewrite (wrap_id (y + 1)) by done. by destruct (inGrid cfg _).
  - change (x - 1) with (x + -1). rewrite (wrap_id (x + -1)) by done.
    by destruct (inGrid cfg _).
  - rewrite (wrap_id (x + 1)) by done. by destruct (inGrid cfg _).
Qed.

Lemma movePlayerHandler_accepts cfg x y direction x' y' message :
  is_int x → is_int y → is_int (Width cfg) → is_int (Height cfg) →
  movePlayerHandler cfg x y direction = Moved x' y' message →
  inGrid cfg (x', y') = true ∧
  ∃ dx dy,
    (direction, dx, dy) ∈
      [("up"%string, 0, -1); ("down"%string, 0, 1);
       ("left"%string, -1, 0); ("right"%string, 1, 0)] ∧
    x' = x + dx ∧ y' = y + dy.
Proof.
  intros Hx Hy HW HH Hmove.
  destruct (movePlayerHandler_Moved _ _ _ _ _ _ _ Hmove) as [Hin Hcase].
  split; [done|]. apply inGrid_bounds in Hin as [Hx' Hy'].
  destruct Hcase as [(-> & -> & ->) | [(-> & -> & ->) | [(-> & -> & ->) | (-> & -> & ->)]]];
    unfold isub, iadd in *.
  - exists 0, (-1). split_and!; [apply list_elem_of_here|lia|].
    change (y - 1) with (y + - 1) in *. by apply (wrap_step_inside _ _ (Height cfg)).
  - exists 0, 1. split_and!; [do 1 apply list_elem_of_further; apply list_elem_of_here|lia|].
    by apply (wrap_step_inside _ _ (Height cfg)).
  - exists (-1), 0. split_and!; [do 2 apply list_elem_of_further; apply list_elem_of_here| |lia].
    change (x - 1) with (x + - 1) in *. by apply (wrap_step_inside _ _ (Width cfg)).
  - exists 1, 0. split_and!; [do 3 apply list_elem_of_further; apply list_elem_of_here| |lia].
    by apply (wrap_step_inside _ _ (Width cfg)).
Qed.

(** X13: a move that [movePlayerHandler] accepts is a move of exactly one
    cell in the direction asked, and it ends on a cell of the grid. *)
Theorem movePlayerHandler_one_step (cfg : Config) (x y : Z) (direction : string)
    (x' y' : Z) (message : string) :
  is_int x → is_int y → is_int (Width cfg) → is_int (Height cfg) →
  movePlayerHandler cfg x y direction = Moved x' y' message →
  inGrid cfg (x', y') = true ∧
  ∃ dx dy,
    (direction, dx, dy) ∈
      [("up"%string, 0, -1); ("down"%string, 0, 1);
       ("left"%string, -1, 0); ("right"%string, 1, 0)] ∧
    x' = x + dx ∧ y' = y + dy.
Proof. apply movePlayerHandler_accepts. Qed.

Lemma movePlayerHandler_one_step_witness :
  let cfg := {| Width := 4; Height := 3; Spawns := 1; Bedrooms := 1;
                SpawnR := 1; BedroomR := 1; MaxGap := 1 |} in
  inGrid cfg (2, 2) = true ∧
  ∃ dx dy,
    (("right"%string, dx, dy) : string * Z * Z) ∈
      [("up"%string, 0, -1); ("down"%string, 0, 1);
       ("left"%string, -1, 0); ("right"%string, 1, 0)] ∧
    2 = 1 + dx ∧ 2 = 2 + dy.
Proof.
  intros cfg.
  apply (movePlayerHandler_one_step cfg 1 2 "right" 2 2
           "Игрок перемещен right на (2, 2)");
    try (unfold is_int; int_consts; simpl; lia).
  vm_compute. reflexivity.
Defined.

(** X14: whatever is requested, a player on the grid stays on the grid: a
    position of the grid is again one after any sequence of move requests,
    accepted or refused, valid direction or not. *)
Theorem moves_stay_on_grid (cfg : Config) (directions : list string) (xy : Z * Z) :
  inGrid cfg xy = true →
  inGrid cfg (foldl (positionAfter cfg) xy directions) = true.
Proof.
  revert xy. induction directions as [|d ds IH]; intros xy Hin; [done|].
  simpl. apply IH. unfold positionAfter.
  destruct (movePlayerHandler cfg xy.1 xy.2 d) as [?|x' y' msg] eqn:Hmove; [done|].
  by destruct (movePlayerHandler_Moved _ _ _ _ _ _ _ Hmove).
Qed.

Lemma moves_stay_on_grid_witness :
  let cfg := {| Width := 2; Height := 2; Spawns := 1; Bedrooms := 1;
                SpawnR := 1; BedroomR := 1; MaxGap := 1 |} in
  inGrid cfg (foldl (positionAfter cfg) (0, 0)
                ["left"; "down"; "jump"; "right"; "right"; "up"; "up"]%string) = true.
Proof.
  intros cfg. by apply (moves_stay_on_grid cfg).
Defined.

(** X15: on the grid an accepted move is undone by the opposite one: the
    request for the opposite direction is accepted too and brings the
    player back to where they were. *)
Theorem moves_are_reversible (cfg : Config) (x y : Z) (d back : string)
    (x' y' : Z) (message : string) :
  inGrid cfg (x, y) = true → is_int (Width cfg) → is_int (Height cfg) →
  (d, back) ∈ [("up", "down"); ("down", "up"); ("left", "right"); ("right", "left")]%string →
  movePlayerHandler cfg x y d = Moved x' y' message →
  ∃ message', movePlayerHandler cfg x' y' back = Moved x y message'.
Proof.
  intros Hin HW HH Hd Hmove. pose proof Hin as Hin0.
  apply inGrid_bounds in Hin as [Hx Hy].
  assert (is_int x ∧ is_int y) as [Hix Hiy] by (unfold is_int in *; lia).
  destruct (movePlayerHandler_accepts cfg x y d x' y' message Hix Hiy HW HH Hmove)
    as (Hin' & dx & dy & Htab & -> & ->).
  assert (∃ dx' dy', dx' = - dx ∧ dy' = - dy ∧
            (back, dx', dy') ∈ [("up"%string, 0, -1); ("down"%string, 0, 1);
                                ("left"%string, -1, 0); ("right"%string, 1, 0)])
    as (dx' & dy' & -> & -> & Hback).
  { repeat (apply elem_of_cons in Hd as [[= -> ->]|Hd]); [| | | |by apply elem_of_nil in Hd];
      repeat (apply elem_of_cons in Htab as [[= -> ->]|Htab]);
      try (by apply elem_of_nil in Htab); try discriminate.
    - exists 0, 1. split_and!; [done|done|]. do 1 apply list_elem_of_further. apply list_elem_of_here.
    - exists 0, (-1). split_and!; [done|done|]. apply list_elem_of_here.
    - exists 1, 0. split_and!; [done|done|]. do 3 apply list_elem_of_further. apply list_elem_of_here.
    - exists (-1), 0. split_and!; [done|done|]. do 2 apply list_elem_of_further. apply list_elem_of_here. }
  pose proof (positionAfter_step cfg (x + dx) (y + dy) back (- dx) (- dy) Hback) as Hstep.
  replace (x + dx + - dx) with x in Hstep by lia.
  replace (y + dy + - dy) with y in Hstep by lia.
  rewrite Hin0 in Hstep. specialize (Hstep Hix Hiy).
  unfold positionAfter in Hstep. cbn [fst snd] in Hstep.
  destruct (movePlayerHandler cfg (x + dx) (y + dy) back) as [?|x1 y1 m1] eqn:Hm.
  - exfalso. injection Hstep as H1 H2.
    repeat (apply elem_of_cons in Htab as [[= _ -> ->]|Htab]);
      try (by apply elem_of_nil in Htab); lia.
  - injection Hstep as -> ->. by exists m1.
Qed.

Lemma moves_are_reversible_witness :
  let cfg := {| Width := 4; Height := 3; Spawns := 1; Bedrooms := 1;
                SpawnR := 1; BedroomR := 1; MaxGap := 1 |} in
  ∃ message', movePlayerHandler cfg 1 1 "down" = Moved 1 2 message'.
Proof.
  intros cfg.
  apply (moves_are_reversible cfg 1 2 "up" "down" 1 1
           "Игрок перемещен up на (1, 1)");
    try (unfold is_int; int_consts; simpl; lia).
  - reflexivity.
  - apply list_elem_of_here.
  - vm_compute. reflexivity.
Defined.

(** ** Players: the 5x5 view *)

Lemma playerViewHandler_lookup cfg circles cells px py (i j : nat) row cell :
  playerViewHandler cfg circles cells px py !! i = Some row →
  row !! j = Some cell →
  (i < 5)%nat ∧ (j < 5)%nat ∧
  cell = viewCell cfg circles (cellMapOf cells) px py (Z.of_nat j - 2) (Z.of_nat i - 2).
Proof.
  unfold playerViewHandler. intros Hrow Hcell.
  rewrite list_lookup_fmap in Hrow. apply fmap_Some in Hrow as (dy & Hdy & ->).
  rewrite list_lookup_fmap in Hcell. apply fmap_Some in Hcell as (dx & Hdx & ->).
  apply lookup_seqZ in Hdy as [-> Hi]. apply lookup_seqZ in Hdx as [-> Hj].
  split_and!; [lia|lia|]. f_equal; lia.
Qed.

Lemma tokensOf_absent cells xy : xy ∉ coordOf <$> cells → tokensOf cells xy = [].
Proof.
  induction cells as [|c cs IH]; [done|].
  rewrite fmap_cons, not_elem_of_cons, tokensOf_cons. intros [Hne Hcs].
  rewrite decide_False by (intros Heq; by apply Hne). by rewrite IH.
Qed.

Lemma tokensAt_foldl_insert (cells : list Cell) (xy : Z * Z)
    (m : gmap (Z * Z) (list Z)) :
  NoDup (coordOf <$> cells) →
  tokensAt (foldl (λ m cell, <[(cX cell, cY cell) := Vals cell]> m) m cells) xy =
    if decide (xy ∈ coordOf <$> cells) then tokensOf cells xy else tokensAt m xy.
Proof.
  revert m. induction cells as [|c cs IH]; intros m Hnd; [done|].
  rewrite fmap_cons in Hnd. apply NoDup_cons in Hnd as [Hc Hnd].
  cbn [foldl]. rewrite IH by done. rewrite tokensOf_cons, fmap_cons.
  destruct (decide ((cX c, cY c) = xy)) as [<-|Hne].
  - rewrite decide_False by done.
    rewrite decide_True by apply list_elem_of_here.
    rewrite tokensOf_absent by done. rewrite app_nil_r.
    unfold tokensAt. by rewrite lookup_insert_eq.
  - case_decide as Hin.
    + by rewrite decide_True by by apply list_elem_of_further.
    + rewrite decide_False.
      * unfold tokensAt. by rewrite lookup_insert_ne.
      * rewrite elem_of_cons. intros [Heq|?]; [|done]. by apply Hne.
Qed.

Lemma tokensAt_cellMapOf cells xy :
  NoDup (coordOf <$> cells) → tokensAt (cellMapOf cells) xy = tokensOf cells xy.
Proof.
  intros Hnd. unfold cellMapOf. rewrite tokensAt_foldl_insert by done.
  case_decide; [done|]. by rewrite tokensOf_absent.
Qed.

(** X16: the view is a 5 by 5 table indexed by row then column; the entry
    of row [i] and column [j] says so in [view_y] and [view_x], stands for
    the cell of the map [j - 2] to the right of and [i - 2] below the
    player, and is marked [is_player] exactly when it is the player's own
    cell, which is the entry in the middle. *)
Theorem playerView_geometry (cfg : Config) (circles : list Circle)
    (cells : list Cell) (px py : Z) :
  validateConfig cfg = None → inGrid cfg (px, py) = true →
  let view := playerViewHandler cfg circles cells px py in
  length view = 5%nat ∧ Forall (λ row, length row = 5%nat) view ∧
  ∀ (i j : nat) row cell,
    view !! i = Some row → row !! j = Some cell →
    view_y cell = Z.of_nat i ∧ view_x cell = Z.of_nat j ∧
    map_x cell = px + Z.of_nat j - 2 ∧ map_y cell = py + Z.of_nat i - 2 ∧
    (is_player cell = true ↔ i = 2%nat ∧ j = 2%nat) ∧
    (is_player cell = true ↔ map_x cell = px ∧ map_y cell = py).
Proof.
  intros Hvalid Hin view.
  destruct (validateConfig_ok cfg Hvalid) as (HW & HH & _).
  apply inGrid_bounds in Hin as [Hx Hy].
  split_and!.
  - subst view. unfold playerViewHandler. cbv zeta. by rewrite length_fmap, length_seqZ.
  - subst view. unfold playerViewHandler. cbv zeta. apply Forall_fmap, Forall_forall.
    intros dy _. unfold compose. cbv beta. by rewrite length_fmap, length_seqZ.
  - intros i j row cell Hrow Hcell.
    destruct (playerViewHandler_lookup _ _ _ _ _ _ _ _ _ Hrow Hcell) as (Hi & Hj & ->).
    assert (∀ a b, -200 <= a <= 200 → -200 <= b <= 200 → iadd a b = a + b) as Hadd.
    { intros a b Ha Hb. unfold iadd. apply wrap_id. unfold is_int. int_consts. lia. }
    unfold viewCell. cbv zeta.
    rewrite !Hadd by lia.
    assert (∀ P Q R S (c : bool) (a b : CellData),
              P a → Q a → R a → S a → P b → Q b → R b → S b →
              P (if c then a else b) ∧ Q (if c then a else b) ∧
              R (if c then a else b) ∧ S (if c then a else b)) as Hif
      by (intros ? ? ? ? []; tauto).
    destruct (_ || _).
    + cbn [view_x view_y map_x map_y is_player].
      rewrite andb_true_iff, !Z.eqb_eq. split_and!; lia.
    + destruct (if getCellType _ _ _ =? 0 then _ else _) as [[t c] d].
      cbn [view_x view_y map_x map_y is_player].
      rewrite andb_true_iff, !Z.eqb_eq. split_and!; lia.
Qed.

Lemma playerView_geometry_witness :
  let cfg := {| Width := 3; Height := 3; Spawns := 1; Bedrooms := 1;
                SpawnR := 1; BedroomR := 1; MaxGap := 1 |} in
  let view := playerViewHandler cfg [] [] 1 1 in
  length view = 5%nat ∧ Forall (λ row, length row = 5%nat) view.
Proof.
  intros cfg view.
  destruct (playerView_geometry cfg [] [] 1 1) as (H1 & H2 & _); [done|done|].
  by split.
Defined.

(** X17: what the view shows of a cell.  A cell off the grid is "outside",
    black and empty; a cell of the grid always gets a type, the one of its
    zone ([getCellType]: empty, inside a circle, centre), and shows the
    tokens that the stored population holds at that coordinate. *)
Theorem playerView_content (cfg : Config) (circles : list Circle)
    (cells : list Cell) (px py : Z) (i j : nat) (row : list CellData)
    (cell : CellData) :
  NoDup (coordOf <$> cells) →
  playerViewHandler cfg circles cells px py !! i = Some row →
  row !! j = Some cell →
  if inGrid cfg (map_x cell, map_y cell) then
    (vtype cell, color cell) =
      (if getCellType (map_x cell) (map_y cell) circles =? Exterior
       then (Some "empty"%string, Some "white"%string)
       else if getCellType (map_x cell) (map_y cell) circles =? Interior
       then (Some "inside_circle"%string, Some "blue"%string)
       else (Some "circle_center"%string, Some "green"%string)) ∧
    numbers cell = tokensOf cells (map_x cell, map_y cell)
  else
    (vtype cell, color cell) = (Some "outside", Some "black")%string ∧
    numbers cell = [].
Proof.
  intros Hnd Hrow Hcell.
  destruct (playerViewHandler_lookup _ _ _ _ _ _ _ _ _ Hrow Hcell) as (_ & _ & ->).
  unfold viewCell. cbv zeta. rewrite outside_inGrid.
  set (mx := iadd px _). set (my := iadd py _).
  destruct (inGrid cfg (mx, my)) eqn:Hin; cbn [negb].
  - unfold Exterior, Interior.
    destruct (getCellType_values mx my circles) as [Ht | [Ht | Ht]]; rewrite Ht;
      cbn [Z.eqb Pos.eqb map_x map_y vtype color numbers]; rewrite Hin, Ht;
      (split; [done|]); by apply tokensAt_cellMapOf.
  - cbn [map_x map_y vtype color numbers]. by rewrite Hin.
Qed.

Lemma playerView_content_witness :
  let cfg := {| Width := 3; Height := 3; Spawns := 1; Bedrooms := 1;
                SpawnR := 1; BedroomR := 1; MaxGap := 1 |} in
  let circles := [{| X := 1; Y := 1; Radius := 1; Type_ := "spawn" |}] in
  let cells := [{| cX := 0; cY := 0; Vals := [1; 0] |}] in
  ∃ row cell,
    playerViewHandler cfg circles cells 1 1 !! 1%nat = Some row ∧
    row !! 1%nat = Some cell ∧
    (vtype cell, color cell) = (Some "empty", Some "white")%string ∧
    numbers cell = [1; 0].
Proof.
  intros cfg circles cells.
  assert (∃ row cell, playerViewHandler cfg circles cells 1 1 !! 1%nat = Some row ∧
                      row !! 1%nat = Some cell) as (row & cell & Hrow & Hcell).
  { eexists _, _. split; vm_compute; reflexivity. }
  exists row, cell. split; [done|]. split; [done|].
  pose proof (playerView_content cfg circles cells 1 1 1 1 row cell) as Hc.
  injection Hrow as <-. injection Hcell as <-.
  apply Hc; [|done|done].
  apply NoDup_cons. split; [apply not_elem_of_nil|apply NoDup_nil_2].
Defined.


(** ** Epochs *)

(** X18: a new epoch never panics on a population of the grid and always
    advances the epoch by one.  It ends with a population of the grid; a
    stored population keeps its tokens (the same multiset), and is returned
    as it is when no speeds are set; an empty one is first seeded with
    tokens 0 and 1. *)
Theorem newEpochHandler_epoch (cfg : Config) (circles : list Circle)
    (speeds : list Q) (epoch : Z) (cells : list Cell) (r : Rand) :
  wellFormed cfg cells →
  ∃ out r',
    newEpochHandler cfg circles speeds epoch cells r = Some (iadd epoch 1, out, r') ∧
    wellFormed cfg out ∧
    (cells ≠ [] → allTokens out ≡ₚ allTokens cells) ∧
    (cells ≠ [] → speeds = [] → out = cells ∧ r' = r) ∧
    (cells = [] → Forall (λ v, v = 0 ∨ v = 1) (allTokens out)).
Proof.
  intros Hwf. unfold newEpochHandler.
  assert (∃ cells1 r1,
    (if len cells =? 0 then generateDistribution cfg circles [90%Q; 10%Q] r
     else Some (cells, r)) = Some (cells1, r1) ∧ wellFormed cfg cells1 ∧
    (cells ≠ [] → cells1 = cells ∧ r1 = r) ∧
    (cells = [] → Forall (λ v, v = 0 ∨ v = 1) (allTokens cells1)))
    as (cells1 & r1 & -> & Hwf1 & Hsame & Hnew).
  { destruct cells as [|c cs].
    - change (len [] =? 0) with true. cbv iota.
      destruct (generateDistribution_run cfg circles [90%Q; 10%Q] r)
        as (cells1 & r1 & Hrun & Hwf1 & _ & Htok).
      exists cells1, r1. split_and!; [done|done|done|].
      intros _. eapply Forall_impl; [exact Htok|]. simpl.
      change (len [90%Q; 10%Q]) with 2. lia.
    - assert ((len (c :: cs) =? 0) = false) as ->
        by (apply Z.eqb_neq; unfold len; simpl; lia).
      exists (c :: cs), r. split_and!; done. }
  cbn [mbind option_bind].
  destruct (moveNumbers_step cfg circles cells1 speeds r1 Hwf1)
    as (out & r' & Hrun & Hperm & Hwf').
  assert (∃ out' r'',
    (if 0 <? len speeds then moveNumbers cfg circles cells1 speeds r1
     else Some (cells1, r1)) = Some (out', r'') ∧
    allTokens out' ≡ₚ allTokens cells1 ∧ wellFormed cfg out' ∧
    (speeds = [] → out' = cells1 ∧ r'' = r1))
    as (out' & r'' & -> & Hperm' & Hwf'' & Hstill).
  { destruct speeds as [|s0 rest].
    - change (0 <? len []) with false. cbv iota. by exists cells1, r1.
    - assert ((0 <? len (s0 :: rest)) = true) as ->
        by (apply Z.ltb_lt; unfold len; simpl; lia).
      exists out, r'. split_and!; done. }
  cbn [mbind option_bind]. exists out', r''. split_and!; [done|done| | |].
  - intros Hne. destruct (Hsame Hne) as [<- _]. done.
  - intros Hne Hsp. destruct (Hsame Hne) as [<- <-]. by apply Hstill.
  - intros Hnil. eapply Permutation_Forall; [symmetry; exact Hperm'|]. by apply Hnew.
Qed.

Lemma newEpochHandler_epoch_witness :
  let cfg := {| Width := 2; Height := 1; Spawns := 1; Bedrooms := 1;
                SpawnR := 1; BedroomR := 1; MaxGap := 1 |} in
  let cells := [{| cX := 0; cY := 0; Vals := [0; 1] |}] in
  ∃ out r',
    newEpochHandler cfg [] [1%Q; 0%Q] 7 cells (replay [0; 0]) = Some (8, out, r') ∧
    allTokens out ≡ₚ [0; 1].
Proof.
  intros cfg cells.
  destruct (newEpochHandler_epoch cfg [] [1%Q; 0%Q] 7 cells (replay [0; 0]))
    as (out & r' & Hrun & _ & Hperm & _).
  - constructor; [|constructor]. split; [reflexivity|].
    constructor; [lia|]. constructor; [lia|constructor].
  - exists out, r'. split; [exact Hrun|]. by apply Hperm.
Defined.

(** ** The image variant: layout of the circles *)





(** ** The image variant: painting a circle *)

(** X20: painting a circle that lies on the canvas paints the pixels of
    its disc and no other: every pixel written is on the canvas and within
    the radius of the centre, every pixel within the radius is written with
    the fill colour, and the last write puts the centre colour on the
    centre. *)
Theorem drawCircle_disc {A} (mg : Image.MapGenerator) (c : Image.Circle)
    (fill center : A) :
  imageInRange mg → imageContained mg c → 0 <= Image.Radius c →
  (∀ x y col, (x, y, col) ∈ drawCircle c fill center →
     0 <= x < Image.Width mg * Image.CellSize mg ∧
     0 <= y < Image.Height mg * Image.CellSize mg ∧
     (x - Image.X c) * (x - Image.X c) + (y - Image.Y c) * (y - Image.Y c)
       <= Image.Radius c * Image.Radius c) ∧
  (∀ x y,
     (x - Image.X c) * (x - Image.X c) + (y - Image.Y c) * (y - Image.Y c)
       <= Image.Radius c * Image.Radius c →
     (x, y, fill) ∈ drawCircle c fill center) ∧
  last (drawCircle c fill center) = Some (Image.X c, Image.Y c, center).
Proof.
  intros (HW & HH & _ & _) (Hx0 & Hx1 & Hy0 & Hy1) Hr.
  change (2 ^ 31) with 2147483648 in *.
  set (cx := Image.X c) in *. set (cy := Image.Y c) in *. set (R := Image.Radius c) in *.
  assert (isub 0 R = - R) as Hneg.
  { unfold isub. rewrite wrap_id; [lia|]. unfold is_int. int_consts. lia. }
  assert (∀ d, - R <= d <= R → 0 <= d * d <= R * R) as Hsq by (intros d Hd; nia).
  assert (R * R < 2147483648 * 2147483648) as HRR by nia.
  assert (∀ dx dy, - R <= dx <= R → - R <= dy <= R →
            (iadd (imul dx dx) (imul dy dy) <=? imul R R) =
            (dx * dx + dy * dy <=? R * R)) as Htest.
  { intros dx dy Hdx Hdy. pose proof (Hsq dx Hdx). pose proof (Hsq dy Hdy).
    unfold iadd, imul.
    rewrite (wrap_id (dx * dx)), (wrap_id (dy * dy)), (wrap_id (R * R))
      by (unfold is_int; int_consts; lia).
    rewrite (wrap_id (_ + _)) by (unfold is_int; int_consts; lia). done. }
  assert (∀ v d, 0 <= v - R → v + R < 2147483648 → - R <= d <= R → iadd v d = v + d)
    as Hadd.
  { intros v d ? ? ?. unfold iadd. apply wrap_id. unfold is_int. int_consts. lia. }
  unfold drawCircle. fold cx cy R. cbv zeta. rewrite Hneg.
  split_and!.
  - intros x y col. rewrite elem_of_app, list_elem_of_singleton.
    intros [Hin|[= -> -> ->]]; [|split_and!; try lia; nia].
    apply list_elem_of_bind in Hin as (dx & Hin & Hdx).
    apply list_elem_of_bind in Hin as (dy & Hin & Hdy).
    apply elem_of_seqZ in Hdx, Hdy.
    rewrite Htest in Hin by lia.
    destruct (Z.leb_spec (dx * dx + dy * dy) (R * R)) as [Hle|]; [|by apply elem_of_nil in Hin].
    apply list_elem_of_singleton in Hin as [= -> -> ->].
    rewrite !Hadd by lia.
    replace (cx + dx - cx) with dx by lia. replace (cy + dy - cy) with dy by lia.
    split_and!; lia.
  - intros x y Hdisc. apply elem_of_app. left.
    assert (∀ d e, d * d + e * e <= R * R → - R <= d <= R) as Hroot.
    { intros d e Hde. assert (0 <= e * e) by nia.
      destruct (Z.le_gt_cases d R), (Z.le_gt_cases (- R) d); [lia|nia|nia|nia]. }
    pose proof (Hroot _ _ Hdisc) as Hdx.
    rewrite Z.add_comm in Hdisc. pose proof (Hroot _ _ Hdisc) as Hdy.
    rewrite Z.add_comm in Hdisc.
    apply list_elem_of_bind. exists (x - cx). split; [|apply elem_of_seqZ; lia].
    apply list_elem_of_bind. exists (y - cy). split; [|apply elem_of_seqZ; lia].
    rewrite Htest by lia.
    destruct (Z.leb_spec ((x - cx) * (x - cx) + (y - cy) * (y - cy)) (R * R)); [|lia].
    rewrite !Hadd by lia. apply list_elem_of_singleton.
    replace (cx + (x - cx)) with x by lia. by replace (cy + (y - cy)) with y by lia.
  - by rewrite last_snoc.
Qed.

Lemma drawCircle_disc_witness :
  let mg := {| Image.Width := 1; Image.Height := 1; Image.SpawnCount := 1;
               Image.BedroomCount := 1; Image.SpawnRadius := 10;
               Image.BedroomRadius := 5; Image.MaxGap := 1; Image.CellSize := 100 |} in
  let c := {| Image.X := 10; Image.Y := 10; Image.Radius := 10; Image.IsSpawn := true |} in
  (16, 18, "red"%string) ∈ drawCircle c "red"%string "green"%string ∧
  last (drawCircle c "red"%string "green"%string) = Some (10, 10, "green"%string).
Proof.
  intros mg c.
  destruct (drawCircle_disc mg c "red"%string "green"%string) as (_ & Hfill & Hlast).
  - unfold imageInRange. simpl. change (2 ^ 31) with 2147483648. int_consts. lia.
  - unfold imageContained. simpl. lia.
  - simpl. lia.
  - split; [apply Hfill; simpl; lia|exact Hlast].
Defined.
